(** * scripts/normalize_icons.py: SVG icon normalisation and injection

    A shallow embedding of the script and the properties of its
    specification.  Python strings are lists of code points, the element
    objects of [xml.etree.ElementTree] live in a store indexed by
    references, the file system is a finite map from paths to text, and
    exceptions are values of [exn]. *)

From Stdlib Require Import NArith Lia DecimalString.
From stdpp Require Import base option list gmap strings.

Set Default Goal Selector "!".
Set Warnings "-register-all,-clear-no-such-hyp".

(** ** Python strings *)

Abbreviation pystr := (list N).

(** A literal: the code points of an ASCII string. *)
Definition str (s : string) : pystr :=
  (λ a, Ascii.N_of_ascii a) <$> String.list_ascii_of_string s.

Definition LF : N := 10.
Definition CR : N := 13.
Definition QUOT : N := 34.
Definition AMP : N := 38.
Definition LT : N := 60.
Definition GT : N := 62.
Definition BACKSLASH : N := 92.
Definition LBRACE : N := 123.
Definition RBRACE : N := 125.

(** [str.isspace] on one code point (CPython's [Py_UNICODE_ISSPACE]); the
    class [\s] of [re] on [str] patterns is the same set. *)
Definition is_space (c : N) : bool :=
  ((9 <=? c) && (c <=? 13) || (28 <=? c) && (c <=? 32)
   || (c =? 133) || (c =? 160) || (c =? 5760)
   || (8192 <=? c) && (c <=? 8202)
   || (c =? 8232) || (c =? 8233) || (c =? 8239) || (c =? 8287)
   || (c =? 12288))%N.

Fixpoint lstrip (s : pystr) : pystr :=
  match s with
  | c :: r => if is_space c then lstrip r else s
  | [] => []
  end.

Definition rstrip (s : pystr) : pystr := reverse (lstrip (reverse s)).

(** [s.strip()] *)
Definition strip (s : pystr) : pystr := rstrip (lstrip s).

Section Lower.
(** [str.lower] maps code points one by one; outside ASCII the Unicode
    tables decide, and they are taken as a parameter. *)
Variable unicode_lower : N → pystr.

Definition lower_char (c : N) : pystr :=
  if ((65 <=? c) && (c <=? 90))%N then [(c + 32)%N]
  else if (c <? 128)%N then [c]
  else unicode_lower c.

(** [s.lower()] *)
Definition lower (s : pystr) : pystr := s ≫= lower_char.
End Lower.

(** [s.startswith(p)] *)
Fixpoint startswith (p s : pystr) : bool :=
  match p, s with
  | [], _ => true
  | a :: p', b :: s' => (a =? b)%N && startswith p' s'
  | _ :: _, [] => false
  end.

(** [s.find(p)] as the text before and after the leftmost occurrence. *)
Fixpoint partition (p s : pystr) : option (pystr * pystr) :=
  if startswith p s then Some ([], drop (length p) s)
  else match s with
       | [] => None
       | c :: r => (λ ab, (c :: ab.1, ab.2)) <$> partition p r
       end.

(** [s.rfind(c)] for one code point, as the text before and after. *)
Fixpoint rpartition_char (c : N) (s : pystr) : option (pystr * pystr) :=
  match s with
  | [] => None
  | x :: r =>
      match rpartition_char c r with
      | Some (a, b) => Some (x :: a, b)
      | None => if (x =? c)%N then Some ([], r) else None
      end
  end.

(** [sep.join(parts)] *)
Fixpoint join (sep : pystr) (parts : list pystr) : pystr :=
  match parts with
  | [] => []
  | [p] => p
  | p :: ps => p ++ sep ++ join sep ps
  end.

(** The line boundaries of [str.splitlines]. *)
Definition is_linebreak (c : N) : bool :=
  ((10 <=? c) && (c <=? 13) || (28 <=? c) && (c <=? 30)
   || (c =? 133) || (c =? 8232) || (c =? 8233))%N.

(** [splitlines_from cur s]: [cur] is the line read so far, reversed. *)
Fixpoint splitlines_from (cur : pystr) (s : pystr) : list pystr :=
  match s with
  | [] => if decide (cur = []) then [] else [reverse cur]
  | c :: r =>
      if is_linebreak c then
        match r with
        | d :: r' =>
            if ((c =? CR) && (d =? LF))%N
            then reverse cur :: splitlines_from [] r'
            else reverse cur :: splitlines_from [] r
        | [] => [reverse cur]
        end
      else splitlines_from (c :: cur) r
  end.

(** [s.splitlines()] *)
Definition splitlines (s : pystr) : list pystr := splitlines_from [] s.

(** ["%d" % n] *)
Definition decimal (n : nat) : pystr :=
  str (NilZero.string_of_uint (Nat.to_uint n)).

(** Lexicographic order on code points, [a <= b] on [str]. *)
Fixpoint str_le (a b : pystr) : bool :=
  match a, b with
  | [], _ => true
  | _ :: _, [] => false
  | x :: a', y :: b' => (x <? y)%N || (x =? y)%N && str_le a' b'
  end.

(** ** Exceptions and results *)

Inductive exn :=
| ValueError (msg : pystr)
| IndexError (msg : pystr)
| RuntimeError (msg : pystr)
| FileNotFoundError (path : pystr)
| ReError (msg : pystr)             (* re.error *)
| ModelStuck.                       (* the model ran out of fuel or met a
                                       dangling reference: never raised, see
                                       [normalize_elements_refines] *)

Inductive result (A : Type) :=
| Ok (a : A)
| Err (e : exn).
Arguments Ok {A} a.
Arguments Err {A} e.

Global Instance result_ret : MRet result := λ A a, Ok a.
Global Instance result_bind : MBind result := λ A B f m,
  match m with Ok a => f a | Err e => Err e end.
Global Instance result_fmap : FMap result := λ A B f m,
  match m with Ok a => Ok (f a) | Err e => Err e end.

Definition of_option {A} (o : option A) : result A :=
  match o with Some a => Ok a | None => Err ModelStuck end.

(** [for x in l: s = body(s, x)], stopping at the first exception. *)
Fixpoint for_each {S A} (body : S → A → result S) (s : S) (l : list A)
  : result S :=
  match l with
  | [] => Ok s
  | x :: l' => s' ← body s x; for_each body s' l'
  end.

(** ** Element trees

    [xml] is a document as a value: what the parser hands over and what the
    serializer reads.  [Element] is the mutable object of ElementTree, and a
    [store] holds the objects by reference. *)

(** An attribute dictionary in insertion order. *)
Abbreviation dict := (list (pystr * pystr)).

(** [k in d] *)
Definition dict_mem (k : pystr) (d : dict) : bool :=
  bool_decide (k ∈ d.*1).

(** [d.get(k)] *)
Fixpoint dict_get (k : pystr) (d : dict) : option pystr :=
  match d with
  | [] => None
  | (k', v) :: d' => if decide (k' = k) then Some v else dict_get k d'
  end.

(** [d[k] = v]: an old key keeps its place, a new one goes last. *)
Fixpoint dict_set (k v : pystr) (d : dict) : dict :=
  match d with
  | [] => [(k, v)]
  | (k', v') :: d' =>
      if decide (k' = k) then (k, v) :: d' else (k', v') :: dict_set k v d'
  end.

(** [d.pop(k, None)]; the keys of a dictionary are distinct, so this drops
    the one entry of [k]. *)
Definition dict_pop (k : pystr) (d : dict) : dict :=
  filter (λ kv, kv.1 ≠ k) d.

Inductive xml :=
| Node (tag : pystr) (attrib : dict) (text tail : option pystr)
       (kids : list xml).

Definition xtag (t : xml) : pystr := let 'Node g _ _ _ _ := t in g.
Definition xattrib (t : xml) : dict := let 'Node _ a _ _ _ := t in a.
Definition xtext (t : xml) : option pystr := let 'Node _ _ x _ _ := t in x.
Definition xtail (t : xml) : option pystr := let 'Node _ _ _ l _ := t in l.
Definition xkids (t : xml) : list xml := let 'Node _ _ _ _ k := t in k.

(** Number of elements of a document. *)
Fixpoint xsize (t : xml) : nat :=
  let 'Node _ _ _ _ kids := t in
  S ((fix go (ks : list xml) : nat :=
        match ks with [] => 0 | k :: ks' => xsize k + go ks' end) kids).

Abbreviation ref := nat.

Record Element := mkElement {
  tag : pystr;
  attrib : dict;
  text : option pystr;
  tail : option pystr;
  children : list ref;
}.

Abbreviation store := (gmap ref Element).

Definition set_attrib (a : dict) (e : Element) : Element :=
  mkElement (tag e) a (text e) (tail e) (children e).
Definition set_children (c : list ref) (e : Element) : Element :=
  mkElement (tag e) (attrib e) (text e) (tail e) c.

(** The objects the parser creates for a document: element number [k] in
    document order is the object of reference [n + k]. *)
Fixpoint child_refs (n : ref) (kids : list xml) : list ref :=
  match kids with
  | [] => []
  | k :: ks => n :: child_refs (n + xsize k) ks
  end.

Fixpoint cells (n : ref) (t : xml) : list (ref * Element) :=
  let 'Node g a x l kids := t in
  (n, mkElement g a x l (child_refs (S n) kids))
  :: (fix go (m : ref) (ks : list xml) : list (ref * Element) :=
        match ks with
        | [] => []
        | k :: ks' => cells m k ++ go (m + xsize k) ks'
        end) (S n) kids.

(** The store after parsing [t]; the root is the object of reference [0]. *)
Definition alloc (t : xml) : store := list_to_map (cells 0 t).

(** [list(e.iter())]: the references below [r], [r] first, in document
    order. *)
Fixpoint iter (fuel : nat) (s : store) (r : ref) : option (list ref) :=
  match fuel with
  | 0 => None
  | S f =>
      e ← s !! r;
      below ← mapM (iter f s) (children e);
      Some (r :: concat below)
  end.

(** The document held below [r]. *)
Fixpoint snapshot (fuel : nat) (s : store) (r : ref) : option xml :=
  match fuel with
  | 0 => None
  | S f =>
      e ← s !! r;
      kids ← mapM (snapshot f s) (children e);
      Some (Node (tag e) (attrib e) (text e) (tail e) kids)
  end.

(** [list.remove(x)]: drops the first occurrence of [x]. *)
Fixpoint list_remove (x : ref) (l : list ref) : option (list ref) :=
  match l with
  | [] => None
  | y :: l' => if decide (y = x) then Some l' else (y ::.) <$> list_remove x l'
  end.

(** [parent.remove(elem)] *)
Definition remove (parent elem : ref) (s : store) : result store :=
  e ← of_option (s !! parent);
  match list_remove elem (children e) with
  | Some c => Ok (<[parent := set_children c e]> s)
  | None => Err (ValueError (str "list.remove(x): x not in list"))
  end.

(** ** Serialization: [ET.tostring(root, encoding="unicode")] *)

Definition SVG_NS : pystr := str "http://www.w3.org/2000/svg".

(** ElementTree's registry of prefixes, after line 11 of the script
    ([ET.register_namespace("", SVG_NS)]): URI to prefix. *)
Definition _namespace_map : dict :=
  [ (str "http://www.w3.org/XML/1998/namespace", str "xml");
    (str "http://www.w3.org/1999/xhtml", str "html");
    (str "http://www.w3.org/1999/02/22-rdf-syntax-ns#", str "rdf");
    (str "http://schemas.xmlsoap.org/wsdl/", str "wsdl");
    (str "http://www.w3.org/2001/XMLSchema", str "xs");
    (str "http://www.w3.org/2001/XMLSchema-instance", str "xsi");
    (str "http://purl.org/dc/elements/1.1/", str "dc");
    (SVG_NS, []) ].

Definition _escape_cdata (text : pystr) : pystr :=
  text ≫= λ c,
    if (c =? AMP)%N then str "&amp;"
    else if (c =? LT)%N then str "&lt;"
    else if (c =? GT)%N then str "&gt;"
    else [c].

Definition _escape_attrib (text : pystr) : pystr :=
  text ≫= λ c,
    if (c =? AMP)%N then str "&amp;"
    else if (c =? LT)%N then str "&lt;"
    else if (c =? GT)%N then str "&gt;"
    else if (c =? QUOT)%N then str "&quot;"
    else if (c =? CR)%N then str "&#13;"
    else if (c =? LF)%N then str "&#10;"
    else if (c =? 9)%N then str "&#09;"
    else [c].

(** [add_qname] of [_namespaces]: the serialized name of [qname], and the
    prefix of its namespace when it has one. *)
Definition add_qname (qname : pystr) (st : dict * dict)
  : result (dict * dict) :=
  let '(qnames, namespaces) := st in
  if startswith [LBRACE] qname then
    match rpartition_char RBRACE (drop 1 qname) with
    | None =>
        Err (ValueError (str "not enough values to unpack (expected 2, got 1)"))
    | Some (uri, local) =>
        let '(prefix, namespaces) :=
          match dict_get uri namespaces with
          | Some p => (p, namespaces)
          | None =>
              let p := default (str "ns" ++ decimal (length namespaces))
                               (dict_get uri _namespace_map) in
              (p, if decide (p = str "xml") then namespaces
                  else dict_set uri p namespaces)
          end in
        Ok (dict_set qname
              (if decide (prefix = []) then local
               else prefix ++ str ":" ++ local) qnames,
            namespaces)
    end
  else Ok (dict_set qname qname qnames, namespaces).

Definition add_qname_once (st : dict * dict) (qname : pystr)
  : result (dict * dict) :=
  if dict_mem qname st.1 then Ok st else add_qname qname st.

(** The elements of a document in document order ([elem.iter()]). *)
Fixpoint xiter (t : xml) : list xml :=
  t :: (fix go (ks : list xml) : list xml :=
          match ks with [] => [] | k :: ks' => xiter k ++ go ks' end)
         (xkids t).

(** [_namespaces(elem)]: the names of every tag and attribute key. *)
Definition _namespaces (elem : xml) : result (dict * dict) :=
  for_each (λ st e,
      st ← add_qname_once st (xtag e);
      for_each add_qname_once st (xattrib e).*1)
    ([], []) (xiter elem).

(** [sorted(namespaces.items(), key=lambda x: x[1])] *)
Fixpoint insert_by_prefix (x : pystr * pystr) (l : dict) : dict :=
  match l with
  | [] => [x]
  | y :: l' =>
      if str_le y.2 x.2 then y :: insert_by_prefix x l' else x :: y :: l'
  end.
Definition sorted_by_prefix (l : dict) : dict :=
  foldl (λ acc x, insert_by_prefix x acc) [] l.

Definition xmlns_decls (namespaces : dict) : pystr :=
  sorted_by_prefix namespaces ≫= λ '(uri, prefix),
    str " xmlns" ++ (if decide (prefix = []) then [] else str ":" ++ prefix)
    ++ str "=" ++ [QUOT] ++ _escape_attrib uri ++ [QUOT].

Definition lookup_qname (qnames : dict) (k : pystr) : result pystr :=
  of_option (dict_get k qnames).

Fixpoint serialize_attrs (qnames : dict) (items : dict) : result pystr :=
  match items with
  | [] => Ok []
  | (k, v) :: items' =>
      qk ← lookup_qname qnames k;
      rest ← serialize_attrs qnames items';
      Ok (str " " ++ qk ++ str "=" ++ [QUOT] ++ _escape_attrib v ++ [QUOT]
          ++ rest)
  end.

Definition is_truthy (o : option pystr) : bool :=
  match o with Some (_ :: _) => true | _ => false end.

Definition escaped_or_empty (o : option pystr) : pystr :=
  if is_truthy o then _escape_cdata (default [] o) else [].

(** [_serialize_xml(write, elem, qnames, namespaces, short_empty_elements=True)],
    returning what [write] receives. *)
Fixpoint _serialize_xml (qnames : dict) (namespaces : dict) (elem : xml)
  : result pystr :=
  let 'Node tag attrib text tail kids := elem in
  qtag ← lookup_qname qnames tag;
  attrs ← serialize_attrs qnames attrib;
  inner ← (fix go (ks : list xml) : result pystr :=
             match ks with
             | [] => Ok []
             | k :: ks' =>
                 a ← _serialize_xml qnames [] k; b ← go ks'; Ok (a ++ b)
             end) kids;
  Ok (str "<" ++ qtag ++ xmlns_decls namespaces ++ attrs
      ++ (if is_truthy text || negb (bool_decide (kids = []))
          then str ">" ++ escaped_or_empty text ++ inner
               ++ str "</" ++ qtag ++ str ">"
          else str " />")
      ++ escaped_or_empty tail).

Definition tostring (elem : xml) : result pystr :=
  st ← _namespaces elem;
  _serialize_xml st.1 st.2 elem.

(** ** Regular expressions *)

(** [\s*<] matched at the head of [s]: the text after the match. *)
Fixpoint match_ws_lt (s : pystr) : option pystr :=
  match s with
  | [] => None
  | c :: r =>
      if (c =? LT)%N then Some r
      else if is_space c then match_ws_lt r else None
  end.

(** [re.sub(r">\s*<", ">\n<", s)]: leftmost matches, none overlapping. *)
Fixpoint sub_gt_ws_lt (fuel : nat) (s : pystr) : pystr :=
  match fuel with
  | 0 => s
  | S f =>
      match s with
      | [] => []
      | c :: r =>
          if (c =? GT)%N then
            match match_ws_lt r with
            | Some r' => [GT; LF; LT] ++ sub_gt_ws_lt f r'
            | None => c :: sub_gt_ws_lt f r
            end
          else c :: sub_gt_ws_lt f r
      end
  end.

Definition re_sub_gt_ws_lt (s : pystr) : pystr := sub_gt_ws_lt (length s) s.

(** The pattern [re.escape(START_MARKER) + ".*?" + re.escape(END_MARKER)]
    with [re.DOTALL]: a begin marker, the shortest text up to an end marker,
    and that end marker. *)
Definition START_MARKER : pystr :=
  str "  // BEGIN GENERATED ICONS (scripts/normalize_icons.py)".
Definition END_MARKER : pystr := str "  // END GENERATED ICONS".

(** [pattern.search(s)]: the text before the leftmost match, the text
    between its markers and the text after it. *)
Definition pattern_search (s : pystr) : option (pystr * pystr * pystr) :=
  '(before, s') ← partition START_MARKER s;
  '(inside, after) ← partition END_MARKER s';
  Some (before, inside, after).

(** [pattern.sub(repl, s)] for a replacement already compiled to a function
    of the matched text. *)
Fixpoint pattern_sub_from (fuel : nat) (repl : pystr → pystr) (s : pystr)
  : pystr :=
  match fuel with
  | 0 => s
  | S f =>
      match pattern_search s with
      | None => s
      | Some (before, inside, after) =>
          before ++ repl (START_MARKER ++ inside ++ END_MARKER)
          ++ pattern_sub_from f repl after
      end
  end.

(** A replacement template of [re]: literal text and references to the
    whole match (the pattern has no group of its own). *)
Inductive template_item :=
| Literal (s : pystr)
| WholeMatch.

Definition expand (t : list template_item) (m : pystr) : pystr :=
  t ≫= λ i, match i with Literal s => s | WholeMatch => m end.

(** ** The file system and the console *)

Record world := mkWorld {
  files : gmap pystr pystr;
  stdout : list pystr;
}.

Definition M (A : Type) : Type := world → result A * world.

Definition retM {A} (a : A) : M A := λ w, (Ok a, w).
Definition raise {A} (e : exn) : M A := λ w, (Err e, w).
Definition bindM {A B} (m : M A) (f : A → M B) : M B := λ w,
  match m w with
  | (Ok a, w') => f a w'
  | (Err e, w') => (Err e, w')
  end.
Definition lift {A} (r : result A) : M A := λ w, (r, w).

Notation "x <~ m ;; k" := (bindM m (λ x, k))
  (at level 100, m at next level, right associativity,
   format "x  <~  m ;;  '/' k").

(** [path.exists()] *)
Definition path_exists (path : pystr) : M bool := λ w,
  (Ok (bool_decide (is_Some (files w !! path))), w).

(** What a file opened in text mode hands over ([newline=None]): a carriage
    return with the line feed after it, and a carriage return alone, are
    read as one line feed. *)
Fixpoint universal_newlines (s : pystr) : pystr :=
  match s with
  | [] => []
  | c :: r =>
      if (c =? CR)%N then
        LF :: match r with
              | d :: r' =>
                  if (d =? LF)%N then universal_newlines r'
                  else universal_newlines r
              | [] => []
              end
      else c :: universal_newlines r
  end.

(** [path.read_text(encoding="utf-8")]: the file holds its text as it was
    written, and reading translates the line ends. *)
Definition read_text (path : pystr) : M pystr := λ w,
  match files w !! path with
  | Some content => (Ok (universal_newlines content), w)
  | None => (Err (FileNotFoundError path), w)
  end.

(** [path.write_text(content, encoding="utf-8")], where [os.linesep] is a
    line feed: the text is stored as it is. *)
Definition write_text (path content : pystr) : M unit := λ w,
  (Ok (), mkWorld (<[path := content]> (files w)) (stdout w)).

(** [print(line)] *)
Definition print (line : pystr) : M unit := λ w,
  (Ok (), mkWorld (files w) (stdout w ++ [line])).

Fixpoint for_eachM {S A} (body : S → A → M S) (s : S) (l : list A) : M S :=
  match l with
  | [] => retM s
  | x :: l' => s' <~ body s x;; for_eachM body s' l'
  end.

(** ** The script *)

Definition SRC_DIR : pystr := str "assets/icons".
Definition ICONS_JS : pystr := str "icons.js".

Definition KEY_MAP : dict :=
  [ (str "ns", str "nintendo");
    (str "ps", str "playstation");
    (str "xbox", str "xbox") ].

Definition _strip_ns (tag : pystr) : result pystr :=
  if startswith [LBRACE] tag then
    match partition [RBRACE] tag with
    | Some (_, after) => Ok after
    | None => Err (IndexError (str "list index out of range"))
    end
  else Ok tag.

Definition DENYLIST : list pystr := [str "title"; str "desc"; str "metadata"].

(** [{child: parent for parent in elems for child in parent}] *)
Definition parent_map_of (s : store) (elems : list ref) : gmap ref ref :=
  foldl (λ m parent,
           foldl (λ m child, <[child := parent]> m) m
                 (default [] (children <$> s !! parent)))
        ∅ elems.

(** Lines 41-44, for one [elem]. *)
Definition detach_metadata (parent_map : gmap ref ref) (s : store) (elem : ref)
  : result store :=
  e ← of_option (s !! elem);
  name ← _strip_ns (tag e);
  if bool_decide (name ∈ DENYLIST) then
    match parent_map !! elem with
    | Some parent => remove parent elem s
    | None => Ok s
    end
  else Ok s.

(** Lines 46-53: the attributes the root is given. *)
Definition root_attrib (view_box : option pystr) : dict :=
  dict_set (str "focusable") (str "false")
    (dict_set (str "aria-hidden") (str "true")
      (dict_set (str "fill") (str "currentColor")
        (dict_set (str "viewBox")
           (if is_truthy view_box then default [] view_box
            else str "0 0 16 16")
          (dict_set (str "height") (str "16")
            (dict_set (str "width") (str "16") []))))).

(** [SRC_DIR / f"{stem}.svg"] *)
Definition icon_path (stem : pystr) : pystr :=
  SRC_DIR ++ str "/" ++ stem ++ str ".svg".

Section Script.
(** Library functions whose code is not in the repository:
    [ET.fromstring] (the expat parser; on the left the message of its
    [ParseError]), the Unicode tables of [str.lower], and the template
    parser of [re] ([None]: [re.error]). *)
Variable fromstring : pystr → pystr + xml.
Variable unicode_lower : N → pystr.
Variable parse_template : pystr → option (list template_item).

(** Line 59: [value in {"none", "currentcolor"}] for
    [value = elem.attrib[attr].strip().lower()]. *)
Definition is_theme_color (v : pystr) : bool :=
  bool_decide (lower unicode_lower (strip v)
               ∈ [str "none"; str "currentcolor"]).

(** Lines 56-61, for one [attr]. *)
Definition strip_color (attr : pystr) (a : dict) : dict :=
  match dict_get attr a with
  | Some v => if is_theme_color v then a else dict_pop attr a
  | None => a
  end.

(** Lines 56-62, for one [elem]. *)
Definition strip_colors (a : dict) : dict :=
  dict_pop (str "style")
    (strip_color (str "stroke") (strip_color (str "fill") a)).

Definition strip_colors_at (s : store) (elem : ref) : result store :=
  e ← of_option (s !! elem);
  Ok (<[elem := set_attrib (strip_colors (attrib e)) e]> s).

(** Lines 39-62 of [normalize_svg], on the objects of the store. *)
Definition normalize_elements (fuel : nat) (root : ref) (s : store)
  : result store :=
  elems ← of_option (iter fuel s root);
  let parent_map := parent_map_of s elems in
  s ← for_each (detach_metadata parent_map) s elems;
  root_e ← of_option (s !! root);
  let view_box := dict_get (str "viewBox") (attrib root_e) in
  let s := <[root := set_attrib (root_attrib view_box) root_e]> s in
  elems ← of_option (iter fuel s root);
  for_each strip_colors_at s elems.

(** The element tree that [normalize_svg] serializes. *)
Definition normalized_tree (doc : xml) : result xml :=
  s ← normalize_elements (xsize doc) 0 (alloc doc);
  of_option (snapshot (xsize doc) s 0).

Definition normalize_svg (svg_text : pystr) : result pystr :=
  match fromstring svg_text with
  | inl exc => Err (ValueError (str "Failed to parse SVG: " ++ exc))
  | inr doc =>
      root ← normalized_tree doc;
      svg ← tostring root;
      Ok (strip (re_sub_gt_ws_lt svg))
  end.

(** Lines 76-86 of [build_entries], for one icon. *)
Definition format_entry (key svg : pystr) : pystr :=
  let '(first, others) :=
    match splitlines svg with
    | [] => (svg, [])
    | l :: ls => (l, ls)
    end in
  match others with
  | [] => str "  " ++ key ++ str ": `" ++ first ++ str "`,"
  | _ :: _ =>
      let entry_lines :=
        (str "  " ++ key ++ str ": `" ++ first)
        :: ((λ line, (if startswith (str "</svg") line then str "  "
                      else str "    ") ++ line) <$> others) in
      join [LF]
        (take (length others) entry_lines
         ++ [default [] (last entry_lines) ++ str "`,"])
  end.

(** Lines 72-86 of [build_entries]: one round of the loop. *)
Definition icon_step (entries : list pystr) (icon : pystr * pystr)
  : M (list pystr) :=
  let '(stem, key) := icon in
  found <~ path_exists (icon_path stem);;
  if negb found then
    raise (FileNotFoundError (str "Missing icon: " ++ icon_path stem))
  else
    svg_text <~ read_text (icon_path stem);;
    svg <~ lift (normalize_svg svg_text);;
    retM (entries ++ [format_entry key svg]).

Definition build_entries : M pystr :=
  entries <~ for_eachM icon_step [] KEY_MAP;;
  retM (join [LF; LF] entries).

(** The source of an icon is there and normalizes. *)
Definition source_ok (w : world) (stem : pystr) : Prop :=
  ∃ text svg, files w !! icon_path stem = Some text
              ∧ normalize_svg (universal_newlines text) = Ok svg.

(** [pattern.sub(repl, s)]: a replacement without a backslash is literal
    text, any other goes through the template parser first. *)
Definition pattern_sub (repl s : pystr) : result pystr :=
  if bool_decide (BACKSLASH ∈ repl) then
    match parse_template repl with
    | Some t => Ok (pattern_sub_from (length s) (expand t) s)
    | None => Err (ReError (str "bad escape"))
    end
  else Ok (pattern_sub_from (length s) (λ _, repl) s).

Definition update_icons_js (entries : pystr) : M bool :=
  content <~ read_text ICONS_JS;;
  if negb (bool_decide (is_Some (pattern_search content))) then
    raise (RuntimeError (str "icons.js markers not found"))
  else
    let replacement :=
      START_MARKER ++ [LF] ++ entries ++ [LF] ++ END_MARKER in
    updated <~ lift (pattern_sub replacement content);;
    if bool_decide (updated ≠ content) then
      _ <~ write_text ICONS_JS updated;;
      retM true
    else retM false.

Definition main : M nat :=
  entries <~ build_entries;;
  changed <~ update_icons_js entries;;
  _ <~ (if changed then print (str "Updated icons.js from assets/icons")
        else print (str "icons.js already up to date"));;
  retM 0.
End Script.

(** ** A reference parser

    What [ET.fromstring] answers on the fragment of XML 1.0 that the
    examples of this file use: elements, attributes, character data, the
    predefined entities, character references, comments, processing
    instructions, CDATA sections and namespace declarations, with the line
    ends and attribute values normalized as XML 1.0 prescribes (2.11, 3.3.3).
    A document type declaration is outside the fragment and is answered with
    an error. *)
Module Expat.

Inductive event :=
| Start (name : pystr) (attrs : dict) (* raw names, values expanded *)
| End (name : pystr)
| Data (s : pystr).

(** 2.11: a carriage return, alone or before a line feed, is a line feed. *)
Fixpoint normalize_newlines (s : pystr) : pystr :=
  match s with
  | [] => []
  | c :: r =>
      if (c =? CR)%N then
        match r with
        | d :: r' =>
            if (d =? LF)%N then LF :: normalize_newlines r'
            else LF :: normalize_newlines r
        | [] => [LF]
        end
      else c :: normalize_newlines r
  end.

Definition is_xml_space (c : N) : bool :=
  ((c =? 32) || (c =? 9) || (c =? 10) || (c =? 13))%N.

Definition is_name_start (c : N) : bool :=
  ((65 <=? c) && (c <=? 90) || (97 <=? c) && (c <=? 122)
   || (c =? 95) || (c =? 58) || (128 <=? c))%N.

Definition is_name_char (c : N) : bool :=
  (is_name_start c || (48 <=? c) && (c <=? 57) || (c =? 45) || (c =? 46))%N.

Definition is_xml_char (c : N) : bool :=
  ((c =? 9) || (c =? 10) || (c =? 13) || (32 <=? c) && (c <=? 55295)
   || (57344 <=? c) && (c <=? 65533) || (65536 <=? c) && (c <=? 1114111))%N.

Fixpoint span (p : N → bool) (s : pystr) : pystr * pystr :=
  match s with
  | c :: r => if p c then let '(a, b) := span p r in (c :: a, b) else ([], s)
  | [] => ([], [])
  end.

Definition digit_value (c : N) : option N :=
  if ((48 <=? c) && (c <=? 57))%N then Some (c - 48)%N
  else if ((97 <=? c) && (c <=? 102))%N then Some (c - 87)%N
  else if ((65 <=? c) && (c <=? 70))%N then Some (c - 55)%N
  else None.

Definition number (base : N) (digits : pystr) : option N :=
  match digits with
  | [] => None
  | _ =>
      foldl (λ acc c, n ← acc; d ← digit_value c;
                      if (d <? base)%N then Some (n * base + d)%N else None)
            (Some 0%N) digits
  end.

(** The text a reference stands for; [name] is what stands between the
    ampersand and the semicolon. *)
Definition reference (name : pystr) : option pystr :=
  if decide (name = str "lt") then Some [LT]
  else if decide (name = str "gt") then Some [GT]
  else if decide (name = str "amp") then Some [AMP]
  else if decide (name = str "quot") then Some [QUOT]
  else if decide (name = str "apos") then Some [39%N]
  else
    c ← match name with
        | 35%N :: 120%N :: hex => number 16 hex
        | 35%N :: dec => number 10 dec
        | _ => None
        end;
    if is_xml_char c then Some [c] else None.

(** Character data or an attribute value with its references expanded; in
    an attribute value a literal tab or line end is a space (3.3.3). *)
Fixpoint expand_refs (fuel : nat) (in_attr : bool) (s : pystr)
  : option pystr :=
  match fuel, s with
  | _, [] => Some []
  | 0, _ => None
  | S f, c :: r =>
      if (c =? AMP)%N then
        '(name, rest) ← partition [59%N] r;
        a ← reference name;
        b ← expand_refs f in_attr rest;
        Some (a ++ b)
      else if (c =? LT)%N then None
      else if negb (is_xml_char c) then None
      else
        b ← expand_refs f in_attr r;
        Some ((if in_attr && is_xml_space c then 32%N else c) :: b)
  end.

(** The attributes of a start tag, up to its closing [>] or [/>]: the
    attributes, whether the tag is an empty-element tag, and the rest. *)
Fixpoint attributes (fuel : nat) (s : pystr) : option (dict * bool * pystr) :=
  match fuel with
  | 0 => None
  | S f =>
      let '(ws, s1) := span is_xml_space s in
      match s1 with
      | 62%N :: rest => Some ([], false, rest)
      | 47%N :: 62%N :: rest => Some ([], true, rest)
      | c :: _ =>
          if negb (is_name_start c) || bool_decide (ws = []) then None
          else
            let '(name, s2) := span is_name_char s1 in
            match (span is_xml_space s2).2 with
            | 61%N :: s3 =>
                match (span is_xml_space s3).2 with
                | q :: s4 =>
                    if ((q =? QUOT) || (q =? 39))%N then
                      '(raw, s5) ← partition [q] s4;
                      v ← expand_refs (length raw) true raw;
                      '(more, empty, rest) ← attributes f s5;
                      Some ((name, v) :: more, empty, rest)
                    else None
                | [] => None
                end
            | _ => None
            end
      | [] => None
      end
  end.

(** The events the parser reports, in order. *)
Fixpoint events (fuel : nat) (s : pystr) : option (list event) :=
  match fuel, s with
  | _, [] => Some []
  | 0, _ => None
  | S f, c :: r =>
      if (c =? LT)%N then
        if startswith (str "!--") r then
          '(_, rest) ← partition (str "-->") (drop 3 r); events f rest
        else if startswith (str "![CDATA[") r then
          '(raw, rest) ← partition (str "]]>") (drop 8 r);
          (Data raw ::.) <$> events f rest
        else if startswith (str "?") r then
          '(_, rest) ← partition (str "?>") (drop 1 r); events f rest
        else if startswith (str "/") r then
          let '(name, r1) := span is_name_char (drop 1 r) in
          match (span is_xml_space r1).2 with
          | 62%N :: rest => (End name ::.) <$> events f rest
          | _ => None
          end
        else
          match r with
          | d :: _ =>
              if is_name_start d then
                let '(name, r1) := span is_name_char r in
                '(attrs, empty, rest) ← attributes (S (length r1)) r1;
                more ← events f rest;
                Some (Start name attrs
                      :: (if empty : bool then [End name] else []) ++ more)
              else None
          | [] => None
          end
      else
        let '(raw, rest) := span (λ d, negb (d =? LT)%N) s in
        d ← expand_refs (length raw) false raw;
        (Data d ::.) <$> events f rest
  end.

(** An element that is still open. *)
Record frame := mkFrame {
  f_name : pystr;           (* the name as written *)
  f_tag : pystr;
  f_attrib : dict;
  f_text : option pystr;
  f_kids : list xml;        (* the finished children, last first *)
  f_ns : dict;              (* prefix to URI, innermost first *)
}.

Definition XML_NS : pystr := str "http://www.w3.org/XML/1998/namespace".

(** The name ElementTree gives to [name]: [{uri}local] in a namespace. *)
Definition resolve (is_attr : bool) (ns : dict) (name : pystr)
  : option pystr :=
  match partition [58%N] name with
  | Some (prefix, local) =>
      uri ← dict_get prefix ns;
      if bool_decide (uri = []) || bool_decide (local = [])
         || bool_decide (prefix = []) then None
      else Some ([LBRACE] ++ uri ++ [RBRACE] ++ local)
  | None =>
      if is_attr then Some name
      else match dict_get [] ns with
           | Some (c :: uri) => Some ([LBRACE] ++ c :: uri ++ [RBRACE] ++ name)
           | _ => Some name
           end
  end.

Definition is_ns_decl (kv : pystr * pystr) : bool :=
  bool_decide (kv.1 = str "xmlns") || startswith (str "xmlns:") kv.1.

Definition open_frame (ns : dict) (name : pystr) (attrs : dict)
  : option frame :=
  let decls := (λ kv, (drop 6 kv.1, kv.2)) <$> filter is_ns_decl attrs in
  let ns' := decls ++ ns in
  tag ← resolve false ns' name;
  attrib ← mapM (λ kv, k ← resolve true ns' kv.1; Some (k, kv.2))
                (filter (λ kv, negb (is_ns_decl kv)) attrs);
  if bool_decide (NoDup attrs.*1) && bool_decide (NoDup attrib.*1)
  then Some (mkFrame name tag attrib None [] ns')
  else None.

Definition set_tail (l : option pystr) (t : xml) : xml :=
  let 'Node g a x _ k := t in Node g a x l k.

(** The pending character data goes to the text of the open element or to
    the tail of its last child. *)
Definition flush (buf : pystr) (fr : frame) : frame :=
  match buf, f_kids fr with
  | [], _ => fr
  | _, [] =>
      mkFrame (f_name fr) (f_tag fr) (f_attrib fr) (Some buf) [] (f_ns fr)
  | _, k :: ks =>
      mkFrame (f_name fr) (f_tag fr) (f_attrib fr) (f_text fr)
              (set_tail (Some buf) k :: ks) (f_ns fr)
  end.

Definition close_frame (fr : frame) : xml :=
  Node (f_tag fr) (f_attrib fr) (f_text fr) None (reverse (f_kids fr)).

Definition add_kid (k : xml) (fr : frame) : frame :=
  mkFrame (f_name fr) (f_tag fr) (f_attrib fr) (f_text fr) (k :: f_kids fr)
          (f_ns fr).

(** The tree builder: the open elements (innermost first), the pending
    character data, and the root once it is closed. *)
Fixpoint build (evs : list event) (stack : list frame) (buf : pystr)
  (root : option xml) : option xml :=
  match evs with
  | [] => match stack with [] => root | _ => None end
  | Data d :: evs' =>
      match stack with
      | [] => if forallb is_xml_space d then build evs' [] [] root else None
      | _ => build evs' stack (buf ++ d) root
      end
  | Start name attrs :: evs' =>
      match stack, root with
      | [], Some _ => None
      | [], None =>
          fr ← open_frame [(str "xml", XML_NS)] name attrs;
          build evs' [fr] [] None
      | top :: below, _ =>
          fr ← open_frame (f_ns top) name attrs;
          build evs' (fr :: flush buf top :: below) [] root
      end
  | End name :: evs' =>
      match stack with
      | [] => None
      | top :: below =>
          if decide (f_name top = name) then
            let done := close_frame (flush buf top) in
            match below with
            | [] => build evs' [] [] (Some done)
            | parent :: below' =>
                build evs' (add_kid done parent :: below') [] root
            end
          else None
      end
  end.

(** [ET.fromstring(text)] on the fragment. *)
Definition fromstring (text : pystr) : pystr + xml :=
  let text := normalize_newlines text in
  match events (S (length text)) text ≫= λ evs, build evs [] [] None with
  | Some root => inr root
  | None => inl (str "not well-formed")
  end.

(** The Unicode tables of [str.lower] left as the identity: enough for the
    examples, whose attribute values are ASCII. *)
Definition ascii_lower : N → pystr := λ c, [c].

(** A template parser that rejects every template; the examples have no
    backslash in their replacement, so that it is never asked. *)
Definition no_template : pystr → option (list template_item) := λ _, None.

End Expat.

(** ** The transformation read as a function on documents

    What lines 39-62 compute, written on the document instead of on the
    objects of the store; [normalize_elements_refines] relates the two. *)

Definition is_ok {A} (r : result A) : bool :=
  match r with Ok _ => true | Err _ => false end.

(** [_strip_ns(tag) in {"title", "desc", "metadata"}] *)
Definition is_metadata_tag (tag : pystr) : bool :=
  match _strip_ns tag with
  | Ok name => bool_decide (name ∈ DENYLIST)
  | Err _ => false
  end.

Definition is_metadata (t : xml) : bool := is_metadata_tag (xtag t).

(** Every metadata element below the root is dropped with all it holds. *)
Fixpoint prune (t : xml) : xml :=
  let 'Node g a x l kids := t in
  Node g a x l
    ((fix go (ks : list xml) : list xml :=
        match ks with
        | [] => []
        | k :: ks' => if is_metadata k then go ks' else prune k :: go ks'
        end) kids).

(** The root is given its fixed attributes. *)
Definition reroot (t : xml) : xml :=
  let 'Node g a x l kids := t in
  Node g (root_attrib (dict_get (str "viewBox") a)) x l kids.

Section Recolor.
Variable unicode_lower : N → pystr.

(** Every element loses its colours and its style. *)
Fixpoint recolor (t : xml) : xml :=
  let 'Node g a x l kids := t in
  Node g (strip_colors unicode_lower a) x l
    ((fix go (ks : list xml) : list xml :=
        match ks with [] => [] | k :: ks' => recolor k :: go ks' end) kids).

Definition normalize_doc (t : xml) : xml := recolor (reroot (prune t)).
End Recolor.

(** The names the parser hands over are plain or of the form
    [{uri}local]: an opening brace is closed. *)
Definition name_ok (k : pystr) : bool :=
  negb (startswith [LBRACE] k) || bool_decide (RBRACE ∈ k).

Definition names_ok (t : xml) : bool :=
  forallb (λ e, name_ok (xtag e) && forallb name_ok (xattrib e).*1)
          (xiter t).

(** The elements below the root, in document order. *)
Definition descendants (t : xml) : list xml := xkids t ≫= xiter.

(** ** The output read back

    The text between two tags of the output, as a parser reads it back: a
    single line feed where the serialized tree had only white space. *)
Definition is_blank (o : option pystr) : bool := forallb is_space (default [] o).

Definition collapsed (o : option pystr) : option pystr :=
  if is_blank o then Some [LF] else o.

Fixpoint collapse_below (t : xml) : xml :=
  let 'Node g a x l kids := t in
  Node g a
    (if is_truthy x || negb (bool_decide (kids = [])) then collapsed x
     else None)
    (collapsed l)
    ((fix go (ks : list xml) : list xml :=
        match ks with [] => [] | k :: ks' => collapse_below k :: go ks' end)
       kids).

(** The root keeps its tail: nothing follows it in the output. *)
Definition collapse_ws (t : xml) : xml :=
  let 'Node g a x _ kids := collapse_below t in Node g a x (xtail t) kids.

(** ** Occurrences of a marker *)

Fixpoint occurrences (p s : pystr) : nat :=
  (if startswith p s then 1 else 0)
  + match s with [] => 0 | _ :: r => occurrences p r end.

(** ** Views used in the proofs *)

Definition xsizes (ks : list xml) : nat := sum_list (xsize <$> ks).

Fixpoint cells_list (m : ref) (ks : list xml) : list (ref * Element) :=
  match ks with
  | [] => []
  | k :: ks' => cells m k ++ cells_list (m + xsize k) ks'
  end.

Fixpoint prune_list (ks : list xml) : list xml :=
  match ks with
  | [] => []
  | k :: ks' => if is_metadata k then prune_list ks' else prune k :: prune_list ks'
  end.

Fixpoint xiter_list (ks : list xml) : list xml :=
  match ks with [] => [] | k :: ks' => xiter k ++ xiter_list ks' end.

(** The pairs that the parent map is built from. *)
Definition child_pairs (s : store) (elems : list ref) : list (ref * ref) :=
  elems ≫= λ p, (λ c, (c, p)) <$> default [] (children <$> s !! p).

(** The object of reference [c] is a title, desc or metadata element. *)
Definition metadata_ref (s0 : store) (c : ref) : bool :=
  match s0 !! c with Some e => is_metadata_tag (tag e) | None => false end.

(** An object once the loop of lines 40-44 has been through [P]. *)
Definition detached (s0 : store) (P : list ref) (e : Element) : Element :=
  set_children
    (filter (λ c, ¬ (c ∈ P ∧ metadata_ref s0 c = true)) (children e)) e.

(** The references that stay below the root. *)
Fixpoint kept (n : ref) (t : xml) : list ref :=
  n :: (fix go (m : ref) (ks : list xml) : list ref :=
          match ks with
          | [] => []
          | k :: ks' =>
              (if is_metadata k then [] else kept m k) ++ go (m + xsize k) ks'
          end) (S n) (xkids t).

Fixpoint kept_list (m : ref) (ks : list xml) : list ref :=
  match ks with
  | [] => []
  | k :: ks' =>
      (if is_metadata k then [] else kept m k) ++ kept_list (m + xsize k) ks'
  end.

Definition holds (s : store) (L : list (ref * Element)) : Prop :=
  ∀ r e, (r, e) ∈ L → s !! r = Some e.

(** The children that are not metadata elements. *)
Definition live (s0 : store) (cs : list ref) : list ref :=
  filter (λ c, metadata_ref s0 c = false) cs.

Section Views.
Variable unicode_lower : N → pystr.

Definition recolored (e : Element) : Element :=
  set_attrib (strip_colors unicode_lower (attrib e)) e.

(** What the store holds, at the end, for an element that is kept. *)
Definition final_cell (s0 : store) (e : Element) : Element :=
  mkElement (tag e) (strip_colors unicode_lower (attrib e)) (text e) (tail e)
            (live s0 (children e)).

Definition snapshot_ok (s0 s : store) (t : xml) : Prop :=
  ∀ n fuel,
    xsize t ≤ fuel → holds s0 (cells n t) →
    (∀ r e, (r, e) ∈ cells n t → r ∈ kept n t →
            s !! r = Some (final_cell s0 e)) →
    snapshot fuel s n = Some (recolor unicode_lower (prune t)).
End Views.

Definition serialize_kids (qnames : dict) : list xml → result pystr :=
  fix go (ks : list xml) : result pystr :=
    match ks with
    | [] => Ok []
    | k :: ks' => a ← _serialize_xml qnames [] k; b ← go ks'; Ok (a ++ b)
    end.

(** The names [_namespaces] meets, in the order it meets them. *)
Definition names_of (t : xml) : list pystr :=
  xiter t ≫= λ e, xtag e :: (xattrib e).*1.


(** The tags and attributes of the elements, in document order. *)
Definition labels (t : xml) : list (pystr * dict) :=
  (λ e, (xtag e, xattrib e)) <$> xiter t.

(** A run of white space. *)
Definition spaces (w : pystr) : Prop := Forall (λ c, is_space c = true) w.

(** No two tags of the text are separated by anything but one line feed. *)
Definition tags_on_lines (s : pystr) : Prop :=
  ∀ a w b, s = a ++ [GT] ++ w ++ [LT] ++ b → spaces w → w = [LF].

(** Two texts that read the same before an opening tag. *)
Definition same_before_tag (a b : pystr) : Prop :=
  ∀ pre post,
    re_sub_gt_ws_lt (pre ++ a ++ LT :: post)
    = re_sub_gt_ws_lt (pre ++ b ++ LT :: post).

Definition collapses_below (qnames : dict) (t : xml) : Prop :=
  ∀ namespaces out,
    _serialize_xml qnames namespaces t = Ok out →
    ∃ out', _serialize_xml qnames namespaces (collapse_below t) = Ok out'
            ∧ same_before_tag out out'.

(** A document that normalization leaves as it is. *)
Definition is_normal (unicode_lower : N → pystr) (t : xml) : Prop :=
  (∃ vb, xattrib t = strip_colors unicode_lower (root_attrib vb))
  ∧ Forall (λ p, is_metadata_tag p.1 = false
                 ∧ strip_colors unicode_lower p.2 = p.2) (xkids t ≫= labels).

(** The marker starts nowhere in [s]. *)
Definition absent (p s : pystr) : Prop :=
  ∀ i, startswith p (drop i s) = false.

(** [a ++ p] holds [p] only at its end. *)
Definition first_at (p a : pystr) : Prop :=
  ∀ i, i < length a → startswith p (drop i (a ++ p)) = false.

(** [pattern.sub(repl, s)] for a replacement compiled to a function. *)
Definition sub_all (repl : pystr → pystr) (s : pystr) : pystr :=
  pattern_sub_from (length s) repl s.

Ltac list_norm :=
  repeat first [rewrite <-app_assoc | rewrite <-app_comm_cons | rewrite app_nil_l].

(** Closed goals are settled by evaluation. *)
Ltac by_compute := vm_compute; first [reflexivity | done].

(** A text put together from parts without a carriage return has none. *)
Ltac no_cr :=
  repeat first
    [ assumption
    | apply not_elem_of_app; split
    | apply (bool_decide_eq_false_1 (CR ∈ _)); vm_compute; reflexivity ].

(** ** Data of the examples *)

(** The scenario of the specification. *)
Definition scenario : pystr :=
  str "<svg viewBox='0 0 24 24'><title>X</title><path fill='#000' d='M0 0h24v24H0z'/></svg>".

Definition scenario_doc : xml :=
  Node (str "svg") [(str "viewBox", str "0 0 24 24")] None None
    [ Node (str "title") [] (Some (str "X")) None [];
      Node (str "path") [(str "fill", str "#000"); (str "d", str "M0 0h24v24H0z")]
           None None [] ].

Definition scenario_root : xml :=
  Node (str "svg")
    [ (str "width", str "16"); (str "height", str "16");
      (str "viewBox", str "0 0 24 24"); (str "fill", str "currentColor");
      (str "aria-hidden", str "true"); (str "focusable", str "false") ]
    None None
    [ Node (str "path") [(str "d", str "M0 0h24v24H0z")] None None [] ].

Definition scenario_out : pystr :=
  str "<svg width=" ++ [QUOT] ++ str "16" ++ [QUOT]
  ++ str " height=" ++ [QUOT] ++ str "16" ++ [QUOT]
  ++ str " viewBox=" ++ [QUOT] ++ str "0 0 24 24" ++ [QUOT]
  ++ str " fill=" ++ [QUOT] ++ str "currentColor" ++ [QUOT]
  ++ str " aria-hidden=" ++ [QUOT] ++ str "true" ++ [QUOT]
  ++ str " focusable=" ++ [QUOT] ++ str "false" ++ [QUOT] ++ str ">" ++ [LF]
  ++ str "<path d=" ++ [QUOT] ++ str "M0 0h24v24H0z" ++ [QUOT] ++ str " />"
  ++ [LF] ++ str "</svg>".

Definition empty_viewbox : pystr := str "<svg viewBox=''/>".

Definition empty_viewbox_doc : xml :=
  Node (str "svg") [(str "viewBox", [])] None None [].

(** The start tag of a normalized root, up to its closing bracket. *)
Definition svg_open (view_box : pystr) : pystr :=
  str "<svg width=" ++ [QUOT] ++ str "16" ++ [QUOT]
  ++ str " height=" ++ [QUOT] ++ str "16" ++ [QUOT]
  ++ str " viewBox=" ++ [QUOT] ++ view_box ++ [QUOT]
  ++ str " fill=" ++ [QUOT] ++ str "currentColor" ++ [QUOT]
  ++ str " aria-hidden=" ++ [QUOT] ++ str "true" ++ [QUOT]
  ++ str " focusable=" ++ [QUOT] ++ str "false" ++ [QUOT].

Definition empty_viewbox_out : pystr := svg_open (str "0 0 16 16") ++ str " />".

(** A carriage return written as a character reference: the serializer
    writes it as it is, and a parser reads a carriage return as a line
    feed. *)
Definition carriage_return : pystr := str "<svg><text>a&#13;b</text></svg>".

(** Its normal form, with [c] between the two letters. *)
Definition carriage_return_out (c : N) : pystr :=
  svg_open (str "0 0 16 16") ++ str ">" ++ [LF]
  ++ str "<text>a" ++ [c] ++ str "b</text>" ++ [LF] ++ str "</svg>".

(** A target file with its one generated region, and one with two. *)
Definition one_region : pystr :=
  str "const ICONS = {" ++ [LF] ++ START_MARKER ++ [LF] ++ str "  old"
  ++ [LF] ++ END_MARKER ++ [LF] ++ str "};" ++ [LF].

Definition two_regions : pystr :=
  START_MARKER ++ [LF] ++ str "  a" ++ [LF] ++ END_MARKER ++ [LF]
  ++ START_MARKER ++ [LF] ++ str "  b" ++ [LF] ++ END_MARKER ++ [LF].

Definition target (content : pystr) : world :=
  mkWorld {[ ICONS_JS := content ]} [].

Definition new_entries : pystr := str "  xbox: `<svg />`,".

(** Entries that hold the end marker. *)
Definition marked_entries : pystr :=
  str "  a: `x" ++ [LF] ++ END_MARKER ++ [LF] ++ str "y`,".

(** The target once these entries are in it, with what the calls so far
    have left behind the region. *)
Definition marked_target (left_behind : pystr) : pystr :=
  str "const ICONS = {" ++ [LF] ++ START_MARKER ++ [LF] ++ marked_entries
  ++ [LF] ++ END_MARKER ++ left_behind ++ [LF] ++ str "};" ++ [LF].

(** *** The elements that are kept *)

Definition outline (t : xml) : list (pystr * option pystr * option pystr) :=
  (λ e, (xtag e, xtext e, xtail e)) <$> xiter t.

(** The tag of an svg root in the SVG namespace. *)
Definition SVG_ROOT : pystr := [LBRACE] ++ SVG_NS ++ [RBRACE] ++ str "svg".

(** What [_namespaces] keeps once it has met the root: the root is written
    [svg], and the SVG namespace is the one with the empty prefix. *)
Definition svg_default (st : dict * dict) : Prop :=
  dict_get SVG_ROOT st.1 = Some (str "svg")
  ∧ dict_get SVG_NS st.2 = Some []
  ∧ ∀ x, x ∈ st.2 → x.2 = [] → x = (SVG_NS, []).

(** The three icons and the target. *)
Definition icons_world : world :=
  mkWorld
    (<[icon_path (str "ns") := scenario]>
       (<[icon_path (str "ps") := scenario]>
          (<[icon_path (str "xbox") := scenario]>
             {[ ICONS_JS := one_region ]})))
    [].

(** What [build_entries] makes of one icon of [icons_world]. *)
Definition scenario_entry (key : pystr) : pystr :=
  str "  " ++ key ++ str ": `" ++ svg_open (str "0 0 24 24") ++ str ">" ++ [LF]
  ++ str "    <path d=" ++ [QUOT] ++ str "M0 0h24v24H0z" ++ [QUOT] ++ str " />"
  ++ [LF] ++ str "  </svg>`,".

Definition scenario_entries : pystr :=
  scenario_entry (str "nintendo") ++ [LF; LF]
  ++ scenario_entry (str "playstation") ++ [LF; LF]
  ++ scenario_entry (str "xbox").

(** An icon in the SVG namespace. *)
Definition namespaced : pystr :=
  str "<svg xmlns='http://www.w3.org/2000/svg'><path d='M0 0'/></svg>".

Definition namespaced_doc : xml :=
  Node SVG_ROOT [] None None
    [ Node ([LBRACE] ++ SVG_NS ++ [RBRACE] ++ str "path")
           [(str "d", str "M0 0")] None None [] ].

Definition namespaced_out : pystr :=
  str "<svg xmlns=" ++ [QUOT] ++ SVG_NS ++ [QUOT]
  ++ str " width=" ++ [QUOT] ++ str "16" ++ [QUOT]
  ++ str " height=" ++ [QUOT] ++ str "16" ++ [QUOT]
  ++ str " viewBox=" ++ [QUOT] ++ str "0 0 16 16" ++ [QUOT]
  ++ str " fill=" ++ [QUOT] ++ str "currentColor" ++ [QUOT]
  ++ str " aria-hidden=" ++ [QUOT] ++ str "true" ++ [QUOT]
  ++ str " focusable=" ++ [QUOT] ++ str "false" ++ [QUOT] ++ str ">" ++ [LF]
  ++ str "<path d=" ++ [QUOT] ++ str "M0 0" ++ [QUOT] ++ str " />"
  ++ [LF] ++ str "</svg>".

(** ** The claims in the words of the specification *)

(** A title, desc or metadata element, "namespace-stripped": the tag is
    one of the three names, or [{uri}name] for one of them, where the
    closing brace is the first of the tag. *)
Definition metadata_name (tag : pystr) : Prop :=
  ∃ name, name ∈ [str "title"; str "desc"; str "metadata"]
          ∧ (tag = name
             ∨ ∃ uri, (RBRACE ∉ uri)
                      ∧ tag = [LBRACE] ++ uri ++ [RBRACE] ++ name).


(** ** More data of the examples *)

(** Metadata in the SVG namespace, at several depths. *)
Definition nested_metadata : pystr :=
  str "<svg xmlns='http://www.w3.org/2000/svg'><title>t</title><g><desc>d<b/></desc><path d='M0 0'/><metadata><g><title/></g></metadata></g></svg>".

Definition svg_name (local : pystr) : pystr :=
  [LBRACE] ++ SVG_NS ++ [RBRACE] ++ local.

Definition nested_metadata_doc : xml :=
  Node (svg_name (str "svg")) [] None None
    [ Node (svg_name (str "title")) [] (Some (str "t")) None [];
      Node (svg_name (str "g")) [] None None
        [ Node (svg_name (str "desc")) [] (Some (str "d")) None
            [ Node (svg_name (str "b")) [] None None [] ];
          Node (svg_name (str "path")) [(str "d", str "M0 0")] None None [];
          Node (svg_name (str "metadata")) [] None None
            [ Node (svg_name (str "g")) [] None None
                [ Node (svg_name (str "title")) [] None None [] ] ] ] ].

Definition nested_metadata_root : xml :=
  Node (svg_name (str "svg"))
    [ (str "width", str "16"); (str "height", str "16");
      (str "viewBox", str "0 0 16 16"); (str "fill", str "currentColor");
      (str "aria-hidden", str "true"); (str "focusable", str "false") ]
    None None
    [ Node (svg_name (str "g")) [] None None
        [ Node (svg_name (str "path")) [(str "d", str "M0 0")] None None [] ] ].








(** [re]'s template parser on the replacements whose only escapes are
    [\r] and [\n]; any other escape is answered with an error. *)
Fixpoint newline_escapes (repl : pystr) : option (list template_item) :=
  match repl with
  | [] => Some []
  | c :: r =>
      if (c =? BACKSLASH)%N then
        match r with
        | d :: r' =>
            if (d =? 114)%N then (Literal [CR] ::.) <$> newline_escapes r'
            else if (d =? 110)%N then (Literal [LF] ::.) <$> newline_escapes r'
            else None
        | [] => None
        end
      else (Literal [c] ::.) <$> newline_escapes r
  end.

(** Icons whose text holds a backslash and the letter r. *)
Definition escaped_icon : pystr := str "<svg><text>a\rb</text></svg>".

Definition escaped_world : world :=
  mkWorld
    (<[icon_path (str "ns") := escaped_icon]>
       (<[icon_path (str "ps") := escaped_icon]>
          (<[icon_path (str "xbox") := escaped_icon]>
             {[ ICONS_JS := one_region ]})))
    [].

(** A target with three regions, its line ends written as carriage return
    and line feed. *)
Definition three_regions : pystr :=
  str "a" ++ [CR; LF] ++ START_MARKER ++ [CR; LF] ++ str "  x" ++ [CR; LF]
  ++ END_MARKER ++ [CR; LF] ++ str "b" ++ START_MARKER ++ END_MARKER
  ++ START_MARKER ++ str "y" ++ END_MARKER ++ str "c" ++ END_MARKER.

(** * Proofs *)

Lemma xml_ind' (P : xml → Prop) :
  (∀ g a x l kids, Forall P kids → P (Node g a x l kids)) → ∀ t, P t.
Proof.
  intros H. fix IH 1. intros [g a x l kids]. apply H.
  induction kids as [|k ks IHks]; constructor; [apply IH | apply IHks].
Qed.

Lemma xsize_eq g a x l kids : xsize (Node g a x l kids) = S (xsizes kids).
Proof.
  unfold xsizes. simpl. f_equal. induction kids as [|k ks IH]; simpl; [done|].
  by rewrite IH.
Qed.

Lemma xsize_pos t : 0 < xsize t.
Proof. destruct t. rewrite xsize_eq. lia. Qed.

Lemma xsizes_cons k ks : xsizes (k :: ks) = xsize k + xsizes ks.
Proof. done. Qed.

Lemma cells_eq n g a x l kids :
  cells n (Node g a x l kids)
  = (n, mkElement g a x l (child_refs (S n) kids)) :: cells_list (S n) kids.
Proof.
  reflexivity.
Qed.

Lemma prune_eq g a x l kids :
  prune (Node g a x l kids) = Node g a x l (prune_list kids).
Proof.
  reflexivity.
Qed.

Lemma xiter_eq t : xiter t = t :: xiter_list (xkids t).
Proof.
  by destruct t.
Qed.

Lemma xiter_list_bind ks : xiter_list ks = ks ≫= xiter.
Proof. induction ks as [|k ks IH]; simpl; [done|]. by rewrite IH. Qed.

Lemma cells_keys t : ∀ n, (cells n t).*1 = seq n (xsize t).
Proof.
  induction t as [g a x l kids IH] using xml_ind'. intros n.
  rewrite cells_eq, xsize_eq. simpl. f_equal.
  generalize (S n). clear n. induction IH as [|k ks Hk _ IHks]; intros m; [done|].
  simpl. rewrite fmap_app, Hk, IHks, xsizes_cons, seq_app. done.
Qed.

Lemma cells_list_keys ks m : (cells_list m ks).*1 = seq m (xsizes ks).
Proof.
  revert m. induction ks as [|k ks IH]; intros m; [done|].
  simpl. by rewrite fmap_app, cells_keys, IH, xsizes_cons, seq_app.
Qed.

Lemma cells_key_range n t r e : (r, e) ∈ cells n t → n ≤ r < n + xsize t.
Proof.
  intros H. assert (r ∈ (cells n t).*1) as Hr by (apply list_elem_of_fmap; by exists (r, e)).
  rewrite cells_keys in Hr. apply elem_of_seq in Hr. lia.
Qed.

Lemma cells_list_key_range m ks r e : (r, e) ∈ cells_list m ks → m ≤ r < m + xsizes ks.
Proof.
  intros H. assert (r ∈ (cells_list m ks).*1) as Hr by (apply list_elem_of_fmap; by exists (r, e)).
  rewrite cells_list_keys in Hr. apply elem_of_seq in Hr. lia.
Qed.

Lemma alloc_lookup t r e : alloc t !! r = Some e ↔ (r, e) ∈ cells 0 t.
Proof.
  unfold alloc. symmetry. apply elem_of_list_to_map.
  rewrite cells_keys. apply NoDup_seq.
Qed.

Lemma child_refs_range ks : ∀ m c, c ∈ child_refs m ks → m ≤ c < m + xsizes ks.
Proof.
  induction ks as [|k ks IH]; intros m c Hc; simpl in Hc.
  - by apply elem_of_nil in Hc.
  - rewrite xsizes_cons. pose proof (xsize_pos k).
    apply elem_of_cons in Hc as [->|Hc]; [lia|]. apply IH in Hc. lia.
Qed.

Lemma child_refs_NoDup ks : ∀ m, NoDup (child_refs m ks).
Proof.
  induction ks as [|k ks IH]; intros m; simpl; constructor; [|apply IH].
  intros Hc%child_refs_range. pose proof (xsize_pos k). lia.
Qed.

Lemma cells_in n g a x l kids r e :
  (r, e) ∈ cells n (Node g a x l kids) ↔
  (r = n ∧ e = mkElement g a x l (child_refs (S n) kids))
  ∨ (r, e) ∈ cells_list (S n) kids.
Proof. rewrite cells_eq, elem_of_cons. naive_solver. Qed.

Lemma cells_list_in m k ks r e :
  (r, e) ∈ cells_list m (k :: ks) ↔
  (r, e) ∈ cells m k ∨ (r, e) ∈ cells_list (m + xsize k) ks.
Proof. simpl. apply elem_of_app. Qed.

Lemma cells_children_range t : ∀ n r e c,
  (r, e) ∈ cells n t → c ∈ children e → r < c < n + xsize t.
Proof.
  induction t as [g a x l kids IH] using xml_ind'. intros n r e c Hin Hc.
  rewrite xsize_eq. apply cells_in in Hin as [[-> ->]|Hin].
  { simpl in Hc. apply child_refs_range in Hc. lia. }
  assert (∀ m, (r, e) ∈ cells_list m kids → r < c < m + xsizes kids) as Hgen; [|apply Hgen in Hin; lia].
  clear Hin n. induction IH as [|k ks Hk _ IHks]; intros m Hin.
  { by apply elem_of_nil in Hin. }
  rewrite xsizes_cons. apply cells_list_in in Hin as [Hin|Hin].
  - specialize (Hk _ _ _ _ Hin Hc). lia.
  - apply IHks in Hin. lia.
Qed.

Lemma cells_list_children_range ks : ∀ m r e c,
  (r, e) ∈ cells_list m ks → c ∈ children e → r < c < m + xsizes ks.
Proof.
  induction ks as [|k ks IH]; intros m r e c Hin Hc.
  { by apply elem_of_nil in Hin. }
  rewrite xsizes_cons. apply cells_list_in in Hin as [Hin|Hin].
  - pose proof (cells_children_range _ _ _ _ _ Hin Hc). lia.
  - specialize (IH _ _ _ _ Hin Hc). lia.
Qed.

Lemma cells_children_NoDup t : ∀ n r e, (r, e) ∈ cells n t → NoDup (children e).
Proof.
  induction t as [g a x l kids IH] using xml_ind'. intros n r e Hin.
  apply cells_in in Hin as [[-> ->]|Hin]; [apply child_refs_NoDup|].
  revert Hin. generalize (S n) as m. clear n.
  induction IH as [|k ks Hk _ IHks]; intros m Hin.
  { by apply elem_of_nil in Hin. }
  apply cells_list_in in Hin as [Hin|Hin]; eauto.
Qed.

Lemma cells_list_not_child_ref ks : ∀ m p e c,
  (p, e) ∈ cells_list m ks → c ∈ children e → c ∉ child_refs m ks.
Proof.
  induction ks as [|k ks IH]; intros m p e c Hin Hc.
  { by apply elem_of_nil in Hin. }
  simpl. apply cells_list_in in Hin as [Hin|Hin].
  - pose proof (cells_key_range _ _ _ _ Hin).
    pose proof (cells_children_range _ _ _ _ _ Hin Hc).
    intros [->|Hc']%elem_of_cons; [lia|]. apply child_refs_range in Hc'. lia.
  - pose proof (cells_list_key_range _ _ _ _ Hin).
    pose proof (xsize_pos k).
    pose proof (cells_list_children_range _ _ _ _ _ Hin Hc).
    intros [->|Hc']%elem_of_cons; [lia|]. by eapply IH.
Qed.

Lemma parent_unique t : ∀ n p q e e' c,
  (p, e) ∈ cells n t → (q, e') ∈ cells n t →
  c ∈ children e → c ∈ children e' → p = q.
Proof.
  induction t as [g a x l kids IH] using xml_ind'. intros n p q e e' c Hp Hq Hc Hc'.
  apply cells_in in Hp as [[-> ->]|Hp]; apply cells_in in Hq as [[-> ->]|Hq]; [done| | |].
  - simpl in Hc. by destruct (cells_list_not_child_ref _ _ _ _ _ Hq Hc').
  - simpl in Hc'. by destruct (cells_list_not_child_ref _ _ _ _ _ Hp Hc).
  - revert Hp Hq. generalize (S n) as m. clear n.
    induction IH as [|k ks Hk _ IHks]; intros m Hp Hq.
    { by apply elem_of_nil in Hp. }
    apply cells_list_in in Hp as [Hp|Hp]; apply cells_list_in in Hq as [Hq|Hq]; eauto.
    + pose proof (cells_children_range _ _ _ _ _ Hp Hc).
      pose proof (cells_list_key_range _ _ _ _ Hq).
      pose proof (cells_list_children_range _ _ _ _ _ Hq Hc'). lia.
    + pose proof (cells_children_range _ _ _ _ _ Hq Hc').
      pose proof (cells_list_key_range _ _ _ _ Hp).
      pose proof (cells_list_children_range _ _ _ _ _ Hp Hc). lia.
Qed.

Lemma cells_has_key n t r : n ≤ r < n + xsize t → ∃ e, (r, e) ∈ cells n t.
Proof.
  intros Hr. assert (r ∈ (cells n t).*1) as Hin.
  { rewrite cells_keys. apply elem_of_seq. lia. }
  apply list_elem_of_fmap in Hin as [[r' e] [-> Hin]]. eauto.
Qed.

(** iter over a store that holds the cells of a document *)
Lemma mapM_cons_Some {A B} (f : A → option B) x l y k :
  f x = Some y → mapM f l = Some k → mapM f (x :: l) = Some (y :: k).
Proof. intros Hx Hl. simpl. by rewrite Hx, Hl. Qed.

Lemma iter_cells t : ∀ n fuel (s : store),
  xsize t ≤ fuel →
  (∀ r e, (r, e) ∈ cells n t → children <$> s !! r = Some (children e)) →
  iter fuel s n = Some (seq n (xsize t)).
Proof.
  induction t as [g a x l kids IH] using xml_ind'. intros n fuel s Hfuel Hs.
  rewrite xsize_eq in *. destruct fuel as [|f]; [lia|].
  assert (children <$> s !! n = Some (child_refs (S n) kids)) as Hn.
  { apply (Hs n (mkElement g a x l (child_refs (S n) kids))), cells_in. by left. }
  destruct (s !! n) as [e0|] eqn:He0; [|done]. simpl in Hn. injection Hn as Hn.
  cbn [iter]. rewrite He0. simpl. rewrite Hn.
  assert (∃ Ls, mapM (iter f s) (child_refs (S n) kids) = Some Ls
                ∧ concat Ls = seq (S n) (xsizes kids)) as (Ls & -> & HLs).
  { assert (xsizes kids ≤ f) as Hf by lia.
    assert (∀ r e, (r, e) ∈ cells_list (S n) kids → children <$> s !! r = Some (children e)) as Hs'.
    { intros r e Hin. apply Hs, cells_in. by right. }
    revert Hf Hs'. generalize (S n) as m. clear Hs Hfuel He0 Hn n e0.
    induction IH as [|k ks Hk _ IHks]; intros m Hf Hs.
    { exists []. done. }
    rewrite xsizes_cons in *.
    destruct (IHks (m + xsize k)) as (Ls & HLs & Hcat); [lia| |].
    { intros r e Hin. apply Hs, cells_list_in. by right. }
    exists (seq m (xsize k) :: Ls). split.
    - simpl child_refs. apply mapM_cons_Some; [|done].
      apply Hk; [lia|]. intros r e Hin. apply Hs, cells_list_in. by left.
    - simpl. by rewrite Hcat, seq_app. }
  simpl. by rewrite HLs.
Qed.

Lemma parent_map_of_pairs s elems :
  parent_map_of s elems
  = foldl (λ m cp, <[cp.1 := cp.2]> m) ∅ (child_pairs s elems).
Proof.
  unfold parent_map_of, child_pairs. generalize (∅ : gmap ref ref) as m0.
  induction elems as [|p elems IH]; intros m0; [done|].
  cbn [foldl]. rewrite IH. rewrite bind_cons, foldl_app. f_equal.
  generalize (default [] (children <$> s !! p)) as cs. clear.
  intros cs. revert m0. induction cs as [|c cs IH]; intros m0; [done|].
  cbn. by rewrite IH.
Qed.

Lemma foldl_insert_notin (pairs : list (ref * ref)) (m0 : gmap ref ref) c :
  c ∉ pairs.*1 →
  foldl (λ m cp, <[cp.1 := cp.2]> m) m0 pairs !! c = m0 !! c.
Proof.
  revert m0. induction pairs as [|[c1 p1] pairs IH]; intros m0 Hc; [done|].
  cbn [foldl]. rewrite fmap_cons, not_elem_of_cons in Hc. destruct Hc as [Hne Hc].
  rewrite IH by done. simpl in *. by rewrite lookup_insert_ne.
Qed.

Lemma foldl_insert_in (pairs : list (ref * ref)) (m0 : gmap ref ref) c p :
  (c, p) ∈ pairs → (∀ p', (c, p') ∈ pairs → p' = p) →
  foldl (λ m cp, <[cp.1 := cp.2]> m) m0 pairs !! c = Some p.
Proof.
  revert m0. induction pairs as [|[c1 p1] pairs IH]; intros m0 Hin Hun.
  { by apply elem_of_nil in Hin. }
  cbn [foldl]. destruct (decide (c ∈ pairs.*1)) as [Hc|Hc].
  - apply list_elem_of_fmap in Hc as [[c' p'] [Heq Hc]]. simpl in Heq. subst c'.
    assert (p' = p) as -> by (apply Hun; by right).
    apply IH; [done|]. intros p'' Hp''. apply Hun. by right.
  - rewrite foldl_insert_notin by done.
    apply elem_of_cons in Hin as [Heq|Hin].
    + injection Heq as <- <-. simpl. by rewrite lookup_insert_eq.
    + destruct Hc. apply list_elem_of_fmap. by exists (c, p).
Qed.

Lemma child_pairs_alloc t c p :
  (c, p) ∈ child_pairs (alloc t) (seq 0 (xsize t))
  ↔ ∃ e, (p, e) ∈ cells 0 t ∧ c ∈ children e.
Proof.
  unfold child_pairs. rewrite list_elem_of_bind. split.
  - intros (q & Hin & Hq). apply list_elem_of_fmap in Hin as (c' & Heq & Hc').
    injection Heq as -> ->.
    destruct (alloc t !! q) as [e|] eqn:He; [|by apply elem_of_nil in Hc'].
    apply alloc_lookup in He. eauto.
  - intros (e & Hin & Hc). exists p. split.
    + apply alloc_lookup in Hin as ->. simpl. apply list_elem_of_fmap. eauto.
    + apply cells_key_range in Hin. apply elem_of_seq. lia.
Qed.

Lemma parent_map_Some t c p :
  parent_map_of (alloc t) (seq 0 (xsize t)) !! c = Some p
  ↔ ∃ e, (p, e) ∈ cells 0 t ∧ c ∈ children e.
Proof.
  rewrite parent_map_of_pairs.
  assert (∀ p, (∃ e, (p, e) ∈ cells 0 t ∧ c ∈ children e) →
    foldl (λ m cp, <[cp.1 := cp.2]> m) (∅ : gmap ref ref)
      (child_pairs (alloc t) (seq 0 (xsize t))) !! c = Some p) as Hif.
  { intros q Hq. apply foldl_insert_in; [by apply child_pairs_alloc|].
    intros p' (e' & Hin' & Hc')%child_pairs_alloc. destruct Hq as (e & Hin & Hc).
    eapply parent_unique; eauto. }
  split; [|apply Hif]. intros Hl.
  destruct (decide (c ∈ (child_pairs (alloc t) (seq 0 (xsize t))).*1)) as [Hc|Hc].
  - apply list_elem_of_fmap in Hc as [[c' p'] [Heq Hc]]. simpl in Heq. subst c'.
    apply child_pairs_alloc in Hc. rewrite (Hif _ Hc) in Hl. by injection Hl as <-.
  - rewrite foldl_insert_notin in Hl by done. by rewrite lookup_empty in Hl.
Qed.

Lemma parent_map_None t c p e :
  parent_map_of (alloc t) (seq 0 (xsize t)) !! c = None →
  (p, e) ∈ cells 0 t → c ∉ children e.
Proof.
  intros Hnone Hin Hc.
  assert (parent_map_of (alloc t) (seq 0 (xsize t)) !! c = Some p) as Hs
    by (apply parent_map_Some; eauto).
  congruence.
Qed.

(** ** Detaching the metadata *)

Lemma filter_ext_in {A} (P Q : A → Prop) `{∀ x, Decision (P x)} `{∀ x, Decision (Q x)} (l : list A) :
  (∀ x, x ∈ l → P x ↔ Q x) → filter P l = filter Q l.
Proof.
  induction l as [|x l IH]; intros Hext; [done|].
  rewrite !filter_cons. rewrite IH by (intros y Hy; apply Hext; by right).
  destruct (decide (P x)) as [HP|HP], (decide (Q x)) as [HQ|HQ]; try done.
  - destruct HQ. apply Hext; [by left|done].
  - destruct HP. apply Hext; [by left|done].
Qed.

Lemma list_remove_filter (Q : ref → Prop) `{∀ x, Decision (Q x)} (l : list ref) c :
  NoDup l → c ∈ l → Q c →
  list_remove c (filter Q l) = Some (filter (λ x, Q x ∧ x ≠ c) l).
Proof.
  induction l as [|y l IH]; intros Hnd Hc HQ.
  { by apply elem_of_nil in Hc. }
  apply NoDup_cons in Hnd as [Hy Hnd]. rewrite !filter_cons.
  destruct (decide (y = c)) as [->|Hne].
  - rewrite decide_True by done. simpl. rewrite decide_True by done.
    rewrite decide_False by naive_solver. f_equal.
    apply filter_ext_in. intros x Hx. split; [|naive_solver].
    intros HQx. split; [done|]. intros ->. done.
  - apply elem_of_cons in Hc as [->|Hc]; [done|].
    destruct (decide (Q y)) as [HQy|HQy].
    + rewrite decide_True by done. simpl. rewrite decide_False by done.
      by rewrite IH.
    + rewrite decide_False by naive_solver. by apply IH.
Qed.

Lemma detached_snoc s0 done c e :
  c ∉ children e ∨ metadata_ref s0 c = false →
  detached s0 (done ++ [c]) e = detached s0 done e.
Proof.
  intros Hc. unfold detached. f_equal. apply filter_ext_in. intros x Hx.
  rewrite elem_of_app, list_elem_of_singleton.
  split; intros Hn [Hin Hd]; apply Hn; (split; [|done]).
  - by left.
  - destruct Hin as [?| ->]; [done|]. destruct Hc as [Hc|Hc]; [done|congruence].
Qed.

Lemma partition_char_Some c s : c ∈ s → is_Some (partition [c] s).
Proof.
  induction s as [|x s IH]; intros Hc; [by apply elem_of_nil in Hc|].
  cbn [partition]. destruct (startswith [c] (x :: s)) eqn:Hsw; [eauto|].
  apply elem_of_cons in Hc as [->|Hc].
  - cbn [startswith] in Hsw. by rewrite N.eqb_refl in Hsw.
  - destruct (IH Hc) as [ab ->]. simpl. eauto.
Qed.

Lemma name_ok_strip_ns k : name_ok k = true → ∃ name, _strip_ns k = Ok name.
Proof.
  unfold name_ok, _strip_ns. destruct (startswith [LBRACE] k); simpl; [|eauto].
  intros Hk%bool_decide_eq_true. destruct (partition_char_Some _ _ Hk) as [[a b] ->].
  eauto.
Qed.

Lemma names_ok_xiter t u :
  names_ok t = true → u ∈ xiter t →
  name_ok (xtag u) = true ∧ Forall (λ k, name_ok k = true) (xattrib u).*1.
Proof.
  unfold names_ok. rewrite forallb_forall. intros H Hu.
  apply list_elem_of_In, H in Hu. apply andb_true_iff in Hu as [? Hu].
  split; [done|]. apply Forall_forall. intros k Hk.
  rewrite forallb_forall in Hu. by apply Hu, list_elem_of_In.
Qed.

Lemma xiter_list_in u k ks : u ∈ xiter_list (k :: ks) ↔ u ∈ xiter k ∨ u ∈ xiter_list ks.
Proof. simpl. apply elem_of_app. Qed.

Lemma cells_xiter t : ∀ n r e,
  (r, e) ∈ cells n t →
  ∃ u, u ∈ xiter t ∧ e = mkElement (xtag u) (xattrib u) (xtext u) (xtail u)
                                   (child_refs (S r) (xkids u)).
Proof.
  induction t as [g a x l kids IH] using xml_ind'. intros n r e Hin.
  rewrite xiter_eq. apply cells_in in Hin as [[-> ->]|Hin].
  { eexists. split; [by left|done]. }
  assert (∃ u, u ∈ xiter_list kids ∧ e = mkElement (xtag u) (xattrib u)
            (xtext u) (xtail u) (child_refs (S r) (xkids u))) as (u & Hu & He);
    [|exists u; split; [by right|done]].
  revert Hin. generalize (S n) as m. clear n.
  induction IH as [|k ks Hk _ IHks]; intros m Hin.
  { by apply elem_of_nil in Hin. }
  apply cells_list_in in Hin as [Hin|Hin].
  - destruct (Hk _ _ _ Hin) as (u & Hu & He). exists u. split; [|done].
    apply xiter_list_in. by left.
  - destruct (IHks _ Hin) as (u & Hu & He). exists u. split; [|done].
    apply xiter_list_in. by right.
Qed.

Lemma cells_strip_ns t n r e :
  names_ok t = true → (r, e) ∈ cells n t →
  ∃ name, _strip_ns (tag e) = Ok name
          ∧ is_metadata_tag (tag e) = bool_decide (name ∈ DENYLIST).
Proof.
  intros Hok Hin. destruct (cells_xiter _ _ _ _ Hin) as (u & Hu & ->).
  destruct (names_ok_xiter _ _ Hok Hu) as [Htag _].
  destruct (name_ok_strip_ns _ Htag) as [name Hname]. exists name.
  split; [done|]. unfold is_metadata_tag. simpl. by rewrite Hname.
Qed.

Lemma detach_loop t (pm := parent_map_of (alloc t) (seq 0 (xsize t))) :
  names_ok t = true →
  ∀ todo done s,
    seq 0 (xsize t) = done ++ todo →
    (∀ r, s !! r = detached (alloc t) done <$> alloc t !! r) →
    ∃ s', for_each (detach_metadata pm) s todo = Ok s'
          ∧ ∀ r, s' !! r = detached (alloc t) (seq 0 (xsize t)) <$> alloc t !! r.
Proof.
  intros Hok. induction todo as [|c todo IH]; intros done s Hsplit Hs.
  { exists s. rewrite app_nil_r in Hsplit. by subst done. }
  assert (NoDup (done ++ c :: todo)) as Hnd by (rewrite <-Hsplit; apply NoDup_seq).
  assert (c ∉ done) as Hcdone.
  { apply NoDup_app in Hnd as (_ & Hnd & _). intros Hc. apply (Hnd _ Hc). by left. }
  assert (c ∈ seq 0 (xsize t)) as Hc by (rewrite Hsplit; set_solver).
  apply elem_of_seq in Hc.
  destruct (cells_has_key 0 t c) as [ec Hec]; [lia|].
  destruct (cells_strip_ns _ _ _ _ Hok Hec) as (name & Hname & Hmeta).
  pose proof Hec as Hlook. apply alloc_lookup in Hlook.
  assert (metadata_ref (alloc t) c = bool_decide (name ∈ DENYLIST)) as Hden.
  { unfold metadata_ref. by rewrite Hlook. }
  assert (∃ s1, detach_metadata pm s c = Ok s1
            ∧ ∀ r, s1 !! r = detached (alloc t) (done ++ [c]) <$> alloc t !! r)
    as (s1 & Hstep & Hs1).
  2:{ cbn [for_each]. rewrite Hstep. simpl.
      apply (IH (done ++ [c])); [|done]. by rewrite <-app_assoc. }
  unfold detach_metadata.
  rewrite Hs, Hlook. simpl. rewrite Hname. simpl.
  destruct (bool_decide (name ∈ DENYLIST)) eqn:Hd.
  2:{ eexists. split; [done|]. intros r. rewrite Hs. destruct (alloc t !! r) as [e|]; [|done].
      simpl. f_equal. symmetry. apply detached_snoc. by right. }
  destruct (pm !! c) as [p|] eqn:Hp.
  2:{ eexists. split; [done|]. intros r. rewrite Hs. destruct (alloc t !! r) as [e|] eqn:He; [|done].
      simpl. f_equal. symmetry. apply detached_snoc. left.
      apply alloc_lookup in He. by eapply parent_map_None. }
  apply parent_map_Some in Hp as (ep & Hep & Hcp).
  pose proof Hep as Hlp. apply alloc_lookup in Hlp.
  unfold remove. rewrite Hs, Hlp. simpl.
  rewrite (list_remove_filter _ _ c);
    [|by eapply cells_children_NoDup|done|naive_solver].
  eexists. split; [done|]. intros r. destruct (decide (r = p)) as [->|Hne].
  - rewrite lookup_insert_eq, Hlp. simpl. f_equal. unfold detached, set_children. simpl.
    f_equal. apply filter_ext_in. intros x Hx.
    rewrite elem_of_app, list_elem_of_singleton. split.
    + intros [Hn Hxc] [[Hin| ->] Hdx]; [|done]. by apply Hn.
    + intros Hn. split; [intros [? ?]; apply Hn; split; [by left|done]|].
      intros ->. apply Hn. split; [by right|]. by rewrite Hden.
  - rewrite lookup_insert_ne by done. rewrite Hs.
    destruct (alloc t !! r) as [e|] eqn:He; [|done].
    simpl. f_equal. symmetry. apply detached_snoc. left. intros Hcr.
    apply alloc_lookup in He. apply Hne. eapply parent_unique; eauto.
Qed.

Lemma kept_eq n t : kept n t = n :: kept_list (S n) (xkids t).
Proof. by destruct t. Qed.

Lemma holds_cells_inv s n g a x l kids :
  holds s (cells n (Node g a x l kids)) →
  s !! n = Some (mkElement g a x l (child_refs (S n) kids))
  ∧ holds s (cells_list (S n) kids).
Proof.
  intros H. split; [apply H, cells_in; by left|].
  intros r e Hin. apply H, cells_in. by right.
Qed.

Lemma holds_cells_list_inv s m k ks :
  holds s (cells_list m (k :: ks)) →
  holds s (cells m k) ∧ holds s (cells_list (m + xsize k) ks).
Proof.
  intros H. split; intros r e Hin; apply H, cells_list_in; [by left|by right].
Qed.

Lemma holds_root s n t :
  holds s (cells n t) →
  s !! n = Some (mkElement (xtag t) (xattrib t) (xtext t) (xtail t)
                           (child_refs (S n) (xkids t))).
Proof. destruct t. intros H. by apply holds_cells_inv in H as [? _]. Qed.

Lemma metadata_ref_root s0 n t :
  holds s0 (cells n t) → metadata_ref s0 n = is_metadata t.
Proof. intros H. unfold metadata_ref. by rewrite (holds_root _ _ _ H). Qed.

Lemma kept_range t : ∀ n r, r ∈ kept n t → n ≤ r < n + xsize t.
Proof.
  induction t as [g a x l kids IH] using xml_ind'. intros n r.
  rewrite kept_eq, xsize_eq. simpl. intros [->|Hr]%elem_of_cons; [lia|].
  assert (S n ≤ r < S n + xsizes kids); [|lia].
  revert Hr. generalize (S n) as m. clear n.
  induction IH as [|k ks Hk _ IHks]; intros m Hr.
  { by apply elem_of_nil in Hr. }
  rewrite xsizes_cons. simpl in Hr. apply elem_of_app in Hr as [Hr|Hr].
  - destruct (is_metadata k); [by apply elem_of_nil in Hr|]. apply Hk in Hr. lia.
  - apply IHks in Hr. lia.
Qed.

Lemma kept_list_range ks : ∀ m r, r ∈ kept_list m ks → m ≤ r < m + xsizes ks.
Proof.
  induction ks as [|k ks IH]; intros m r Hr.
  { by apply elem_of_nil in Hr. }
  rewrite xsizes_cons. simpl in Hr. apply elem_of_app in Hr as [Hr|Hr].
  - destruct (is_metadata k); [by apply elem_of_nil in Hr|].
    apply kept_range in Hr. lia.
  - apply IH in Hr. lia.
Qed.

Lemma kept_NoDup t : ∀ n, NoDup (kept n t).
Proof.
  induction t as [g a x l kids IH] using xml_ind'. intros n.
  rewrite kept_eq. simpl. constructor.
  { intros Hr%kept_list_range. lia. }
  generalize (S n) as m. clear n.
  induction IH as [|k ks Hk _ IHks]; intros m; [constructor|].
  simpl. apply NoDup_app. split_and!.
  - destruct (is_metadata k); [constructor|apply Hk].
  - intros r Hr Hr'. apply kept_list_range in Hr'.
    destruct (is_metadata k); [by apply elem_of_nil in Hr|].
    apply kept_range in Hr. lia.
  - apply IHks.
Qed.

Lemma live_cons s0 c cs :
  live s0 (c :: cs) = if metadata_ref s0 c then live s0 cs else c :: live s0 cs.
Proof.
  unfold live. rewrite filter_cons. destruct (metadata_ref s0 c); by case_decide.
Qed.

Lemma detached_all t r e :
  (r, e) ∈ cells 0 t →
  detached (alloc t) (seq 0 (xsize t)) e
  = set_children (live (alloc t) (children e)) e.
Proof.
  intros Hin. unfold detached, live. f_equal. apply filter_ext_in. intros c Hc.
  pose proof (cells_children_range _ _ _ _ _ Hin Hc).
  rewrite elem_of_seq. destruct (metadata_ref (alloc t) c); split; try done.
  - intros Hn. destruct Hn. split; [lia|done].
  - intros _ [_ ?]. done.
Qed.

Lemma iter_pruned s0 s t : ∀ n fuel,
  xsize t ≤ fuel → holds s0 (cells n t) →
  (∀ r e, (r, e) ∈ cells n t →
          children <$> s !! r = Some (live s0 (children e))) →
  iter fuel s n = Some (kept n t).
Proof.
  induction t as [g a x l kids IH] using xml_ind'. intros n fuel Hfuel H0 Hs.
  rewrite xsize_eq in *. destruct fuel as [|f]; [lia|].
  assert (children <$> s !! n = Some (live s0 (child_refs (S n) kids))) as Hn.
  { apply (Hs n (mkElement g a x l (child_refs (S n) kids))), cells_in. by left. }
  destruct (s !! n) as [e0|] eqn:He0; [|done]. simpl in Hn. injection Hn as Hn.
  rewrite kept_eq. cbn [iter xkids]. rewrite He0. simpl. rewrite Hn.
  apply holds_cells_inv in H0 as [_ H0].
  assert (∃ Ls, mapM (iter f s) (live s0 (child_refs (S n) kids)) = Some Ls
                ∧ concat Ls = kept_list (S n) kids) as (Ls & -> & HLs);
    [|simpl; by rewrite HLs].
  assert (xsizes kids ≤ f) as Hf by lia.
  assert (∀ r e, (r, e) ∈ cells_list (S n) kids →
            children <$> s !! r = Some (live s0 (children e))) as Hs'.
  { intros r e Hin. apply Hs, cells_in. by right. }
  revert Hf Hs' H0. generalize (S n) as m. clear Hs Hfuel He0 Hn n e0.
  induction IH as [|k ks Hk _ IHks]; intros m Hf Hs H0.
  { exists []. done. }
  rewrite xsizes_cons in *. apply holds_cells_list_inv in H0 as [H0k H0].
  destruct (IHks (m + xsize k)) as (Ls & HLs & Hcat); [lia| |done|].
  { intros r e Hin. apply Hs, cells_list_in. by right. }
  simpl child_refs. rewrite live_cons, (metadata_ref_root _ _ _ H0k). simpl.
  destruct (is_metadata k); [by exists Ls|].
  exists (kept m k :: Ls). split; [|simpl; by rewrite Hcat].
  apply mapM_cons_Some; [|done].
  apply Hk; [lia|done|]. intros r e Hin. apply Hs, cells_list_in. by left.
Qed.

Section Colors.
Variable unicode_lower : N → pystr.
Abbreviation recolored := (recolored unicode_lower).

Lemma strip_loop (L : list ref) : ∀ s : store,
  NoDup L → (∀ r, r ∈ L → is_Some (s !! r)) →
  ∃ s', for_each (strip_colors_at unicode_lower) s L = Ok s'
        ∧ ∀ r, s' !! r = (if decide (r ∈ L) then recolored else id) <$> s !! r.
Proof.
  induction L as [|c L IH]; intros s Hnd Hs.
  { exists s. split; [done|]. intros r. rewrite decide_False by set_solver.
    by destruct (s !! r). }
  apply NoDup_cons in Hnd as [Hc Hnd].
  destruct (Hs c) as [e He]; [by left|].
  assert (strip_colors_at unicode_lower s c = Ok (<[c := recolored e]> s))
    as Hstep by (unfold strip_colors_at; by rewrite He).
  cbn [for_each]. rewrite Hstep. simpl.
  destruct (IH (<[c := recolored e]> s)) as (s' & Hloop & Hs'); [done| |].
  { intros r Hr. destruct (decide (r = c)) as [->|Hne].
    - rewrite lookup_insert_eq. eauto.
    - rewrite lookup_insert_ne by done. apply Hs. by right. }
  exists s'. split; [done|]. intros r. rewrite Hs'.
  destruct (decide (r = c)) as [->|Hne].
  - rewrite lookup_insert_eq, He, decide_False, decide_True by set_solver. done.
  - rewrite lookup_insert_ne by done.
    destruct (decide (r ∈ L)); [rewrite decide_True by set_solver|
                                rewrite decide_False by set_solver]; done.
Qed.
End Colors.

Section Refinement.
Variable unicode_lower : N → pystr.
Abbreviation strip_colors := (strip_colors unicode_lower).
Abbreviation recolor := (recolor unicode_lower).
Abbreviation recolored := (recolored unicode_lower).
Abbreviation final_cell := (final_cell unicode_lower).
Abbreviation snapshot_ok := (snapshot_ok unicode_lower).

Lemma recolor_eq g a x l kids :
  recolor (Node g a x l kids) = Node g (strip_colors a) x l (recolor <$> kids).
Proof. reflexivity. Qed.

Lemma snapshot_pruned_kids s0 s ks :
  Forall (snapshot_ok s0 s) ks →
  ∀ m fuel,
    xsizes ks ≤ fuel → holds s0 (cells_list m ks) →
    (∀ r e, (r, e) ∈ cells_list m ks → r ∈ kept_list m ks →
            s !! r = Some (final_cell s0 e)) →
    mapM (snapshot fuel s) (live s0 (child_refs m ks))
    = Some (recolor <$> prune_list ks).
Proof.
  induction 1 as [|k ks Hk _ IHks]; intros m fuel Hf H0 Hs; [done|].
  rewrite xsizes_cons in Hf. apply holds_cells_list_inv in H0 as [H0k H0].
  simpl child_refs. rewrite live_cons, (metadata_ref_root _ _ _ H0k).
  assert (mapM (snapshot fuel s) (live s0 (child_refs (m + xsize k) ks))
          = Some (recolor <$> prune_list ks)) as Hrest.
  { apply IHks; [lia|done|]. intros r e Hin Hr. apply Hs.
    - apply cells_list_in. by right.
    - simpl. apply elem_of_app. by right. }
  simpl prune_list. destruct (is_metadata k) eqn:Hmeta; [done|].
  rewrite fmap_cons. apply mapM_cons_Some; [|done].
  apply Hk; [lia|done|]. intros r e Hin Hr. apply Hs.
  - apply cells_list_in. by left.
  - simpl. rewrite Hmeta. apply elem_of_app. by left.
Qed.

Lemma snapshot_pruned s0 s t : snapshot_ok s0 s t.
Proof.
  induction t as [g a x l kids IH] using xml_ind'. intros n fuel Hfuel H0 Hs.
  rewrite xsize_eq in Hfuel. destruct fuel as [|f]; [lia|].
  rewrite prune_eq, recolor_eq. cbn [snapshot].
  rewrite (Hs n (mkElement g a x l (child_refs (S n) kids)));
    [|apply cells_in; by left|rewrite kept_eq; by left].
  apply holds_cells_inv in H0 as [_ H0]. simpl.
  rewrite (snapshot_pruned_kids s0 s kids IH (S n) f); [done|lia|done|].
  intros r e Hin Hr. apply Hs; [apply cells_in; by right|].
  rewrite kept_eq. by right.
Qed.

Lemma detached_nil s0 e : detached s0 [] e = e.
Proof.
  unfold detached. destruct e as [g a x l cs]. unfold set_children. simpl.
  f_equal. induction cs as [|c cs IH]; [done|].
  rewrite filter_cons, decide_True, IH; [done|]. intros [Hc _]. by apply elem_of_nil in Hc.
Qed.

(** Lines 39-62 on the store compute [normalize_doc]. *)
Lemma normalize_elements_refines t :
  names_ok t = true →
  ∃ s', normalize_elements unicode_lower (xsize t) 0 (alloc t) = Ok s'
        ∧ snapshot (xsize t) s' 0 = Some (normalize_doc unicode_lower t)
        ∧ ∀ r e, alloc t !! r = Some e →
            ∃ e', s' !! r = Some e' ∧ tag e' = tag e
                  ∧ children e' = live (alloc t) (children e).
Proof.
  intros Hok. unfold normalize_elements.
  rewrite (iter_cells t 0 (xsize t) (alloc t)); [|done|].
  2:{ intros r e Hin. apply alloc_lookup in Hin. by rewrite Hin. }
  simpl.
  destruct (detach_loop t Hok (seq 0 (xsize t)) [] (alloc t)) as (s1 & -> & Hs1);
    [done| |].
  { intros r. destruct (alloc t !! r); [|done]. simpl. by rewrite detached_nil. }
  simpl.
  assert (holds (alloc t) (cells 0 t)) as H0.
  { intros r e Hin. by apply alloc_lookup. }
  assert (∀ r e, (r, e) ∈ cells 0 t →
            s1 !! r = Some (set_children (live (alloc t) (children e)) e)) as Hs1'.
  { intros r e Hin. rewrite Hs1. pose proof Hin as Hl. apply alloc_lookup in Hl.
    rewrite Hl. simpl. f_equal. by eapply detached_all. }
  pose proof (holds_root _ _ _ H0) as Hroot. apply alloc_lookup in Hroot.
  rewrite (Hs1' _ _ Hroot). simpl.
  set (root_e := set_attrib _ _).
  set (s2 := <[0 := root_e]> s1).
  rewrite (iter_pruned (alloc t) s2 t 0 (xsize t)); [|done|done|].
  2:{ intros r e Hin. unfold s2. destruct (decide (r = 0)) as [->|Hne].
      - rewrite lookup_insert_eq. simpl. f_equal.
        assert (alloc t !! 0 = Some e) as He by by apply alloc_lookup.
        apply alloc_lookup in Hroot. rewrite Hroot in He. by injection He as <-.
      - rewrite lookup_insert_ne by done. by rewrite (Hs1' _ _ Hin). }
  simpl.
  destruct (strip_loop unicode_lower (kept 0 t) s2) as (s3 & -> & Hs3).
  { apply kept_NoDup. }
  { intros r Hr%kept_range. destruct (cells_has_key 0 t r) as [e He]; [lia|].
    unfold s2. destruct (decide (r = 0)) as [->|Hne].
    - rewrite lookup_insert_eq. eauto.
    - rewrite lookup_insert_ne by done. rewrite (Hs1' _ _ He). eauto. }
  exists s3. split; [done|]. split.
  - destruct t as [g a x l kids]. rewrite xsize_eq. cbn [snapshot].
    rewrite Hs3, decide_True by (rewrite kept_eq; by left).
    unfold s2. rewrite lookup_insert_eq. simpl.
    apply holds_cells_inv in H0 as [_ H0].
    rewrite (snapshot_pruned_kids (alloc (Node g a x l kids)) s3 kids);
      [done|apply Forall_forall; intros; apply snapshot_pruned|lia|done|].
    intros r e Hin Hr.
    assert (r ≠ 0) as Hne by (apply cells_list_key_range in Hin; lia).
    rewrite Hs3, decide_True by (rewrite kept_eq; by right).
    unfold s2. rewrite lookup_insert_ne by done.
    rewrite (Hs1' r e); [done|]. apply cells_in. by right.
  - intros r e He. apply alloc_lookup in He. rewrite Hs3.
    assert (∃ e2, s2 !! r = Some e2 ∧ tag e2 = tag e
              ∧ children e2 = live (alloc t) (children e)) as (e2 & -> & ? & ?).
    { unfold s2. destruct (decide (r = 0)) as [->|Hne].
      - rewrite lookup_insert_eq. eexists. split; [done|].
        assert (alloc t !! 0 = Some e) as He' by by apply alloc_lookup.
        apply alloc_lookup in Hroot. rewrite Hroot in He'. by injection He' as <-.
      - rewrite lookup_insert_ne by done. rewrite (Hs1' _ _ He). eauto. }
    destruct (decide (r ∈ kept 0 t)); simpl; eauto.
Qed.
End Refinement.

(** ** Properties of [normalize_doc] *)

Section DocProperties.
Variable unicode_lower : N → pystr.
Abbreviation strip_colors := (strip_colors unicode_lower).
Abbreviation strip_color := (strip_color unicode_lower).
Abbreviation is_theme_color := (is_theme_color unicode_lower).
Abbreviation recolor := (recolor unicode_lower).
Abbreviation normalize_doc := (normalize_doc unicode_lower).
Abbreviation normalized_tree := (normalized_tree unicode_lower).

Lemma normalized_tree_refines doc :
  names_ok doc = true → normalized_tree doc = Ok (normalize_doc doc).
Proof.
  intros Hok. unfold normalized_tree.
  destruct (normalize_elements_refines unicode_lower doc Hok) as (s' & H1 & H2 & _).
  rewrite H1. simpl. by rewrite H2.
Qed.

(** The root attributes survive the colour pass as they are. *)
Lemma strip_colors_root_attrib vb :
  strip_colors (root_attrib vb)
  = [ (str "width", str "16"); (str "height", str "16");
      (str "viewBox",
       match vb with Some (c :: v) => c :: v | _ => str "0 0 16 16" end);
      (str "fill", str "currentColor"); (str "aria-hidden", str "true");
      (str "focusable", str "false") ].
Proof. destruct vb as [[|c v]|]; reflexivity. Qed.

Lemma normalize_doc_root doc :
  normalize_doc doc
  = Node (xtag doc)
      (strip_colors (root_attrib (dict_get (str "viewBox") (xattrib doc))))
      (xtext doc) (xtail doc) (recolor <$> prune_list (xkids doc)).
Proof. by destruct doc. Qed.

(** *** Dictionaries *)

Lemma dict_get_pop_eq k d : dict_get k (dict_pop k d) = None.
Proof.
  unfold dict_pop. induction d as [|[k' v] d IH]; [done|].
  rewrite filter_cons. simpl. destruct (decide (k' ≠ k)) as [Hne|Heq]; [|done].
  simpl. by rewrite decide_False.
Qed.

Lemma dict_get_pop_ne k k' d : k ≠ k' → dict_get k (dict_pop k' d) = dict_get k d.
Proof.
  intros Hne. unfold dict_pop. induction d as [|[k1 v] d IH]; [done|].
  rewrite filter_cons. simpl. destruct (decide (k1 ≠ k')) as [H1|H1]; simpl.
  - by rewrite IH.
  - apply dec_stable in H1. subst k1. by rewrite decide_False.
Qed.

Lemma dict_get_strip_color_eq attr a :
  dict_get attr (strip_color attr a)
  = v ← dict_get attr a; if is_theme_color v then Some v else None.
Proof.
  unfold strip_color. destruct (dict_get attr a) as [v|] eqn:Hv; simpl; [|done].
  destruct (is_theme_color v); [done|apply dict_get_pop_eq].
Qed.

Lemma dict_get_strip_color_ne k attr a :
  k ≠ attr → dict_get k (strip_color attr a) = dict_get k a.
Proof.
  intros Hne. unfold strip_color. destruct (dict_get attr a) as [v|]; [|done].
  destruct (is_theme_color v); [done|by apply dict_get_pop_ne].
Qed.

(** What the colour pass leaves of an attribute dictionary. *)
Lemma dict_get_strip_colors a :
  dict_get (str "style") (strip_colors a) = None
  ∧ (∀ attr, attr ∈ [str "fill"; str "stroke"] →
       dict_get attr (strip_colors a)
       = v ← dict_get attr a; if is_theme_color v then Some v else None)
  ∧ (∀ k, k ∉ [str "fill"; str "stroke"; str "style"] →
       dict_get k (strip_colors a) = dict_get k a).
Proof.
  unfold strip_colors. split_and!.
  - apply dict_get_pop_eq.
  - intros attr Hattr. rewrite dict_get_pop_ne.
    2:{ intros ->. set_solver. }
    apply elem_of_cons in Hattr as [->|Hattr].
    + rewrite dict_get_strip_color_ne by done. apply dict_get_strip_color_eq.
    + apply list_elem_of_singleton in Hattr as ->.
      rewrite dict_get_strip_color_eq. by rewrite dict_get_strip_color_ne.
  - intros k Hk. rewrite dict_get_pop_ne by set_solver.
    rewrite !dict_get_strip_color_ne by set_solver. done.
Qed.

(** *** Elements, one by one *)

Lemma xiter_recolor t :
  Forall2 (λ e e', xtag e' = xtag e ∧ xattrib e' = strip_colors (xattrib e)
                   ∧ xtext e' = xtext e ∧ xtail e' = xtail e)
          (xiter t) (xiter (recolor t)).
Proof.
  induction t as [g a x l kids IH] using xml_ind'.
  rewrite recolor_eq, !xiter_eq. constructor; [done|]. simpl.
  induction IH as [|k ks Hk _ IHks]; [constructor|].
  rewrite fmap_cons. simpl. by apply Forall2_app.
Qed.

Lemma xiter_prune_clean_kids ks :
  Forall (λ k, Forall (λ e, is_metadata e = false) (descendants (prune k))) ks →
  Forall (λ e, is_metadata e = false) (xiter_list (prune_list ks)).
Proof.
  induction 1 as [|k ks Hk _ IHks]; [constructor|].
  simpl. destruct (is_metadata k) eqn:Hmeta; [done|].
  simpl. apply Forall_app. split; [|done].
  rewrite xiter_eq. constructor.
  - destruct k. by rewrite prune_eq.
  - by rewrite xiter_list_bind.
Qed.

Lemma descendants_prune t :
  Forall (λ e, is_metadata e = false) (descendants (prune t)).
Proof.
  induction t as [g a x l kids IH] using xml_ind'.
  rewrite prune_eq. unfold descendants. simpl xkids. rewrite <-xiter_list_bind.
  by apply xiter_prune_clean_kids.
Qed.

Lemma descendants_normalize_doc doc :
  Forall (λ e, is_metadata e = false) (descendants (normalize_doc doc)).
Proof.
  pose proof (descendants_prune doc) as Hp.
  pose proof (xiter_recolor (reroot (prune doc))) as Hr.
  fold (normalize_doc doc) in Hr.
  rewrite !xiter_eq in Hr. apply Forall2_cons_1 in Hr as [_ Hr].
  unfold descendants in *. rewrite <-!xiter_list_bind in *.
  assert (xkids (reroot (prune doc)) = xkids (prune doc)) as Hk by by destruct doc.
  rewrite Hk in Hr. clear Hk. revert Hp Hr.
  generalize (xiter_list (xkids (prune doc))) as l1.
  generalize (xiter_list (xkids (normalize_doc doc))) as l2.
  intros l2 l1 Hp Hr. induction Hr as [|e e' l1 l2 (Htag & _) _ IH]; [constructor|].
  apply Forall_cons in Hp as [He Hp]. constructor; [|by apply IH].
  unfold is_metadata in *. by rewrite Htag.
Qed.
End DocProperties.

Lemma match_ws_lt_spec r r' :
  match_ws_lt r = Some r' ↔ ∃ w, spaces w ∧ r = w ++ LT :: r'.
Proof.
  split.
  - revert r'. induction r as [|c r IH]; intros r' H; [done|].
    simpl in H. destruct (c =? LT)%N eqn:Hc.
    + apply N.eqb_eq in Hc as ->. injection H as ->. exists []. by split; [constructor|].
    + destruct (is_space c) eqn:Hs; [|done].
      destruct (IH _ H) as (w & Hw & ->). exists (c :: w). by split; [constructor|].
  - intros (w & Hw & ->). induction Hw as [|c w Hc _ IH]; simpl.
    + done.
    + destruct (c =? LT)%N eqn:Hlt; [|by rewrite Hc].
      apply N.eqb_eq in Hlt as ->. done.
Qed.

Lemma match_ws_lt_length r r' : match_ws_lt r = Some r' → length r' < length r.
Proof.
  intros (w & _ & ->)%match_ws_lt_spec. rewrite length_app. simpl. lia.
Qed.

Lemma sub_gt_ws_lt_fuel s : ∀ fuel fuel',
  length s ≤ fuel → length s ≤ fuel' → sub_gt_ws_lt fuel s = sub_gt_ws_lt fuel' s.
Proof.
  induction s as [s IH] using (induction_ltof1 _ length). unfold ltof in IH.
  intros [|f] [|f'] Hf Hf'; destruct s as [|c r]; simpl in *; try done; try lia.
  destruct (c =? GT)%N.
  - destruct (match_ws_lt r) as [r'|] eqn:Hm.
    + apply match_ws_lt_length in Hm. do 3 f_equal. apply IH; lia.
    + f_equal. apply IH; lia.
  - f_equal. apply IH; lia.
Qed.

Lemma re_sub_nil : re_sub_gt_ws_lt [] = [].
Proof. done. Qed.

Lemma re_sub_other c r :
  c ≠ GT → re_sub_gt_ws_lt (c :: r) = c :: re_sub_gt_ws_lt r.
Proof.
  intros Hc. unfold re_sub_gt_ws_lt. simpl.
  by apply N.eqb_neq in Hc as ->.
Qed.

Lemma re_sub_match r r' :
  match_ws_lt r = Some r' →
  re_sub_gt_ws_lt (GT :: r) = [GT; LF; LT] ++ re_sub_gt_ws_lt r'.
Proof.
  intros Hm. unfold re_sub_gt_ws_lt. simpl. rewrite Hm.
  apply match_ws_lt_length in Hm. do 3 f_equal. apply sub_gt_ws_lt_fuel; lia.
Qed.

Lemma re_sub_no_match r :
  match_ws_lt r = None → re_sub_gt_ws_lt (GT :: r) = GT :: re_sub_gt_ws_lt r.
Proof.
  intros Hm. unfold re_sub_gt_ws_lt. simpl. by rewrite Hm.
Qed.

(** White space up to a [>] is no match. *)
Lemma match_ws_lt_app_gt a rest :
  match_ws_lt a = None → match_ws_lt (a ++ GT :: rest) = None.
Proof.
  induction a as [|c a IH]; simpl; [done|].
  destruct (c =? LT)%N; [done|]. destruct (is_space c); [done|done].
Qed.

Lemma match_ws_lt_app a a' rest :
  match_ws_lt a = Some a' → match_ws_lt (a ++ rest) = Some (a' ++ rest).
Proof.
  intros (w & Hw & ->)%match_ws_lt_spec. apply match_ws_lt_spec.
  exists w. split; [done|]. by rewrite <-app_assoc.
Qed.

(** A run of white space between [>] and [<] becomes one line feed, and
    the text on either side is rewritten on its own. *)
Lemma re_sub_between a w b :
  spaces w →
  re_sub_gt_ws_lt (a ++ [GT] ++ w ++ [LT] ++ b)
  = re_sub_gt_ws_lt a ++ [GT; LF; LT] ++ re_sub_gt_ws_lt b.
Proof.
  intros Hw. induction a as [a IH] using (induction_ltof1 _ length). unfold ltof in IH.
  destruct a as [|c a].
  { simpl. rewrite (re_sub_match _ b); [done|]. apply match_ws_lt_spec. eauto. }
  rewrite <-app_comm_cons. destruct (decide (c = GT)) as [->|Hc].
  2:{ rewrite !re_sub_other by done. rewrite IH by (simpl; lia). done. }
  destruct (match_ws_lt a) as [a'|] eqn:Hm.
  - rewrite (re_sub_match a a') by done.
    rewrite (re_sub_match _ (a' ++ [GT] ++ w ++ [LT] ++ b)) by by apply match_ws_lt_app.
    apply match_ws_lt_length in Hm. rewrite IH by (simpl; lia). by rewrite <-!app_assoc.
  - rewrite (re_sub_no_match a) by done.
    rewrite re_sub_no_match by by apply match_ws_lt_app_gt.
    rewrite IH by (simpl; lia). done.
Qed.

Lemma is_space_LT : is_space LT = false.
Proof. done. Qed.
Lemma is_space_GT : is_space GT = false.
Proof. done. Qed.

Lemma re_sub_starts_ws_lt r w b :
  spaces w → re_sub_gt_ws_lt r = w ++ LT :: b → is_Some (match_ws_lt r).
Proof.
  intros Hw. revert r. induction Hw as [|c w Hc Hw IH]; intros r Hr.
  - destruct r as [|c r]; [done|]. destruct (decide (c = GT)) as [->|Hne].
    + destruct (match_ws_lt r) eqn:Hm.
      * rewrite (re_sub_match _ _ Hm) in Hr. done.
      * rewrite (re_sub_no_match _ Hm) in Hr. done.
    + rewrite re_sub_other in Hr by done. injection Hr as -> _. simpl. eauto.
  - destruct r as [|c' r]; [done|]. destruct (decide (c' = GT)) as [->|Hne].
    + destruct (match_ws_lt r) eqn:Hm.
      * rewrite (re_sub_match _ _ Hm) in Hr. injection Hr as <-. done.
      * rewrite (re_sub_no_match _ Hm) in Hr. injection Hr as <-. done.
    + rewrite re_sub_other in Hr by done. injection Hr as -> Hr.
      destruct (IH _ Hr) as [r' Hr']. simpl. rewrite Hr', Hc.
      destruct (c =? LT)%N; eauto.
Qed.

Lemma tags_on_lines_cons c s :
  c ≠ GT → tags_on_lines s → tags_on_lines (c :: s).
Proof.
  intros Hc Hs a w b Heq Hw. destruct a as [|c' a]; simplify_eq/=.
  by eapply Hs.
Qed.

Lemma re_sub_tags_on_lines s : tags_on_lines (re_sub_gt_ws_lt s).
Proof.
  induction s as [s IH] using (induction_ltof1 _ length). unfold ltof in IH.
  destruct s as [|c r].
  { intros a w b Heq. by destruct a. }
  destruct (decide (c = GT)) as [->|Hc].
  2:{ rewrite re_sub_other by done. apply tags_on_lines_cons; [done|]. apply IH. simpl. lia. }
  destruct (match_ws_lt r) as [r'|] eqn:Hm.
  - rewrite (re_sub_match _ _ Hm). apply match_ws_lt_length in Hm.
    assert (tags_on_lines (re_sub_gt_ws_lt r')) as Hr' by (apply IH; simpl; lia).
    intros a w b Heq Hw. destruct a as [|c1 a].
    + simpl in Heq. injection Heq as Heq. destruct Hw as [|c w Hc Hw]; [done|].
      injection Heq as <- Heq. destruct Hw as [|c w Hc' Hw]; [done|].
      injection Heq as <- _. done.
    + simpl in Heq. injection Heq as <- Heq.
      destruct a as [|c2 a]; [done|]. injection Heq as <- Heq.
      destruct a as [|c3 a]; [done|]. injection Heq as <- Heq.
      by apply (Hr' a w b).
  - rewrite (re_sub_no_match _ Hm).
    intros a w b Heq Hw. destruct a as [|c1 a].
    + simpl in Heq. injection Heq as Heq.
      destruct (re_sub_starts_ws_lt _ _ _ Hw Heq) as [? ?]. congruence.
    + simpl in Heq. injection Heq as <- Heq.
      apply (IH r (Nat.lt_succ_diag_r _) a w b); done.
Qed.

(** ** [str.strip] *)

Lemma lstrip_spec s :
  ∃ w, spaces w ∧ s = w ++ lstrip s
       ∧ ∀ c, head (lstrip s) = Some c → is_space c = false.
Proof.
  induction s as [|c s (w & Hw & Hs & Hh)].
  { exists []. split_and!; [constructor|done|done]. }
  simpl. destruct (is_space c) eqn:Hc.
  - exists (c :: w). split_and!; [by constructor|by rewrite <-app_comm_cons, <-Hs|done].
  - exists []. split_and!; [constructor|done|]. by intros ? [= <-].
Qed.

Lemma rstrip_spec s :
  ∃ w, spaces w ∧ s = rstrip s ++ w
       ∧ ∀ c, last (rstrip s) = Some c → is_space c = false.
Proof.
  unfold rstrip. destruct (lstrip_spec (reverse s)) as (w & Hw & Hs & Hh).
  exists (reverse w). split_and!.
  - unfold spaces in *. by rewrite Forall_reverse.
  - rewrite <-reverse_app, <-Hs. by rewrite reverse_involutive.
  - intros c. rewrite last_reverse. apply Hh.
Qed.

Lemma strip_spec s :
  ∃ w1 w2, spaces w1 ∧ spaces w2 ∧ s = w1 ++ strip s ++ w2
    ∧ (∀ c, head (strip s) = Some c → is_space c = false)
    ∧ (∀ c, last (strip s) = Some c → is_space c = false).
Proof.
  unfold strip. destruct (lstrip_spec s) as (w1 & Hw1 & Hs1 & Hh).
  destruct (rstrip_spec (lstrip s)) as (w2 & Hw2 & Hs2 & Hl).
  exists w1, w2. split_and!; [done|done|by rewrite <-Hs2| |done].
  intros c Hc. apply Hh. rewrite Hs2.
  destruct (rstrip (lstrip s)); [done|]. done.
Qed.

Lemma tags_on_lines_segment pre s post :
  tags_on_lines (pre ++ s ++ post) → tags_on_lines s.
Proof.
  intros H a w b -> Hw. apply (H (pre ++ a) w (b ++ post)); [|done].
  by rewrite <-!app_assoc.
Qed.

Lemma strip_tags_on_lines s : tags_on_lines s → tags_on_lines (strip s).
Proof.
  intros H. destruct (strip_spec s) as (w1 & w2 & _ & _ & Hs & _).
  rewrite Hs in H. by eapply tags_on_lines_segment.
Qed.

(** A text that neither starts nor ends with white space is its own strip. *)
Lemma lstrip_id c s : is_space c = false → lstrip (c :: s) = c :: s.
Proof. intros Hc. simpl. by rewrite Hc. Qed.

Lemma strip_id s c d s' :
  s = c :: s' → last s = Some d → is_space c = false → is_space d = false →
  strip s = s.
Proof.
  intros -> Hl Hc Hd. unfold strip. rewrite lstrip_id by done.
  unfold rstrip. rewrite <-(reverse_involutive (c :: s')) at 2. f_equal.
  rewrite <-head_reverse in Hl.
  destruct (reverse (c :: s')) as [|x r]; [done|].
  simpl in Hl. injection Hl as ->. by apply lstrip_id.
Qed.

Lemma re_sub_between_cons a w b :
  spaces w →
  re_sub_gt_ws_lt (a ++ GT :: w ++ LT :: b)
  = re_sub_gt_ws_lt a ++ GT :: LF :: LT :: re_sub_gt_ws_lt b.
Proof. exact (re_sub_between a w b). Qed.

Lemma serialize_kids_cons qnames k ks :
  serialize_kids qnames (k :: ks)
  = a ← _serialize_xml qnames [] k; b ← serialize_kids qnames ks; Ok (a ++ b).
Proof. reflexivity. Qed.

Lemma serialize_eq qnames namespaces g a x l kids :
  _serialize_xml qnames namespaces (Node g a x l kids)
  = qtag ← lookup_qname qnames g;
    attrs ← serialize_attrs qnames a;
    inner ← serialize_kids qnames kids;
    Ok (str "<" ++ qtag ++ xmlns_decls namespaces ++ attrs
        ++ (if is_truthy x || negb (bool_decide (kids = []))
            then str ">" ++ escaped_or_empty x ++ inner
                 ++ str "</" ++ qtag ++ str ">"
            else str " />")
        ++ escaped_or_empty l).
Proof. reflexivity. Qed.

Lemma for_each_app {S A} (body : S → A → result S) s l1 l2 :
  for_each body s (l1 ++ l2) = s' ← for_each body s l1; for_each body s' l2.
Proof.
  revert s. induction l1 as [|x l1 IH]; intros s; [done|].
  simpl. destruct (body s x); simpl; [apply IH|done].
Qed.

Lemma namespaces_flat t :
  _namespaces t = for_each add_qname_once ([], []) (names_of t).
Proof.
  unfold _namespaces, names_of. generalize (([], []) : dict * dict) as st.
  induction (xiter t) as [|e es IH]; intros st; [done|].
  rewrite bind_cons, for_each_app. cbn [for_each].
  destruct (add_qname_once st (xtag e)) as [st1|]; simpl; [|done].
  destruct (for_each add_qname_once st1 (xattrib e).*1) as [st2|]; simpl; [|done].
  apply IH.
Qed.

(** *** Dictionaries *)


Lemma dict_get_set_ne k k' v d :
  k' ≠ k → dict_get k' (dict_set k v d) = dict_get k' d.
Proof.
  intros Hne. induction d as [|[k1 v1] d IH]; simpl; [by rewrite decide_False|].
  destruct (decide (k1 = k)) as [->|Hne1]; simpl.
  - by rewrite !decide_False.
  - destruct (decide (k1 = k')); [done|apply IH].
Qed.

Lemma dict_mem_get k d : dict_mem k d = true ↔ is_Some (dict_get k d).
Proof.
  unfold dict_mem. rewrite bool_decide_eq_true.
  induction d as [|[k' v] d IH]; simpl.
  - split; [by intros ?%elem_of_nil|by intros [? ?]].
  - rewrite elem_of_cons. destruct (decide (k' = k)) as [->|Hne].
    + split; eauto.
    + rewrite <-IH. naive_solver.
Qed.

(** *** [_namespaces] names every name it meets *)




Lemma names_ok_names_of t :
  names_ok t = true ↔ Forall (λ k, name_ok k = true) (names_of t).
Proof.
  unfold names_ok, names_of. rewrite forallb_forall, Forall_forall.
  setoid_rewrite list_elem_of_bind. setoid_rewrite <-list_elem_of_In. split.
  - intros H k (e & Hk & He). apply H in He. apply andb_true_iff in He as [Ht Ha].
    apply elem_of_cons in Hk as [->|Hk]; [done|].
    rewrite forallb_forall in Ha. by apply Ha, list_elem_of_In.
  - intros H e He. apply andb_true_iff. split.
    + apply H. exists e. split; [by left|done].
    + apply forallb_forall. intros k Hk%list_elem_of_In. apply H.
      exists e. split; [by right|done].
Qed.

(** *** [_serialize_xml] writes every element whose names are known *)


Lemma names_of_eq t :
  names_of t = xtag t :: (xattrib t).*1 ++ (xkids t ≫= names_of).
Proof.
  unfold names_of. rewrite xiter_eq, bind_cons. simpl. do 2 f_equal.
  rewrite xiter_list_bind. induction (xkids t) as [|k ks IH]; [done|].
  rewrite !bind_cons, bind_app. by rewrite IH.
Qed.



(** *** The names of the normalized document *)

Section Names.
Variable unicode_lower : N → pystr.
Abbreviation strip_colors := (strip_colors unicode_lower).
Abbreviation recolor := (recolor unicode_lower).
Abbreviation normalize_doc := (normalize_doc unicode_lower).
Variable P : pystr → Prop.

Lemma names_prune t : Forall P (names_of t) → Forall P (names_of (prune t)).
Proof.
  induction t as [g a x l kids IH] using xml_ind'.
  rewrite prune_eq, !names_of_eq. simpl.
  rewrite !Forall_cons, !Forall_app. intros (Hg & Ha & Hk). split_and!; [done..|].
  clear Hg Ha. induction IH as [|k ks Hk1 _ IHks]; [constructor|].
  rewrite bind_cons, Forall_app in Hk. destruct Hk as [Hk Hks].
  simpl. destruct (is_metadata k); [by apply IHks|].
  rewrite bind_cons, Forall_app. split; [by apply Hk1|by apply IHks].
Qed.

Lemma dict_pop_keys k a x : x ∈ (dict_pop k a).*1 → x ∈ a.*1.
Proof.
  unfold dict_pop. intros ([k' v] & -> & Hin)%list_elem_of_fmap.
  apply list_elem_of_filter in Hin as [_ Hin]. apply list_elem_of_fmap. by exists (k', v).
Qed.

Lemma strip_color_keys attr a x :
  x ∈ (strip_color unicode_lower attr a).*1 → x ∈ a.*1.
Proof.
  unfold strip_color. destruct (dict_get attr a) as [v|]; [|done].
  destruct (is_theme_color unicode_lower v); [done|apply dict_pop_keys].
Qed.

Lemma strip_colors_keys a x : x ∈ (strip_colors a).*1 → x ∈ a.*1.
Proof.
  unfold strip_colors.
  intros H%dict_pop_keys%strip_color_keys%strip_color_keys. done.
Qed.

Lemma names_recolor t : Forall P (names_of t) → Forall P (names_of (recolor t)).
Proof.
  induction t as [g a x l kids IH] using xml_ind'.
  rewrite recolor_eq, !names_of_eq. simpl.
  rewrite !Forall_cons, !Forall_app. intros (Hg & Ha & Hk). split_and!; [done| |].
  - rewrite Forall_forall in *. intros k Hin%strip_colors_keys. by apply Ha.
  - clear Hg Ha. induction IH as [|k ks Hk1 _ IHks]; [constructor|].
    rewrite bind_cons, Forall_app in Hk. destruct Hk as [Hk Hks].
    rewrite fmap_cons, bind_cons, Forall_app. split; [by apply Hk1|by apply IHks].
Qed.

Lemma root_attrib_keys vb :
  (root_attrib vb).*1
  = [str "width"; str "height"; str "viewBox"; str "fill";
     str "aria-hidden"; str "focusable"].
Proof. reflexivity. Qed.

Lemma names_normalize_doc t :
  Forall P [str "width"; str "height"; str "viewBox"; str "fill";
            str "aria-hidden"; str "focusable"] →
  Forall P (names_of t) → Forall P (names_of (normalize_doc t)).
Proof.
  intros Hroot Ht. apply names_recolor. apply names_prune in Ht.
  destruct (prune t) as [g a x l kids]. rewrite names_of_eq in *.
  cbn [xtag xkids reroot] in *. cbn [xattrib] in Ht.
  rewrite Forall_cons, Forall_app in Ht. destruct Ht as (? & ? & ?).
  change (xattrib (Node g ?r x l kids)) with r.
  rewrite root_attrib_keys. rewrite Forall_cons, Forall_app. done.
Qed.
End Names.

Lemma names_ok_normalize_doc unicode_lower doc :
  names_ok doc = true → names_ok (normalize_doc unicode_lower doc) = true.
Proof.
  rewrite !names_ok_names_of. apply names_normalize_doc.
  repeat constructor.
Qed.

(** ** Reading the output back *)

Lemma collapse_below_eq g a x l kids :
  collapse_below (Node g a x l kids)
  = Node g a
      (if is_truthy x || negb (bool_decide (kids = [])) then collapsed x
       else None)
      (collapsed l) (collapse_below <$> kids).
Proof. reflexivity. Qed.

Lemma collapse_ws_eq g a x l kids :
  collapse_ws (Node g a x l kids)
  = Node g a
      (if is_truthy x || negb (bool_decide (kids = [])) then collapsed x
       else None)
      l (collapse_below <$> kids).
Proof. reflexivity. Qed.

Lemma space_not_markup c :
  is_space c = true → (c =? AMP)%N = false ∧ (c =? LT)%N = false ∧ (c =? GT)%N = false.
Proof.
  intros Hc. split_and!; apply N.eqb_neq; intros ->; done.
Qed.

Lemma escape_spaces w : spaces w → _escape_cdata w = w.
Proof.
  induction 1 as [|c w Hc _ IH]; [done|].
  unfold _escape_cdata in *. rewrite bind_cons, IH.
  destruct (space_not_markup c Hc) as (-> & -> & ->). done.
Qed.

Lemma is_blank_spaces o : is_blank o = true → spaces (default [] o).
Proof.
  unfold is_blank, spaces. rewrite forallb_forall, Forall_forall.
  intros H c Hc. by apply H, list_elem_of_In.
Qed.

Lemma escaped_blank o :
  is_blank o = true → spaces (escaped_or_empty o).
Proof.
  intros Hb%is_blank_spaces. unfold escaped_or_empty.
  destruct (is_truthy o); [|constructor]. by rewrite escape_spaces.
Qed.

Lemma escaped_collapsed o :
  escaped_or_empty (collapsed o)
  = if is_blank o then [LF] else escaped_or_empty o.
Proof. unfold collapsed. by destruct (is_blank o). Qed.

(** White space between two tags reads the same as one line feed. *)
Lemma re_sub_slot o A B :
  re_sub_gt_ws_lt (A ++ GT :: escaped_or_empty o ++ LT :: B)
  = re_sub_gt_ws_lt (A ++ GT :: escaped_or_empty (collapsed o) ++ LT :: B).
Proof.
  rewrite escaped_collapsed. destruct (is_blank o) eqn:Hb; [|done].
  rewrite (re_sub_between_cons A (escaped_or_empty o) B) by by apply escaped_blank.
  rewrite (re_sub_between_cons A [LF] B) by by repeat constructor.
  done.
Qed.

Lemma same_before_tag_refl a : same_before_tag a a.
Proof. by intros pre post. Qed.

Lemma serialize_starts qnames namespaces t out :
  _serialize_xml qnames namespaces t = Ok out → ∃ out', out = LT :: out'.
Proof.
  destruct t as [g a x l kids]. rewrite serialize_eq.
  destruct (lookup_qname qnames g); [|done]. simpl.
  destruct (serialize_attrs qnames a); [|done]. simpl.
  destruct (serialize_kids qnames kids); [|done]. simpl.
  intros [= <-]. eauto.
Qed.

Lemma serialize_kids_starts qnames ks out post :
  serialize_kids qnames ks = Ok out → ∃ r, out ++ LT :: post = LT :: r.
Proof.
  destruct ks as [|k ks]; [intros [= <-]; eauto|].
  rewrite serialize_kids_cons.
  destruct (_serialize_xml qnames [] k) as [a|] eqn:Ha; [|done]. simpl.
  destruct (serialize_kids qnames ks); [|done]. simpl. intros [= <-].
  apply serialize_starts in Ha as [a' ->]. eauto.
Qed.

Lemma short_collapsed x (kids : list xml) :
  is_truthy x || negb (bool_decide (kids = [])) = true →
  is_truthy (collapsed x) || negb (bool_decide (collapse_below <$> kids = [])) = true.
Proof.
  unfold collapsed. destruct (is_blank x) eqn:Hb; [done|].
  destruct kids; [done|]. intros _. rewrite bool_decide_eq_false_2 by done.
  apply orb_true_r.
Qed.

Lemma short_kept x (kids : list xml) :
  is_truthy x || negb (bool_decide (kids = [])) = false →
  is_truthy None || negb (bool_decide (collapse_below <$> kids = [])) = false.
Proof.
  destruct kids; [done|]. rewrite (bool_decide_eq_false_2 (_ :: _ = [])) by done.
  by rewrite orb_true_r.
Qed.

Lemma serialize_kids_collapse qnames ks :
  Forall (collapses_below qnames) ks →
  ∀ out, serialize_kids qnames ks = Ok out →
    ∃ out', serialize_kids qnames (collapse_below <$> ks) = Ok out'
            ∧ same_before_tag out out'.
Proof.
  induction 1 as [|k ks Hk _ IHks]; intros out Hout.
  { exists out. split; [done|apply same_before_tag_refl]. }
  rewrite serialize_kids_cons in Hout.
  destruct (_serialize_xml qnames [] k) as [a|] eqn:Ha; [|done]. simpl in Hout.
  destruct (serialize_kids qnames ks) as [b|] eqn:Hb; [|done]. simpl in Hout.
  injection Hout as <-.
  destruct (Hk _ _ Ha) as (a' & Ha' & Haa). destruct (IHks _ eq_refl) as (b' & Hb' & Hbb).
  exists (a' ++ b'). rewrite fmap_cons, serialize_kids_cons, Ha'. simpl.
  rewrite Hb'. simpl. split; [done|].
  intros pre post. rewrite <-!app_assoc.
  destruct (serialize_kids_starts _ _ _ post Hb) as [r Hr]. rewrite Hr.
  rewrite (Haa pre r), <-Hr.
  specialize (Hbb (pre ++ a') post). by rewrite <-!app_assoc in Hbb.
Qed.

(** The text and the children of an element that is not written short. *)
Lemma content_collapse qnames x kids inner inner' A B :
  serialize_kids qnames (collapse_below <$> kids) = Ok inner' →
  same_before_tag inner inner' →
  re_sub_gt_ws_lt (A ++ GT :: escaped_or_empty x ++ inner ++ LT :: B)
  = re_sub_gt_ws_lt
      (A ++ GT :: escaped_or_empty (collapsed x) ++ inner' ++ LT :: B).
Proof.
  intros Hinner' Hin.
  transitivity (re_sub_gt_ws_lt
    ((A ++ GT :: escaped_or_empty x) ++ inner ++ LT :: B)); [f_equal; by list_norm|].
  rewrite Hin. destruct (serialize_kids_starts _ _ _ B Hinner') as [r ->].
  list_norm. apply re_sub_slot.
Qed.

Lemma serialize_collapse_below qnames t : collapses_below qnames t.
Proof.
  induction t as [g a x l kids IH] using xml_ind'. intros namespaces out.
  rewrite collapse_below_eq, !serialize_eq.
  destruct (lookup_qname qnames g) as [qtag|]; [|done]. simpl.
  destruct (serialize_attrs qnames a) as [attrs|]; [|done]. simpl.
  destruct (serialize_kids qnames kids) as [inner|] eqn:Hinner; [|done]. simpl.
  destruct (serialize_kids_collapse qnames kids IH _ Hinner) as (inner' & Hinner' & Hin).
  rewrite Hinner'. simpl. intros [= <-]. eexists. split; [done|].
  change (str "<") with [LT]. change (str ">") with [GT].
  change (str "</") with [LT; 47%N]. change (str " />") with [32%N; 47%N; GT].
  set (hd := LT :: qtag ++ xmlns_decls namespaces ++ attrs).
  intros pre post.
  destruct (is_truthy x || negb (bool_decide (kids = []))) eqn:Hshort.
  - rewrite (short_collapsed _ _ Hshort).
    transitivity (re_sub_gt_ws_lt
      ((pre ++ hd ++ GT :: escaped_or_empty x ++ inner ++ LT :: 47%N :: qtag)
       ++ GT :: escaped_or_empty l ++ LT :: post)).
    { f_equal. unfold hd. by list_norm. }
    rewrite re_sub_slot.
    transitivity (re_sub_gt_ws_lt
      ((pre ++ hd) ++ GT :: escaped_or_empty x ++ inner
       ++ LT :: (47%N :: qtag ++ GT :: escaped_or_empty (collapsed l) ++ LT :: post))).
    { f_equal. by list_norm. }
    rewrite (content_collapse qnames x kids inner inner') by done.
    f_equal. unfold hd. by list_norm.
  - rewrite (short_kept _ _ Hshort).
    transitivity (re_sub_gt_ws_lt
      ((pre ++ hd ++ [32%N; 47%N])
       ++ GT :: escaped_or_empty l ++ LT :: post)).
    { f_equal. unfold hd. by list_norm. }
    rewrite re_sub_slot. f_equal. unfold hd. by list_norm.
Qed.

Lemma serialize_collapse_ws qnames namespaces t out :
  _serialize_xml qnames namespaces t = Ok out →
  ∃ out', _serialize_xml qnames namespaces (collapse_ws t) = Ok out'
          ∧ re_sub_gt_ws_lt out' = re_sub_gt_ws_lt out.
Proof.
  destruct t as [g a x l kids]. rewrite collapse_ws_eq, !serialize_eq.
  destruct (lookup_qname qnames g) as [qtag|]; [|done]. simpl.
  destruct (serialize_attrs qnames a) as [attrs|]; [|done]. simpl.
  destruct (serialize_kids qnames kids) as [inner|] eqn:Hinner; [|done]. simpl.
  destruct (serialize_kids_collapse qnames kids) with (out := inner)
    as (inner' & Hinner' & Hin); [|done|].
  { apply Forall_forall. intros. apply serialize_collapse_below. }
  rewrite Hinner'. simpl. intros [= <-]. eexists. split; [done|].
  change (str "<") with [LT]. change (str ">") with [GT].
  change (str "</") with [LT; 47%N]. change (str " />") with [32%N; 47%N; GT].
  set (hd := LT :: qtag ++ xmlns_decls namespaces ++ attrs).
  destruct (is_truthy x || negb (bool_decide (kids = []))) eqn:Hshort.
  - rewrite (short_collapsed _ _ Hshort). symmetry.
    transitivity (re_sub_gt_ws_lt
      (hd ++ GT :: escaped_or_empty x ++ inner
       ++ LT :: (47%N :: qtag ++ GT :: escaped_or_empty l))).
    { f_equal. unfold hd. by list_norm. }
    rewrite (content_collapse qnames x kids inner inner') by done.
    f_equal. unfold hd. by list_norm.
  - by rewrite (short_kept _ _ Hshort).
Qed.

Lemma labels_eq t :
  labels t = (xtag t, xattrib t) :: (xkids t ≫= labels).
Proof.
  unfold labels. rewrite xiter_eq, fmap_cons. f_equal.
  rewrite xiter_list_bind. induction (xkids t) as [|k ks IH]; [done|].
  by rewrite !bind_cons, fmap_app, IH.
Qed.

Lemma bind_labels (ks : list xml) :
  ks ≫= labels = (λ e, (xtag e, xattrib e)) <$> (ks ≫= xiter).
Proof.
  induction ks as [|k ks IH]; [done|].
  rewrite !bind_cons, fmap_app, IH. done.
Qed.

Lemma names_of_labels t : names_of t = labels t ≫= λ p, p.1 :: p.2.*1.
Proof.
  unfold names_of, labels. induction (xiter t) as [|e es IH]; [done|].
  by rewrite fmap_cons, !bind_cons, IH.
Qed.

Lemma labels_collapse_below t : labels (collapse_below t) = labels t.
Proof.
  induction t as [g a x l kids IH] using xml_ind'.
  rewrite collapse_below_eq, !labels_eq. simpl. f_equal.
  induction IH as [|k ks Hk _ IHks]; [done|].
  by rewrite fmap_cons, !bind_cons, Hk, IHks.
Qed.

Lemma labels_collapse_ws t : labels (collapse_ws t) = labels t.
Proof.
  destruct t as [g a x l kids].
  rewrite collapse_ws_eq, !labels_eq. simpl. f_equal.
  induction kids as [|k ks IH]; [done|].
  by rewrite fmap_cons, !bind_cons, labels_collapse_below, IH.
Qed.

Lemma tostring_collapse_ws t svg :
  tostring t = Ok svg →
  ∃ svg', tostring (collapse_ws t) = Ok svg'
          ∧ re_sub_gt_ws_lt svg' = re_sub_gt_ws_lt svg.
Proof.
  unfold tostring. rewrite !namespaces_flat, !names_of_labels, labels_collapse_ws.
  destruct (for_each _ _ _) as [st|]; [|done]. simpl.
  apply serialize_collapse_ws.
Qed.

(** ** Documents that normalization leaves as they are *)

Section Fixed.
Variable unicode_lower : N → pystr.
Abbreviation strip_colors := (strip_colors unicode_lower).
Abbreviation strip_color := (strip_color unicode_lower).
Abbreviation recolor := (recolor unicode_lower).
Abbreviation normalize_doc := (normalize_doc unicode_lower).
Abbreviation is_normal := (is_normal unicode_lower).

Lemma dict_pop_id k a : k ∉ a.*1 → dict_pop k a = a.
Proof.
  unfold dict_pop. induction a as [|[k' v] a IH]; intros Hk; [done|].
  rewrite fmap_cons, not_elem_of_cons in Hk. destruct Hk as [Hne Hk].
  rewrite filter_cons, decide_True by done. by rewrite IH.
Qed.

Lemma dict_get_None k a : dict_get k a = None ↔ k ∉ a.*1.
Proof.
  induction a as [|[k' v] a IH]; simpl; [split; [intros _ ?%elem_of_nil|]; done|].
  rewrite not_elem_of_cons. destruct (decide (k' = k)) as [->|Hne]; [naive_solver|].
  rewrite IH. naive_solver.
Qed.

Lemma strip_colors_idem a : strip_colors (strip_colors a) = strip_colors a.
Proof.
  destruct (dict_get_strip_colors unicode_lower a) as (Hstyle & Hcol & _).
  assert (∀ attr, attr ∈ [str "fill"; str "stroke"] →
            strip_color attr (strip_colors a) = strip_colors a) as Hattr.
  { intros attr Hin. unfold strip_color at 1. rewrite (Hcol _ Hin).
    destruct (dict_get attr a) as [v|]; simpl; [|done].
    destruct (is_theme_color unicode_lower v) eqn:Hv; [by rewrite Hv|done]. }
  unfold strip_colors at 1.
  rewrite !Hattr by set_solver. apply dict_pop_id. by apply dict_get_None.
Qed.

Lemma prune_list_id ks :
  Forall (λ k, Forall (λ p, is_metadata_tag p.1 = false) (xkids k ≫= labels)
               → prune k = k) ks →
  Forall (λ p, is_metadata_tag p.1 = false) (ks ≫= labels) →
  prune_list ks = ks.
Proof.
  induction 1 as [|k ks Hk _ IHks]; intros Hall; [done|].
  rewrite bind_cons, labels_eq, Forall_app, Forall_cons in Hall.
  destruct Hall as [[Htag Hkk] Hks]. simpl in Htag.
  simpl. unfold is_metadata. rewrite Htag. by rewrite Hk, IHks.
Qed.

Lemma prune_id t :
  Forall (λ p, is_metadata_tag p.1 = false) (xkids t ≫= labels) → prune t = t.
Proof.
  induction t as [g a x l kids IH] using xml_ind'. simpl xkids. intros Hall.
  rewrite prune_eq. f_equal. by apply prune_list_id.
Qed.

Lemma recolor_id t :
  Forall (λ p, strip_colors p.2 = p.2) (labels t) → recolor t = t.
Proof.
  induction t as [g a x l kids IH] using xml_ind'.
  rewrite labels_eq, Forall_cons. cbn [xtag xattrib xkids fst snd]. intros [Ha Hk].
  rewrite recolor_eq, Ha. f_equal.
  induction IH as [|k ks Hk1 _ IHks]; [done|].
  rewrite bind_cons, Forall_app in Hk. destruct Hk as [Hk Hks].
  by rewrite fmap_cons, Hk1, IHks.
Qed.

Lemma root_attrib_fixed vb :
  strip_colors (root_attrib
    (dict_get (str "viewBox") (strip_colors (root_attrib vb))))
  = strip_colors (root_attrib vb).
Proof.
  rewrite (strip_colors_root_attrib unicode_lower vb).
  by destruct vb as [[|c v]|].
Qed.

Lemma normalize_doc_fixed t : is_normal t → normalize_doc t = t.
Proof.
  intros [[vb Hvb] Hall]. unfold normalize_doc.
  rewrite prune_id by (eapply Forall_impl; [done|]; by intros p [? ?]).
  destruct t as [g a x l kids]. cbn [xattrib xkids reroot] in *.
  rewrite recolor_eq. subst a. rewrite root_attrib_fixed. f_equal.
  induction kids as [|k ks IH]; [done|].
  rewrite bind_cons, Forall_app in Hall. destruct Hall as [Hk Hks].
  rewrite fmap_cons, IH by done. f_equal. apply recolor_id.
  eapply Forall_impl; [done|]. by intros p [? ?].
Qed.

Lemma is_normal_labels t t' :
  labels t' = labels t → is_normal t → is_normal t'.
Proof.
  rewrite !labels_eq. intros [= Htag Ha Hk] [[vb Hvb] Hall].
  split; [exists vb; congruence|]. by rewrite Hk.
Qed.

Lemma is_normal_normalize_doc doc : is_normal (normalize_doc doc).
Proof.
  split.
  { rewrite (normalize_doc_root unicode_lower). simpl. eauto. }
  pose proof (descendants_normalize_doc unicode_lower doc) as Hmeta.
  pose proof (xiter_recolor unicode_lower (reroot (prune doc))) as Hcol.
  fold (normalize_doc doc) in Hcol. set (u := normalize_doc doc) in *.
  rewrite (xiter_eq u), xiter_eq in Hcol. apply Forall2_cons_1 in Hcol as [_ Hcol].
  unfold descendants in Hmeta.
  rewrite bind_labels. rewrite <-xiter_list_bind in *. apply Forall_fmap.
  revert Hmeta Hcol. generalize (xiter_list (xkids u)) as l2.
  generalize (xiter_list (xkids (reroot (prune doc)))) as l1.
  intros l1 l2 Hmeta Hcol. induction Hcol as [|e e' l1 l2 (_ & Ha & _) _ IH]; [constructor|].
  apply Forall_cons in Hmeta as [He Hmeta]. constructor; [|by apply IH].
  simpl. split; [done|]. rewrite Ha. apply strip_colors_idem.
Qed.
End Fixed.

(** ** Searching a marker *)

Lemma startswith_spec p s : startswith p s = true ↔ ∃ r, s = p ++ r.
Proof.
  revert s. induction p as [|a p IH]; intros s; simpl.
  - split; eauto.
  - destruct s as [|b s]; [split; [done|by intros [? ?]]|].
    rewrite andb_true_iff, N.eqb_eq, IH. split.
    + intros [-> [r ->]]. eauto.
    + intros [r [= -> ->]]. eauto.
Qed.

Lemma startswith_app p r : startswith p (p ++ r) = true.
Proof. apply startswith_spec. eauto. Qed.

Lemma startswith_app_long p x y :
  length p ≤ length x → startswith p (x ++ y) = startswith p x.
Proof.
  revert x. induction p as [|a p IH]; intros x Hlen; [done|].
  destruct x as [|b x]; simpl in *; [lia|]. rewrite IH by lia. done.
Qed.

Lemma partition_nil_pat s : partition [] s = Some ([], s).
Proof. by destruct s. Qed.

Lemma partition_cons p c r :
  startswith p (c :: r) = false →
  partition p (c :: r) = (λ ab, (c :: ab.1, ab.2)) <$> partition p r.
Proof. intros H. cbn [partition]. by rewrite H. Qed.

Lemma partition_here p s :
  startswith p s = true → partition p s = Some ([], drop (length p) s).
Proof. intros H. destruct s; cbn [partition]; by rewrite H. Qed.

Lemma partition_Some p s a b : partition p s = Some (a, b) → s = a ++ p ++ b.
Proof.
  revert a. induction s as [|c r IH]; intros a H.
  - cbn [partition] in H. destruct (startswith p []) eqn:Hsw; [|done].
    injection H as <- <-. apply startswith_spec in Hsw as [r Hr].
    destruct p; [|done]. done.
  - destruct (startswith p (c :: r)) eqn:Hsw.
    + rewrite partition_here in H by done. injection H as <- <-.
      apply startswith_spec in Hsw as [r' Hr]. rewrite Hr at 1.
      rewrite Hr, drop_app_length. done.
    + rewrite partition_cons in H by done.
      destruct (partition p r) as [[a' b']|] eqn:Hp; [|done].
      injection H as <- <-. simpl. f_equal. by apply IH.
Qed.

Lemma partition_None p s : partition p s = None ↔ absent p s.
Proof.
  induction s as [|c r IH].
  - cbn [partition]. split.
    + intros H i. rewrite drop_nil. by destruct (startswith p []).
    + intros H. specialize (H 0). simpl in H. by rewrite H.
  - destruct (startswith p (c :: r)) eqn:Hsw.
    + rewrite partition_here by done. split; [done|]. intros H.
      specialize (H 0). simpl in H. congruence.
    + rewrite partition_cons by done. split.
      * intros H [|i]; [done|]. simpl. apply IH.
        by destruct (partition p r).
      * intros H. assert (partition p r = None) as ->; [|done].
        apply IH. intros i. apply (H (S i)).
Qed.

Lemma partition_first p a b :
  first_at p a → partition p (a ++ p ++ b) = Some (a, b).
Proof.
  induction a as [|c a IH]; intros H.
  - simpl. rewrite partition_here by apply startswith_app.
    by rewrite drop_app_length.
  - rewrite <-app_comm_cons, partition_cons; cycle 1.
    { specialize (H 0 ltac:(simpl; lia)). simpl in H.
      rewrite app_comm_cons, app_assoc, startswith_app_long; [done|].
      rewrite length_app. simpl. lia. }
    rewrite IH; [done|]. intros i Hi. apply (H (S i)). simpl. lia.
Qed.

Lemma partition_first_inv p s a b :
  partition p s = Some (a, b) → first_at p a.
Proof.
  revert a. induction s as [|c r IH]; intros a H.
  - cbn [partition] in H. destruct (startswith p []); [|done].
    injection H as <- <-. intros i Hi. simpl in Hi. lia.
  - destruct (startswith p (c :: r)) eqn:Hsw.
    + rewrite partition_here in H by done. injection H as <- <-.
      intros i Hi. simpl in Hi. lia.
    + rewrite partition_cons in H by done.
      destruct (partition p r) as [[a' b']|] eqn:Hp; [|done].
      injection H as <- <-. pose proof (partition_Some _ _ _ _ Hp) as Hr.
      intros [|i] Hi.
      * simpl. rewrite Hr in Hsw. rewrite app_comm_cons, app_assoc in Hsw.
        rewrite startswith_app_long in Hsw; [done|]. rewrite length_app. simpl. lia.
      * simpl. apply (IH a' eq_refl). simpl in Hi. lia.
Qed.


Lemma occurrences_0 p s : occurrences p s = 0 ↔ absent p s.
Proof.
  induction s as [|c r IH]; simpl.
  - split.
    + intros H i. rewrite drop_nil. destruct (startswith p []); [done|done].
    + intros H. specialize (H 0). simpl in H. by rewrite H.
  - split.
    + intros H [|i]; simpl.
      * destruct (startswith p (c :: r)); [done|done].
      * apply IH. destruct (startswith p (c :: r)); simpl in H; lia.
    + intros H. pose proof (H 0) as H0. simpl in H0. rewrite H0. simpl.
      apply IH. intros i. apply (H (S i)).
Qed.




Lemma drop_app_exact {A} (x y : list A) n : n = length x → drop n (x ++ y) = y.
Proof. intros ->. apply drop_app_length. Qed.

Lemma partition_leftmost p s a0 s' a b :
  partition p s = Some (a0, s') → s = a ++ p ++ b → length a0 ≤ length a.
Proof.
  intros Hp Hs. destruct (decide (length a0 ≤ length a)) as [|Hlt]; [done|].
  pose proof (partition_first_inv _ _ _ _ Hp (length a) ltac:(lia)) as Hno.
  pose proof (partition_Some _ _ _ _ Hp) as Hs0.
  assert (startswith p (drop (length a) s) = true) as Hyes.
  { rewrite Hs, drop_app_length. apply startswith_app. }
  rewrite Hs0, app_assoc, drop_app_le in Hyes by (rewrite length_app; lia).
  rewrite startswith_app_long in Hyes; [congruence|].
  rewrite length_drop, length_app. lia.
Qed.

(** ** The marker pattern *)

Local Opaque START_MARKER END_MARKER.

Lemma pattern_search_Some s a b d :
  pattern_search s = Some (a, b, d) →
  s = a ++ START_MARKER ++ b ++ END_MARKER ++ d
  ∧ first_at START_MARKER a ∧ first_at END_MARKER b.
Proof.
  unfold pattern_search.
  destruct (partition START_MARKER s) as [[a' s']|] eqn:H1; [|done]. simpl.
  destruct (partition END_MARKER s') as [[b' d']|] eqn:H2; [|done]. simpl.
  intros [= -> -> ->]. split_and!.
  - apply partition_Some in H1, H2. by subst.
  - by eapply partition_first_inv.
  - by eapply partition_first_inv.
Qed.

Lemma pattern_search_first a b d :
  first_at START_MARKER a → first_at END_MARKER b →
  pattern_search (a ++ START_MARKER ++ b ++ END_MARKER ++ d) = Some (a, b, d).
Proof.
  intros Ha Hb. unfold pattern_search.
  rewrite (partition_first _ _ _ Ha). simpl.
  by rewrite (partition_first _ _ _ Hb).
Qed.

Lemma pattern_search_None s :
  pattern_search s = None
  ↔ ¬ ∃ a b d, s = a ++ START_MARKER ++ b ++ END_MARKER ++ d.
Proof.
  split.
  - intros Hnone (a & b & d & Hs). unfold pattern_search in Hnone.
    destruct (partition START_MARKER s) as [[a0 s']|] eqn:H1.
    + simpl in Hnone.
      destruct (partition END_MARKER s') as [[b' d']|] eqn:H2; [done|].
      apply partition_None in H2.
      pose proof (partition_leftmost _ _ _ _ _ _ H1 Hs) as Hle.
      apply partition_Some in H1.
      specialize (H2 (length a + length b - length a0)).
      assert (drop (length a + length b - length a0) s' = END_MARKER ++ d) as Hd.
      { assert (s' = drop (length a0 + length START_MARKER) s) as ->.
        { rewrite H1 at 1. rewrite app_assoc. symmetry. apply drop_app_exact.
          by rewrite length_app. }
        rewrite drop_drop.
        replace (length a0 + length START_MARKER
                 + (length a + length b - length a0))
          with (length (a ++ START_MARKER ++ b)) by (rewrite !length_app; lia).
        rewrite Hs.
        replace (a ++ START_MARKER ++ b ++ END_MARKER ++ d)
          with ((a ++ START_MARKER ++ b) ++ END_MARKER ++ d)
          by (by rewrite <-!app_assoc).
        apply drop_app_length. }
      rewrite Hd, startswith_app in H2. done.
    + apply partition_None in H1. specialize (H1 (length a)).
      rewrite Hs, drop_app_length, startswith_app in H1. done.
  - intros Hno. destruct (pattern_search s) as [[[a b] d]|] eqn:Hs; [|done].
    destruct Hno. apply pattern_search_Some in Hs as (Hs & _). eauto.
Qed.

Lemma pattern_search_shorter s a b d :
  pattern_search s = Some (a, b, d) → length d < length s.
Proof.
  intros (-> & _)%pattern_search_Some. rewrite !length_app.
  assert (0 < length START_MARKER) by (vm_compute; lia). lia.
Qed.

Lemma pattern_sub_fuel repl s : ∀ fuel fuel',
  length s ≤ fuel → length s ≤ fuel' →
  pattern_sub_from fuel repl s = pattern_sub_from fuel' repl s.
Proof.
  induction s as [s IH] using (induction_ltof1 _ length). unfold ltof in IH.
  intros fuel fuel' Hf Hf'.
  assert (pattern_search [] = None) as Hnil by done.
  destruct fuel as [|f], fuel' as [|f']; cbn [pattern_sub_from].
  - done.
  - destruct s; [|simpl in Hf; lia]. by rewrite Hnil.
  - destruct s; [|simpl in Hf'; lia]. by rewrite Hnil.
  - destruct (pattern_search s) as [[[a b] d]|] eqn:Hs; [|done].
    apply pattern_search_shorter in Hs. do 2 f_equal. apply IH; lia.
Qed.

Lemma sub_all_None repl s : pattern_search s = None → sub_all repl s = s.
Proof.
  intros H. unfold sub_all. destruct (length s); cbn [pattern_sub_from]; [done|].
  by rewrite H.
Qed.

Lemma sub_all_Some repl s a b d :
  pattern_search s = Some (a, b, d) →
  sub_all repl s
  = a ++ repl (START_MARKER ++ b ++ END_MARKER) ++ sub_all repl d.
Proof.
  intros H. unfold sub_all. pose proof (pattern_search_shorter _ _ _ _ H) as Hlt.
  destruct (length s) as [|f] eqn:Hlen; [lia|]. cbn [pattern_sub_from]. rewrite H.
  do 2 f_equal. apply pattern_sub_fuel; lia.
Qed.

(** *** Substituting twice *)

Lemma startswith_before_lf p x y :
  LF ∉ p → startswith p (x ++ LF :: y) = true → startswith p x = true.
Proof.
  revert x. induction p as [|a p IH]; intros x Hp H; [done|].
  rewrite not_elem_of_cons in Hp. destruct Hp as [Ha Hp].
  destruct x as [|b x]; simpl in *.
  - apply andb_true_iff in H as [H%N.eqb_eq _]. congruence.
  - apply andb_true_iff in H as [-> H]. by rewrite IH.
Qed.

Lemma END_MARKER_no_lf : LF ∉ END_MARKER.
Proof. vm_compute. intros H. by repeat (apply elem_of_cons in H as [?|H]; [done|]); apply elem_of_nil in H. Qed.

Lemma END_MARKER_head : startswith END_MARKER [LF] = false ∧ ∀ r, startswith END_MARKER (LF :: r) = false.
Proof. split; [by vm_compute|]. intros r. by vm_compute. Qed.

Lemma first_at_entries entries :
  absent END_MARKER entries → first_at END_MARKER ([LF] ++ entries ++ [LF]).
Proof.
  intros Habs i Hi. destruct i as [|j].
  { simpl. apply END_MARKER_head. }
  simpl. rewrite <-app_assoc. simpl in Hi. rewrite length_app in Hi. simpl in Hi.
  rewrite drop_app_le by lia.
  destruct (startswith END_MARKER (drop j entries ++ [LF] ++ END_MARKER)) eqn:Hsw; [|done].
  apply startswith_before_lf in Hsw; [|apply END_MARKER_no_lf].
  by rewrite Habs in Hsw.
Qed.

Section Literal.
Variable entries : pystr.
Abbreviation replacement :=
  (START_MARKER ++ [LF] ++ entries ++ [LF] ++ END_MARKER).

Lemma pattern_search_replaced s a b d :
  absent END_MARKER entries →
  pattern_search s = Some (a, b, d) →
  ∀ rest, pattern_search (a ++ replacement ++ rest)
          = Some (a, [LF] ++ entries ++ [LF], rest).
Proof.
  intros Habs (_ & Ha & _)%pattern_search_Some rest.
  replace (a ++ (START_MARKER ++ [LF] ++ entries ++ [LF] ++ END_MARKER) ++ rest)
    with (a ++ START_MARKER ++ ([LF] ++ entries ++ [LF]) ++ END_MARKER ++ rest)
    by (by rewrite <-!app_assoc).
  apply pattern_search_first; [done|]. by apply first_at_entries.
Qed.

Lemma sub_all_idem s :
  absent END_MARKER entries →
  sub_all (λ _, replacement) (sub_all (λ _, replacement) s)
  = sub_all (λ _, replacement) s.
Proof.
  intros Habs. induction s as [s IH] using (induction_ltof1 _ length).
  unfold ltof in IH.
  destruct (pattern_search s) as [[[a b] d]|] eqn:Hs.
  - rewrite (sub_all_Some _ _ _ _ _ Hs).
    rewrite (sub_all_Some _ _ _ _ _ (pattern_search_replaced _ _ _ _ Habs Hs _)).
    rewrite IH; [done|]. apply (pattern_search_shorter _ _ _ _ Hs).
  - by rewrite !(sub_all_None _ s Hs).
Qed.

Lemma sub_all_still_matches s :
  absent END_MARKER entries →
  is_Some (pattern_search s) →
  is_Some (pattern_search (sub_all (λ _, replacement) s)).
Proof.
  intros Habs [[[a b] d] Hs]. rewrite (sub_all_Some _ _ _ _ _ Hs).
  rewrite (pattern_search_replaced _ _ _ _ Habs Hs). eauto.
Qed.
End Literal.


(** ** The injector and the pipeline *)

Lemma for_eachM_frame {S A} (body : S → A → M S) l :
  (∀ s x w, (body s x w).2 = w) → ∀ s w, (for_eachM body s l w).2 = w.
Proof.
  intros Hbody. induction l as [|x l IH]; intros s w; [done|].
  cbn [for_eachM]. unfold bindM. specialize (Hbody s x w).
  destruct (body s x w) as [[s'|e] w']; simpl in Hbody; subst w'; [apply IH|done].
Qed.

Lemma for_eachM_ok {S A} (body : S → A → M S) l :
  (∀ s x w, (body s x w).2 = w) →
  ∀ s w s' w', for_eachM body s l w = (Ok s', w') →
    ∀ x, x ∈ l → ∃ s0 s1, body s0 x w = (Ok s1, w).
Proof.
  intros Hbody. induction l as [|y l IH]; intros s w s' w' Hrun x Hx.
  { by apply elem_of_nil in Hx. }
  cbn [for_eachM] in Hrun. unfold bindM in Hrun. pose proof (Hbody s y w) as Hw.
  destruct (body s y w) as [[s1|e] w1] eqn:Hy; simpl in Hw; subst w1; [|done].
  apply elem_of_cons in Hx as [->|Hx]; [eauto|]. by eapply IH.
Qed.

Lemma for_eachM_first_error {S A} (body : S → A → M S) l1 x l2 e w :
  (∀ y, y ∈ l1 → ∀ s0, ∃ s1, body s0 y w = (Ok s1, w)) →
  (∀ s0, body s0 x w = (Err e, w)) →
  ∀ s, for_eachM body s (l1 ++ x :: l2) w = (Err e, w).
Proof.
  intros Hok Herr. induction l1 as [|y l1 IH]; intros s.
  - cbn [app for_eachM]. unfold bindM. by rewrite Herr.
  - cbn [app for_eachM]. unfold bindM at 1. destruct (Hok y ltac:(by left) s) as [s1 ->].
    apply IH. intros z Hz. apply Hok. by right.
Qed.

(** ** Reading in text mode *)

Lemma universal_newlines_no_cr s : CR ∉ universal_newlines s.
Proof.
  induction s as [s IH] using (induction_ltof1 _ length). unfold ltof in IH.
  destruct s as [|c r]; [by intros ?%elem_of_nil|].
  cbn [universal_newlines]. destruct (c =? CR)%N eqn:Hc.
  - apply not_elem_of_cons. split; [done|].
    destruct r as [|d r']; [by intros ?%elem_of_nil|].
    destruct (d =? LF)%N; apply IH; simpl; lia.
  - apply N.eqb_neq in Hc. apply not_elem_of_cons. split; [done|].
    apply IH. simpl. lia.
Qed.

Lemma universal_newlines_id s : CR ∉ s → universal_newlines s = s.
Proof.
  induction s as [|c r IH]; [done|]. intros [Hc Hr]%not_elem_of_cons.
  cbn [universal_newlines].
  assert ((c =? CR)%N = false) as -> by (apply N.eqb_neq; congruence).
  by rewrite IH.
Qed.

Lemma markers_no_cr : (CR ∉ START_MARKER) ∧ (CR ∉ END_MARKER).
Proof.
  split; apply (bool_decide_eq_false_1 (CR ∈ _)); by vm_compute.
Qed.

Lemma markers_literal :
  (BACKSLASH ∉ START_MARKER) ∧ (BACKSLASH ∉ END_MARKER).
Proof.
  split; apply (bool_decide_eq_false_1 (BACKSLASH ∈ _)); by vm_compute.
Qed.

Lemma replacement_literal entries :
  BACKSLASH ∉ entries →
  BACKSLASH ∉ START_MARKER ++ [LF] ++ entries ++ [LF] ++ END_MARKER.
Proof.
  intros H. destruct markers_literal as [Hs He].
  rewrite !not_elem_of_app. split_and!; [done| |done| |done].
  - by intros ?%list_elem_of_singleton.
  - by intros ?%list_elem_of_singleton.
Qed.

Lemma replacement_no_cr entries :
  CR ∉ entries → CR ∉ START_MARKER ++ [LF] ++ entries ++ [LF] ++ END_MARKER.
Proof.
  intros H. destruct markers_no_cr as [Hs He].
  rewrite !not_elem_of_app. split_and!; [done| |done| |done].
  - by intros ?%list_elem_of_singleton.
  - by intros ?%list_elem_of_singleton.
Qed.

(** The substitution brings in no character that is neither in the text
    nor in the replacement. *)
Lemma sub_all_avoids c repl s :
  c ∉ s → c ∉ repl → c ∉ sub_all (λ _, repl) s.
Proof.
  intros Hs Hr. induction s as [s IH] using (induction_ltof1 _ length).
  unfold ltof in IH.
  destruct (pattern_search s) as [[[a b] d]|] eqn:Hm.
  - rewrite (sub_all_Some _ _ _ _ _ Hm).
    pose proof (pattern_search_shorter _ _ _ _ Hm) as Hlt.
    apply pattern_search_Some in Hm as (-> & _ & _).
    rewrite !not_elem_of_app in Hs. destruct Hs as (Ha & _ & _ & _ & Hd).
    rewrite !not_elem_of_app. split_and!; [done|done|]. by apply IH.
  - by rewrite (sub_all_None _ _ Hm).
Qed.

(** ** The regions of the target *)





(** ** The names of the metadata elements *)

Lemma partition_char_first c a b :
  c ∉ a → partition [c] (a ++ c :: b) = Some (a, b).
Proof.
  induction a as [|x a IH]; intros Hc.
  - simpl. by rewrite N.eqb_refl.
  - apply not_elem_of_cons in Hc as [Hx Ha].
    rewrite <-app_comm_cons. cbn [partition startswith].
    apply N.eqb_neq in Hx. rewrite Hx. simpl. by rewrite (IH Ha).
Qed.

Lemma partition_char_None c s : c ∉ s → partition [c] s = None.
Proof.
  induction s as [|x s IH]; intros Hc; [done|].
  apply not_elem_of_cons in Hc as [Hx Hs].
  cbn [partition startswith]. apply N.eqb_neq in Hx. rewrite Hx. simpl.
  by rewrite (IH Hs).
Qed.

Lemma partition_char_inv c s a b :
  partition [c] s = Some (a, b) → (c ∉ a) ∧ s = a ++ [c] ++ b.
Proof.
  revert a. induction s as [|x s IH]; intros a; [done|].
  cbn [partition startswith]. destruct (c =? x)%N eqn:Hx; simpl.
  - apply N.eqb_eq in Hx as ->. intros [= <- <-].
    split; [by intros ?%elem_of_nil|by rewrite ?drop_0].
  - apply N.eqb_neq in Hx.
    destruct (partition [c] s) as [[a' b']|]; [|done]. simpl.
    intros [= <- <-]. destruct (IH a' eq_refl) as [Ha ->].
    split; [|done]. apply not_elem_of_cons. split; [congruence|done].
Qed.

Lemma is_metadata_tag_spec tag :
  is_metadata_tag tag = true ↔ metadata_name tag.
Proof.
  unfold is_metadata_tag, _strip_ns, metadata_name, DENYLIST. split.
  - destruct (startswith [LBRACE] tag) eqn:Hb.
    + destruct (partition [RBRACE] tag) as [[a b]|] eqn:Hp; [|done].
      intros Hin%bool_decide_eq_true. exists b. split; [done|]. right.
      apply partition_char_inv in Hp as [Ha ->].
      destruct a as [|x a]; [done|]. rewrite <-app_comm_cons in Hb.
      cbn [startswith] in Hb.
      rewrite andb_true_r in Hb. apply N.eqb_eq in Hb as <-.
      apply not_elem_of_cons in Ha as [_ Ha]. by exists a.
    + intros Hin%bool_decide_eq_true. exists tag. split; [done|by left].
  - intros (name & Hin & [->|(uri & Huri & ->)]).
    + assert (startswith [LBRACE] name = false) as ->.
      { repeat (apply elem_of_cons in Hin as [->|Hin]; [done|]).
        by apply elem_of_nil in Hin. }
      by apply bool_decide_eq_true.
    + change ([LBRACE] ++ uri ++ [RBRACE] ++ name)
        with ((LBRACE :: uri) ++ RBRACE :: name).
      rewrite partition_char_first.
      * rewrite <-app_comm_cons. cbn [startswith]. rewrite N.eqb_refl. simpl.
        by apply bool_decide_eq_true.
      * apply not_elem_of_cons. split; [done|done].
Qed.

Section Pipeline.
Variable fromstring : pystr → pystr + xml.
Variable unicode_lower : N → pystr.
Variable parse_template : pystr → option (list template_item).
Abbreviation normalize_svg := (normalize_svg fromstring unicode_lower).
Abbreviation build_entries := (build_entries fromstring unicode_lower).
Abbreviation update_icons_js := (update_icons_js parse_template).
Abbreviation pattern_sub := (pattern_sub parse_template).
Abbreviation main := (main fromstring unicode_lower parse_template).
Abbreviation icon_step := (icon_step fromstring unicode_lower).
Abbreviation source_ok := (source_ok fromstring unicode_lower).

Lemma build_entries_eq :
  build_entries
  = (entries <~ for_eachM icon_step [] KEY_MAP;; retM (join [LF; LF] entries)).
Proof. reflexivity. Qed.

Lemma icon_step_eq entries stem key w :
  icon_step entries (stem, key) w
  = match files w !! icon_path stem with
    | None =>
        (Err (FileNotFoundError (str "Missing icon: " ++ icon_path stem)), w)
    | Some text =>
        match normalize_svg (universal_newlines text) with
        | Ok svg => (Ok (entries ++ [format_entry key svg]), w)
        | Err e => (Err e, w)
        end
    end.
Proof.
  unfold icon_step, bindM, path_exists, read_text, lift, raise, retM.
  destruct (files w !! icon_path stem) as [text|] eqn:Hf; simpl; [|done].
  rewrite ?Hf. by destruct (normalize_svg (universal_newlines text)).
Qed.

Lemma icon_step_frame entries icon w : (icon_step entries icon w).2 = w.
Proof.
  destruct icon as [stem key]. rewrite icon_step_eq.
  destruct (files w !! icon_path stem) as [text|]; [|done].
  by destruct (normalize_svg (universal_newlines text)).
Qed.

(** [build_entries] only reads. *)
Lemma build_entries_frame w : (build_entries w).2 = w.
Proof.
  rewrite build_entries_eq. unfold bindM.
  pose proof (for_eachM_frame icon_step KEY_MAP icon_step_frame [] w) as H.
  destruct (for_eachM icon_step [] KEY_MAP w) as [[entries|e] w']; simpl in *; done.
Qed.

Lemma build_entries_ok w entries w' :
  build_entries w = (Ok entries, w') →
  ∀ stem key, (stem, key) ∈ KEY_MAP → source_ok w stem.
Proof.
  rewrite build_entries_eq. unfold bindM.
  destruct (for_eachM icon_step [] KEY_MAP w) as [[es|e] w1] eqn:Hrun; [|done].
  intros _ stem key Hin.
  destruct (for_eachM_ok icon_step KEY_MAP icon_step_frame _ _ _ _ Hrun _ Hin)
    as (s0 & s1 & Hstep).
  rewrite icon_step_eq in Hstep.
  destruct (files w !! icon_path stem) as [text|] eqn:Hf; [|done].
  destruct (normalize_svg (universal_newlines text)) as [svg|] eqn:Hn; [|done].
  exists text, svg. done.
Qed.

Lemma build_entries_all_ok w :
  (∀ stem key, (stem, key) ∈ KEY_MAP → source_ok w stem) →
  ∃ entries, build_entries w = (Ok entries, w).
Proof.
  intros Hall. rewrite build_entries_eq. unfold bindM.
  assert (∀ l s, (∀ i, i ∈ l → source_ok w i.1) →
            ∃ s', for_eachM icon_step s l w = (Ok s', w)) as Hloop.
  { induction l as [|[stem key] l IH]; intros s Hl; [by eexists|].
    cbn [for_eachM]. unfold bindM at 1. rewrite icon_step_eq.
    destruct (Hl (stem, key)) as (text & svg & Hf & Hn); [by left|].
    simpl in Hf. rewrite Hf, Hn.
    apply IH. intros i Hi. apply Hl. by right. }
  destruct (Hloop KEY_MAP []) as [es ->]; [|by eexists].
  intros [stem key] Hin. by eapply Hall.
Qed.

Lemma build_entries_first_error w l1 stem key l2 e :
  KEY_MAP = l1 ++ (stem, key) :: l2 →
  (∀ i, i ∈ l1 → source_ok w i.1) →
  (∀ s0, icon_step s0 (stem, key) w = (Err e, w)) →
  build_entries w = (Err e, w).
Proof.
  intros Hmap Hok Herr. rewrite build_entries_eq, Hmap. unfold bindM.
  rewrite (for_eachM_first_error icon_step l1 (stem, key) l2 e w); [done| |done].
  intros [s k] Hin s0. rewrite icon_step_eq.
  destruct (Hok _ Hin) as (text & svg & Hf & Hn). simpl in Hf.
  rewrite Hf, Hn. eauto.
Qed.

(** What [update_icons_js] does, case by case. *)
Lemma update_icons_js_eq entries w :
  update_icons_js entries w
  = match universal_newlines <$> files w !! ICONS_JS with
    | None => (Err (FileNotFoundError ICONS_JS), w)
    | Some content =>
        match pattern_search content with
        | None => (Err (RuntimeError (str "icons.js markers not found")), w)
        | Some _ =>
            match pattern_sub
                    (START_MARKER ++ [LF] ++ entries ++ [LF] ++ END_MARKER)
                    content with
            | Err e => (Err e, w)
            | Ok updated =>
                if bool_decide (updated ≠ content)
                then (Ok true,
                      mkWorld (<[ICONS_JS := updated]> (files w)) (stdout w))
                else (Ok false, w)
            end
        end
    end.
Proof.
  unfold update_icons_js, bindM, read_text, lift, raise, retM, write_text.
  destruct (files w !! ICONS_JS) as [raw|]; [|done].
  cbn [fmap option_fmap option_map]. generalize (universal_newlines raw) as content.
  intros content.
  destruct (pattern_search content) as [m|]; simpl; [|done].
  destruct (pattern_sub _ content) as [updated|]; [|done].
  by destruct (bool_decide (updated ≠ content)).
Qed.

Lemma update_icons_js_error entries w e w' :
  update_icons_js entries w = (Err e, w') → w' = w.
Proof.
  rewrite update_icons_js_eq.
  destruct (universal_newlines <$> files w !! ICONS_JS) as [content|];
    [|by intros [= _ <-]].
  destruct (pattern_search content); [|by intros [= _ <-]].
  destruct (pattern_sub _ content) as [updated|]; [|by intros [= _ <-]].
  by destruct (bool_decide (updated ≠ content)).
Qed.

Lemma pattern_sub_literal repl s :
  BACKSLASH ∉ repl → pattern_sub repl s = Ok (sub_all (λ _, repl) s).
Proof.
  intros H. unfold pattern_sub. by rewrite bool_decide_eq_false_2.
Qed.

Lemma pattern_sub_error repl s e :
  pattern_sub repl s = Err e → e = ReError (str "bad escape").
Proof.
  unfold pattern_sub. case_bool_decide; [|done].
  destruct (parse_template repl); [done|]. by intros [= <-].
Qed.

Lemma main_eq w :
  main w
  = match build_entries w with
    | (Err e, w1) => (Err e, w1)
    | (Ok entries, w1) =>
        match update_icons_js entries w1 with
        | (Err e, w2) => (Err e, w2)
        | (Ok changed, w2) =>
            (Ok 0,
             mkWorld (files w2)
               (stdout w2
                ++ [if changed then str "Updated icons.js from assets/icons"
                    else str "icons.js already up to date"]))
        end
    end.
Proof.
  unfold main, bindM.
  destruct (build_entries w) as [[entries|e] w1]; [|done].
  destruct (update_icons_js entries w1) as [[changed|e] w2]; [|done].
  by destruct changed.
Qed.
End Pipeline.

Section Claims.
Variable fromstring : pystr → pystr + xml.
Variable unicode_lower : N → pystr.
Variable parse_template : pystr → option (list template_item).
Abbreviation normalize_svg := (normalize_svg fromstring unicode_lower).
Abbreviation normalized_tree := (normalized_tree unicode_lower).
Abbreviation normalize_elements := (normalize_elements unicode_lower).
Abbreviation normalize_doc := (normalize_doc unicode_lower).
Abbreviation is_theme_color := (is_theme_color unicode_lower).
Abbreviation recolor := (recolor unicode_lower).
Abbreviation update_icons_js := (update_icons_js parse_template).
Abbreviation main := (main fromstring unicode_lower parse_template).
Abbreviation source_ok := (source_ok fromstring unicode_lower).

Lemma normalize_svg_parsed x doc :
  fromstring x = inr doc →
  normalize_svg x
  = (root ← normalized_tree doc; svg ← tostring root;
     Ok (strip (re_sub_gt_ws_lt svg))).
Proof. intros H. unfold normalize_svg. by rewrite H. Qed.

Lemma normalize_svg_refines x doc :
  fromstring x = inr doc → names_ok doc = true →
  normalized_tree doc = Ok (normalize_doc doc)
  ∧ normalize_svg x
    = (svg ← tostring (normalize_doc doc); Ok (strip (re_sub_gt_ws_lt svg))).
Proof.
  intros Hx Hok. rewrite (normalize_svg_parsed _ _ Hx).
  by rewrite (normalized_tree_refines unicode_lower doc Hok).
Qed.

(** C1 (amended): the root of the tree that [normalize_svg] serializes
    has exactly the six attributes width, height, viewBox, fill,
    aria-hidden and focusable, in this order; viewBox is the original
    value when the input root has a non-empty one, and [0 0 16 16]
    otherwise. *)
Theorem root_attributes_closed x doc :
  fromstring x = inr doc → names_ok doc = true →
  ∃ root,
    normalized_tree doc = Ok root
    ∧ normalize_svg x
      = (svg ← tostring root; Ok (strip (re_sub_gt_ws_lt svg)))
    ∧ xattrib root
      = [ (str "width", str "16"); (str "height", str "16");
          (str "viewBox",
           match dict_get (str "viewBox") (xattrib doc) with
           | Some (c :: v) => c :: v
           | _ => str "0 0 16 16"
           end);
          (str "fill", str "currentColor"); (str "aria-hidden", str "true");
          (str "focusable", str "false") ].
Proof.
  intros Hx Hok. destruct (normalize_svg_refines x doc Hx Hok) as [Ht Hs].
  exists (normalize_doc doc). split_and!; [done..|].
  rewrite (normalize_doc_root unicode_lower). cbn [xattrib].
  apply strip_colors_root_attrib.
Qed.

(** C10: a root viewBox that is present but empty is not kept; the output
    has the default [0 0 16 16]. *)
Theorem empty_viewbox_replaced x doc :
  fromstring x = inr doc → names_ok doc = true →
  dict_get (str "viewBox") (xattrib doc) = Some [] →
  ∃ root,
    normalized_tree doc = Ok root
    ∧ normalize_svg x
      = (svg ← tostring root; Ok (strip (re_sub_gt_ws_lt svg)))
    ∧ dict_get (str "viewBox") (xattrib root) = Some (str "0 0 16 16").
Proof.
  intros Hx Hok Hvb. destruct (normalize_svg_refines x doc Hx Hok) as [Ht Hs].
  exists (normalize_doc doc). split_and!; [done..|].
  rewrite (normalize_doc_root unicode_lower). cbn [xattrib].
  rewrite strip_colors_root_attrib, Hvb. reflexivity.
Qed.

Lemma is_metadata_false e : is_metadata e = false ↔ ¬ metadata_name (xtag e).
Proof.
  unfold is_metadata. rewrite <-is_metadata_tag_spec.
  by destruct (is_metadata_tag (xtag e)).
Qed.

(** C2: every title, desc and metadata element below the root, with or
    without a namespace on its name, is taken out of its parent's
    children, through the parent map computed before the loop; the tree
    that is serialized is the input without these elements and all they
    hold, and none of its elements below the root (none at all when the
    root is not one itself) is a title, desc or metadata element. *)
Theorem metadata_removed x doc :
  fromstring x = inr doc → names_ok doc = true →
  ∃ s' root,
    normalize_elements (xsize doc) 0 (alloc doc) = Ok s'
    ∧ snapshot (xsize doc) s' 0 = Some root
    ∧ normalize_svg x
      = (svg ← tostring root; Ok (strip (re_sub_gt_ws_lt svg)))
    ∧ (∀ r e, alloc doc !! r = Some e →
         ∃ e', s' !! r = Some e'
               ∧ children e'
                 = filter (λ c, metadata_ref (alloc doc) c = false) (children e)
               ∧ ∀ c ec, alloc doc !! c = Some ec →
                   (c ∈ children e'
                    ↔ c ∈ children e ∧ ¬ metadata_name (tag ec)))
    ∧ root = recolor (reroot (prune doc))
    ∧ (∀ e, is_metadata e = true ↔ metadata_name (xtag e))
    ∧ Forall (λ e, ¬ metadata_name (xtag e)) (descendants root)
    ∧ (¬ metadata_name (xtag doc) →
       Forall (λ e, ¬ metadata_name (xtag e)) (xiter root)).
Proof.
  intros Hx Hok. destruct (normalize_svg_refines x doc Hx Hok) as [Ht Hs].
  destruct (normalize_elements_refines unicode_lower doc Hok) as (s' & Hs' & Hsnap & Hch).
  assert (Forall (λ e, ¬ metadata_name (xtag e))
                 (descendants (normalize_doc doc))) as Hdesc.
  { eapply Forall_impl; [apply descendants_normalize_doc|].
    intros e. by rewrite is_metadata_false. }
  exists s', (normalize_doc doc). split_and!; try done.
  - intros r e He. destruct (Hch r e He) as (e' & He' & _ & Hc).
    exists e'. split_and!; [done|done|].
    intros c ec Hec. rewrite Hc. unfold live. rewrite list_elem_of_filter.
    unfold metadata_ref. rewrite Hec.
    rewrite <-is_metadata_tag_spec. split.
    + intros [Hm Hin]. split; [done|]. by rewrite Hm.
    + intros [Hin Hm]. split; [|done]. by destruct (is_metadata_tag (tag ec)).
  - intros e. apply is_metadata_tag_spec.
  - intros Hroot. rewrite xiter_eq. constructor.
    + rewrite (normalize_doc_root unicode_lower). by destruct doc.
    + unfold descendants in Hdesc. by rewrite xiter_list_bind.
Qed.



(** C9: the output is the serialized tree with every run of white space
    between a [>] and the next [<] replaced by one line feed, stripped at
    both ends: two tags of the output are never separated by anything but
    one line feed. *)
Theorem whitespace_canonical x out :
  normalize_svg x = Ok out →
  ∃ root svg,
    tostring root = Ok svg
    ∧ out = strip (re_sub_gt_ws_lt svg)
    ∧ (∀ a w b, spaces w →
         re_sub_gt_ws_lt (a ++ [GT] ++ w ++ [LT] ++ b)
         = re_sub_gt_ws_lt a ++ [GT; LF; LT] ++ re_sub_gt_ws_lt b)
    ∧ tags_on_lines out
    ∧ (∀ c, head out = Some c → is_space c = false)
    ∧ (∀ c, last out = Some c → is_space c = false).
Proof.
  unfold normalize_svg. destruct (fromstring x) as [msg|doc]; [done|].
  destruct (normalized_tree doc) as [root|]; [|done]. simpl.
  destruct (tostring root) as [svg|] eqn:Hsvg; [|done]. simpl.
  intros [= <-]. exists root, svg.
  destruct (strip_spec (re_sub_gt_ws_lt svg)) as (w1 & w2 & _ & _ & _ & Hh & Hl).
  split_and!; try done.
  - intros a w b Hw. by apply re_sub_between.
  - apply strip_tags_on_lines, re_sub_tags_on_lines.
Qed.

(** C4 (amended): normalizing the output again gives the output back
    whenever the parser reads the output as the tree that was serialized,
    with one line feed for the white space between its tags. *)
Theorem idempotent_when_read_back x doc y :
  fromstring x = inr doc → names_ok doc = true →
  normalize_svg x = Ok y →
  fromstring y = inr (collapse_ws (normalize_doc doc)) →
  normalize_svg y = Ok y.
Proof.
  intros Hx Hok Hy Hback.
  destruct (normalize_svg_refines x doc Hx Hok) as [_ Hs]. rewrite Hs in Hy.
  destruct (tostring (normalize_doc doc)) as [svg|] eqn:Hsvg; [|done].
  simpl in Hy. injection Hy as <-.
  set (u := normalize_doc doc) in *. set (v := collapse_ws u) in *.
  assert (names_ok v = true) as Hv.
  { apply names_ok_names_of. unfold v.
    rewrite names_of_labels, labels_collapse_ws, <-names_of_labels.
    apply names_ok_names_of. by apply names_ok_normalize_doc. }
  destruct (normalize_svg_refines _ v Hback Hv) as [_ ->].
  rewrite (normalize_doc_fixed unicode_lower v).
  2:{ eapply is_normal_labels; [apply labels_collapse_ws|].
      apply is_normal_normalize_doc. }
  destruct (tostring_collapse_ws u svg Hsvg) as (svg' & Hsvg' & Heq).
  fold v in Hsvg'. rewrite Hsvg'. simpl. by rewrite Heq.
Qed.


(** C8 (amended): the file is written exactly when the new content
    differs from the old one as read, and the result says so; with entries
    that hold no backslash, no end marker and no carriage return, a second
    call with the same entries changes nothing and reports no change. *)
Theorem second_call_reports_no_change entries w changed w1 :
  BACKSLASH ∉ entries →
  occurrences END_MARKER entries = 0 →
  CR ∉ entries →
  update_icons_js entries w = (Ok changed, w1) →
  (∀ entries' w' r' w1',
     update_icons_js entries' w' = (r', w1') →
     (r' = Ok true
      ∧ ∃ raw updated,
          files w' !! ICONS_JS = Some raw
          ∧ updated ≠ universal_newlines raw
          ∧ w1' = mkWorld (<[ICONS_JS := updated]> (files w')) (stdout w'))
     ∨ (r' ≠ Ok true ∧ w1' = w'))
  ∧ update_icons_js entries w1 = (Ok false, w1).
Proof.
  intros Hbs Hend Hcr Hrun. split.
  { intros entries' w' r' w1'. rewrite update_icons_js_eq.
    destruct (files w' !! ICONS_JS) as [raw|]; [|intros [= <- <-]; by right].
    cbn [fmap option_fmap option_map].
    destruct (pattern_search (universal_newlines raw));
      [|intros [= <- <-]; by right].
    destruct (pattern_sub _ _ (universal_newlines raw)) as [updated|];
      [|intros [= <- <-]; by right].
    case_bool_decide; intros [= <- <-]; [left|by right]. eauto 10. }
  apply occurrences_0 in Hend.
  pose proof Hrun as Hrun'. rewrite update_icons_js_eq in Hrun.
  destruct (files w !! ICONS_JS) as [raw|] eqn:Hf; [|done].
  change (universal_newlines <$> Some ?s) with (Some (universal_newlines s))
    in Hrun.
  cbv beta iota in Hrun.
  pose proof (universal_newlines_no_cr raw) as Hraw.
  set (content := universal_newlines raw) in *.
  destruct (pattern_search content) as [m|] eqn:Hm; [|done].
  rewrite pattern_sub_literal in Hrun by by apply replacement_literal.
  case_bool_decide as Hne; [|by injection Hrun as <- <-].
  assert (files w1 !! ICONS_JS
          = Some (sub_all (λ _, START_MARKER ++ [LF] ++ entries ++ [LF]
                                ++ END_MARKER) content)) as Hf1.
  { injection Hrun as _ <-. simpl. by rewrite lookup_insert_eq. }
  rewrite update_icons_js_eq, Hf1.
  change (universal_newlines <$> Some ?s) with (Some (universal_newlines s)).
  cbv beta iota.
  rewrite universal_newlines_id
    by (apply sub_all_avoids; [done|by apply replacement_no_cr]).
  destruct (sub_all_still_matches entries content Hend) as [m' ->]; [eauto|].
  rewrite pattern_sub_literal by by apply replacement_literal.
  rewrite (sub_all_idem entries content Hend).
  by rewrite bool_decide_eq_false_2 by (by intros ?).
Qed.

(** C6: a run that fails leaves every file as it was, and fails with the
    first error met (a missing source, a source that does not parse,
    markers not found); the target is written only after every icon has
    been normalized. *)
Theorem all_or_nothing w :
  ∃ r w',
    main w = (r, w')
    ∧ (∀ e, r = Err e → w' = w)
    ∧ (files w' ≠ files w →
       ∀ stem key, (stem, key) ∈ KEY_MAP → source_ok w stem)
    ∧ (∀ l1 stem key l2,
         KEY_MAP = l1 ++ (stem, key) :: l2 →
         (∀ i, i ∈ l1 → source_ok w i.1) →
         (files w !! icon_path stem = None →
          r = Err (FileNotFoundError (str "Missing icon: " ++ icon_path stem)))
         ∧ (∀ text msg,
              files w !! icon_path stem = Some text →
              fromstring (universal_newlines text) = inl msg →
              r = Err (ValueError (str "Failed to parse SVG: " ++ msg))))
    ∧ ((∀ stem key, (stem, key) ∈ KEY_MAP → source_ok w stem) →
       ∀ content,
         files w !! ICONS_JS = Some content →
         (¬ ∃ a b d, universal_newlines content
                     = a ++ START_MARKER ++ b ++ END_MARKER ++ d) →
         r = Err (RuntimeError (str "icons.js markers not found"))).
Proof.
  destruct (main w) as [r w'] eqn:Hmain. exists r, w'. split; [done|].
  rewrite main_eq in Hmain.
  pose proof (build_entries_frame fromstring unicode_lower w) as Hframe.
  destruct (build_entries fromstring unicode_lower w) as [[entries|e] w1] eqn:Hb;
    simpl in Hframe; subst w1.
  - pose proof (build_entries_ok _ _ _ _ _ Hb) as Hall.
    destruct (update_icons_js entries w) as [[changed|e] w2] eqn:Hu.
    + injection Hmain as <- <-. split_and!; try done.
      * intros l1 stem key l2 Hmap _.
        destruct (Hall stem key) as (text & svg & Hf & Hn).
        { rewrite Hmap. set_solver. }
        split; [by rewrite Hf|]. intros text' msg Hf' Hmsg.
        rewrite Hf in Hf'. injection Hf' as <-.
        unfold normalize_svg in Hn. by rewrite Hmsg in Hn.
      * intros _ content Hf Hno. rewrite update_icons_js_eq, Hf in Hu.
        change (universal_newlines <$> Some ?s)
          with (Some (universal_newlines s)) in Hu. cbv beta iota in Hu.
        apply pattern_search_None in Hno. by rewrite Hno in Hu.
    + injection Hmain as <- <-.
      pose proof (update_icons_js_error _ _ _ _ _ Hu) as ->.
      split_and!; try done.
      * intros l1 stem key l2 Hmap _.
        destruct (Hall stem key) as (text & svg & Hf & Hn).
        { rewrite Hmap. set_solver. }
        split; [by rewrite Hf|]. intros text' msg Hf' Hmsg.
        rewrite Hf in Hf'. injection Hf' as <-.
        unfold normalize_svg in Hn. by rewrite Hmsg in Hn.
      * intros _ content Hf Hno. rewrite update_icons_js_eq, Hf in Hu.
        change (universal_newlines <$> Some ?s)
          with (Some (universal_newlines s)) in Hu. cbv beta iota in Hu.
        apply pattern_search_None in Hno. rewrite Hno in Hu. by injection Hu as <-.
  - injection Hmain as <- <-. split_and!; try done.
    + intros l1 stem key l2 Hmap Hl1. split.
      * intros Hf.
        rewrite (build_entries_first_error fromstring unicode_lower w l1 stem key l2
                   (FileNotFoundError (str "Missing icon: " ++ icon_path stem)))
          in Hb; [by injection Hb as <-|done|done|].
        intros s0. by rewrite icon_step_eq, Hf.
      * intros text msg Hf Hmsg.
        rewrite (build_entries_first_error fromstring unicode_lower w l1 stem key l2
                   (ValueError (str "Failed to parse SVG: " ++ msg)))
          in Hb; [by injection Hb as <-|done|done|].
        intros s0. rewrite icon_step_eq, Hf. unfold normalize_svg. by rewrite Hmsg.
    + intros Hall. destruct (build_entries_all_ok _ _ _ Hall) as [es Hes]. congruence.
Qed.
End Claims.

Local Transparent START_MARKER END_MARKER.

(** ** Examples *)

Abbreviation norm := (normalize_svg Expat.fromstring Expat.ascii_lower).
Abbreviation tree := (normalized_tree Expat.ascii_lower).

Example scenario_parsed : Expat.fromstring scenario = inr scenario_doc.
Proof. by_compute. Qed.

Example scenario_normalized : norm scenario = Ok scenario_out.
Proof. by_compute. Qed.

(** C1 as stated fails: the root of [<svg viewBox=''/>] has a viewBox,
    the empty one, and the output has [0 0 16 16] and not that value. *)
Lemma root_viewbox_counterexample :
  Expat.fromstring empty_viewbox = inr empty_viewbox_doc
  ∧ dict_get (str "viewBox") (xattrib empty_viewbox_doc) = Some []
  ∧ norm empty_viewbox = Ok empty_viewbox_out
  ∧ ∃ root, tree empty_viewbox_doc = Ok root
            ∧ tostring root = Ok empty_viewbox_out
            ∧ dict_get (str "viewBox") (xattrib root) = Some (str "0 0 16 16")
            ∧ dict_get (str "viewBox") (xattrib root)
              ≠ dict_get (str "viewBox") (xattrib empty_viewbox_doc).
Proof.
  split; [by_compute|]. split; [by_compute|]. split; [by_compute|].
  eexists. split; [by_compute|]. split; [by_compute|]. split; by_compute.
Qed.

Lemma root_attributes_closed_witness :
  Expat.fromstring scenario = inr scenario_doc
  ∧ names_ok scenario_doc = true
  ∧ ∃ root, tree scenario_doc = Ok root
            ∧ xattrib root = xattrib scenario_root.
Proof.
  split; [by_compute|]. split; [by_compute|].
  destruct (root_attributes_closed Expat.fromstring Expat.ascii_lower
              scenario scenario_doc) as (root & Hroot & _ & Ha);
    [by_compute..|].
  exists root. split; [done|]. rewrite Ha. reflexivity.
Defined.

Lemma empty_viewbox_replaced_witness :
  Expat.fromstring empty_viewbox = inr empty_viewbox_doc
  ∧ names_ok empty_viewbox_doc = true
  ∧ dict_get (str "viewBox") (xattrib empty_viewbox_doc) = Some []
  ∧ ∃ root, tree empty_viewbox_doc = Ok root
            ∧ dict_get (str "viewBox") (xattrib root) = Some (str "0 0 16 16").
Proof.
  split; [by_compute|]. split; [by_compute|]. split; [by_compute|].
  destruct (empty_viewbox_replaced Expat.fromstring Expat.ascii_lower
              empty_viewbox empty_viewbox_doc) as (root & Hroot & _ & Hvb);
    [by_compute..|].
  by exists root.
Defined.

Lemma metadata_removed_witness :
  Expat.fromstring nested_metadata = inr nested_metadata_doc
  ∧ names_ok nested_metadata_doc = true
  ∧ ¬ metadata_name (xtag nested_metadata_doc)
  ∧ ∃ s' root,
      normalize_elements Expat.ascii_lower (xsize nested_metadata_doc) 0
        (alloc nested_metadata_doc) = Ok s'
      ∧ snapshot (xsize nested_metadata_doc) s' 0 = Some root
      ∧ root = nested_metadata_root
      ∧ Forall (λ e, ¬ metadata_name (xtag e)) (xiter root).
Proof.
  assert (¬ metadata_name (xtag nested_metadata_doc)) as Hroot.
  { rewrite <-is_metadata_tag_spec. by_compute. }
  split; [by_compute|]. split; [by_compute|]. split; [done|].
  destruct (metadata_removed Expat.fromstring Expat.ascii_lower
              nested_metadata nested_metadata_doc)
    as (s' & root & Hrun & Hsnap & _ & _ & Heq & _ & _ & Hall);
    [by_compute..|].
  exists s', root. split_and!; [done|done| |by apply Hall].
  rewrite Heq. by_compute.
Defined.




Lemma whitespace_canonical_witness :
  norm scenario = Ok scenario_out ∧ tags_on_lines scenario_out.
Proof.
  assert (norm scenario = Ok scenario_out) as Hout by by_compute.
  split; [done|].
  destruct (whitespace_canonical Expat.fromstring Expat.ascii_lower
              scenario scenario_out Hout) as (root & svg & _ & _ & _ & Hlines & _).
  exact Hlines.
Defined.

(** C4 as stated fails: the output for [<svg><text>a&#13;b</text></svg>]
    holds a carriage return, and normalizing that output gives a text with
    a line feed in its place. *)
Lemma idempotence_counterexample :
  norm carriage_return = Ok (carriage_return_out CR)
  ∧ norm (carriage_return_out CR) = Ok (carriage_return_out LF)
  ∧ carriage_return_out LF ≠ carriage_return_out CR.
Proof. split; [by_compute|]. split; by_compute. Qed.

Lemma idempotent_when_read_back_witness :
  Expat.fromstring scenario = inr scenario_doc
  ∧ names_ok scenario_doc = true
  ∧ norm scenario = Ok scenario_out
  ∧ Expat.fromstring scenario_out
    = inr (collapse_ws (normalize_doc Expat.ascii_lower scenario_doc))
  ∧ norm scenario_out = Ok scenario_out.
Proof.
  split; [by_compute|]. split; [by_compute|]. split; [by_compute|].
  split; [by_compute|].
  apply (idempotent_when_read_back Expat.fromstring Expat.ascii_lower
           scenario scenario_doc scenario_out); by_compute.
Defined.

Abbreviation update := (update_icons_js Expat.no_template).



(** C8 as stated fails: with entries that hold the end marker, the second
    call with the same entries writes the file again and reports a
    change. *)
Lemma second_call_counterexample :
  update marked_entries (target one_region)
  = (Ok true, target (marked_target []))
  ∧ update marked_entries (target (marked_target []))
    = (Ok true,
       target (marked_target ([LF] ++ str "y`," ++ [LF] ++ END_MARKER))).
Proof. split; by_compute. Qed.

Lemma second_call_reports_no_change_witness :
  (BACKSLASH ∉ new_entries)
  ∧ occurrences END_MARKER new_entries = 0
  ∧ (CR ∉ new_entries)
  ∧ ∃ w1, update new_entries (target three_regions) = (Ok true, w1)
          ∧ update new_entries w1 = (Ok false, w1).
Proof.
  assert (BACKSLASH ∉ new_entries) as Hbs.
  { apply (bool_decide_eq_false_1 (BACKSLASH ∈ new_entries)). by_compute. }
  assert (occurrences END_MARKER new_entries = 0) as Hend by by_compute.
  assert (CR ∉ new_entries) as Hcr.
  { apply (bool_decide_eq_false_1 (CR ∈ new_entries)). by_compute. }
  split; [done|]. split; [done|]. split; [done|].
  eexists. split; [by_compute|].
  eapply (second_call_reports_no_change Expat.no_template new_entries
            (target three_regions) true); [done|done|done|by_compute].
Defined.

(** ** More on the script *)

(** *** [_strip_ns] *)

(** X1: [_strip_ns] returns a tag that does not start with a brace as it
    is, returns what follows the first closing brace of [{uri}local], and
    raises IndexError on a tag with an opening brace and no closing one. *)
Theorem strip_ns_cases :
  (∀ tag, startswith [LBRACE] tag = false → _strip_ns tag = Ok tag)
  ∧ (∀ uri local, RBRACE ∉ uri →
       _strip_ns ([LBRACE] ++ uri ++ [RBRACE] ++ local) = Ok local)
  ∧ (∀ rest, RBRACE ∉ rest →
       _strip_ns (LBRACE :: rest)
       = Err (IndexError (str "list index out of range"))).
Proof.
  split_and!.
  - intros tag H. unfold _strip_ns. by rewrite H.
  - intros uri local H. unfold _strip_ns.
    change ([LBRACE] ++ uri ++ [RBRACE] ++ local)
      with ((LBRACE :: uri) ++ RBRACE :: local).
    rewrite partition_char_first.
    + by rewrite <-app_comm_cons.
    + apply not_elem_of_cons. split; [done|done].
  - intros rest H. unfold _strip_ns.
    rewrite partition_char_None.
    + done.
    + apply not_elem_of_cons. split; [done|done].
Qed.

Lemma outline_eq t :
  outline t = (xtag t, xtext t, xtail t) :: (xkids t ≫= outline).
Proof.
  unfold outline. rewrite xiter_eq, fmap_cons. f_equal.
  rewrite xiter_list_bind. generalize (xkids t). intros ks.
  induction ks as [|k ks IH]; [done|].
  rewrite !bind_cons, fmap_app. by rewrite IH.
Qed.

Lemma outline_prune t : outline (prune t) `sublist_of` outline t.
Proof.
  induction t as [g a x l kids IH] using xml_ind'.
  rewrite prune_eq, !outline_eq. simpl. apply sublist_skip.
  induction IH as [|k ks Hk _ IHks]; [done|].
  simpl. destruct (is_metadata k).
  - by apply sublist_inserts_l.
  - rewrite bind_cons. by apply sublist_app.
Qed.

Lemma outline_recolor unicode_lower t :
  outline (recolor unicode_lower t) = outline t.
Proof.
  unfold outline. pose proof (xiter_recolor unicode_lower t) as H.
  induction H as [|e e' l l' (Hg & _ & Hx & Hl) _ IH]; [done|].
  rewrite !fmap_cons, IH. by rewrite Hg, Hx, Hl.
Qed.

Lemma outline_reroot t : outline (reroot t) = outline t.
Proof. by destruct t. Qed.

Section MoreOnElements.
Variable fromstring : pystr → pystr + xml.
Variable unicode_lower : N → pystr.
Variable parse_template : pystr → option (list template_item).
Abbreviation normalize_svg := (normalize_svg fromstring unicode_lower).
Abbreviation normalized_tree := (normalized_tree unicode_lower).
Abbreviation normalize_doc := (normalize_doc unicode_lower).
Abbreviation is_theme_color := (is_theme_color unicode_lower).
Abbreviation build_entries := (build_entries fromstring unicode_lower).
Abbreviation icon_step := (icon_step fromstring unicode_lower).
Abbreviation update_icons_js := (update_icons_js parse_template).
Abbreviation pattern_sub := (pattern_sub parse_template).
Abbreviation main := (main fromstring unicode_lower parse_template).
Abbreviation source_ok := (source_ok fromstring unicode_lower).

(** X2: the elements of the serialized tree are elements of the input, in
    the order of the input, each with its tag, text and tail unchanged; the
    root is always kept, whatever its tag. *)
Theorem elements_kept_in_order x doc :
  fromstring x = inr doc → names_ok doc = true →
  ∃ root,
    normalized_tree doc = Ok root
    ∧ normalize_svg x
      = (svg ← tostring root; Ok (strip (re_sub_gt_ws_lt svg)))
    ∧ xtag root = xtag doc ∧ xtext root = xtext doc ∧ xtail root = xtail doc
    ∧ outline root `sublist_of` outline doc.
Proof.
  intros Hx Hok.
  destruct (normalize_svg_refines fromstring unicode_lower x doc Hx Hok)
    as [Htree Hsvg].
  exists (normalize_doc doc). split_and!; [done|done|..].
  - by destruct doc.
  - by destruct doc.
  - by destruct doc.
  - unfold normalize_doc.
    rewrite outline_recolor, outline_reroot. apply outline_prune.
Qed.

(** X3: lines 39-62 applied to the tree they produced give that same
    tree. *)
Theorem normalized_tree_idempotent doc root :
  names_ok doc = true →
  normalized_tree doc = Ok root →
  normalized_tree root = Ok root.
Proof.
  intros Hok Hroot.
  rewrite (normalized_tree_refines unicode_lower doc Hok) in Hroot.
  injection Hroot as <-.
  rewrite (normalized_tree_refines unicode_lower)
    by by apply names_ok_normalize_doc.
  f_equal. apply normalize_doc_fixed, is_normal_normalize_doc.
Qed.
End MoreOnElements.

(** *** Line 65 *)

Lemma tags_on_lines_suffix a s : tags_on_lines (a ++ s) → tags_on_lines s.
Proof.
  intros H. apply (tags_on_lines_segment a s []). by rewrite app_nil_r.
Qed.

Lemma re_sub_fixed s : tags_on_lines s → re_sub_gt_ws_lt s = s.
Proof.
  induction s as [s IH] using (induction_ltof1 _ length). unfold ltof in IH.
  intros Hs. destruct s as [|c r]; [done|].
  destruct (decide (c = GT)) as [->|Hc].
  2:{ rewrite re_sub_other by done. f_equal. apply IH; [simpl; lia|].
      by apply (tags_on_lines_suffix [c]). }
  destruct (match_ws_lt r) as [r'|] eqn:Hm.
  - rewrite (re_sub_match _ _ Hm).
    apply match_ws_lt_spec in Hm as (w & Hw & ->).
    assert (w = [LF]) as -> by (by apply (Hs [] w r')).
    simpl. do 3 f_equal. apply IH; [simpl; lia|].
    by apply (tags_on_lines_suffix [GT; LF; LT]).
  - rewrite (re_sub_no_match _ Hm). f_equal. apply IH; [simpl; lia|].
    by apply (tags_on_lines_suffix [GT]).
Qed.

Lemma strip_strip s : strip (strip s) = strip s.
Proof.
  destruct (strip_spec s) as (w1 & w2 & _ & _ & _ & Hh & Hl).
  destruct (strip s) as [|c s'] eqn:Hs; [done|].
  destruct (last (c :: s')) as [d|] eqn:Hd.
  - apply (strip_id _ c d s'); [done|done|by apply Hh|by apply Hl].
  - by apply last_None in Hd.
Qed.

(** X4: line 65 is idempotent on every text. *)
Theorem canonical_whitespace_idempotent s :
  strip (re_sub_gt_ws_lt (strip (re_sub_gt_ws_lt s)))
  = strip (re_sub_gt_ws_lt s).
Proof.
  rewrite (re_sub_fixed (strip _)).
  - apply strip_strip.
  - apply strip_tags_on_lines, re_sub_tags_on_lines.
Qed.

(** *** The output is never empty *)

Lemma splitlines_from_nonempty cur s : cur ≠ [] → splitlines_from cur s ≠ [].
Proof.
  revert cur. induction s as [|c r IH]; intros cur Hcur; simpl.
  - by destruct (decide (cur = [])).
  - destruct (is_linebreak c).
    + destruct r as [|d r']; [done|]. by destruct ((c =? CR)%N && (d =? LF)%N).
    + by apply IH.
Qed.

Lemma strip_starts c s : is_space c = false → ∃ r, strip (c :: s) = c :: r.
Proof.
  intros Hc. unfold strip. rewrite lstrip_id by done.
  destruct (rstrip_spec (c :: s)) as (w & Hw & Hs & _).
  destruct (rstrip (c :: s)) as [|c' r].
  - simpl in Hs. subst w. apply Forall_cons in Hw as [Hw _]. congruence.
  - injection Hs as <- _. eauto.
Qed.

Lemma tostring_starts t svg : tostring t = Ok svg → ∃ r, svg = LT :: r.
Proof.
  unfold tostring. destruct (_namespaces t) as [st|]; [|done]. simpl.
  apply serialize_starts.
Qed.

Section MoreOnText.
Variable fromstring : pystr → pystr + xml.
Variable unicode_lower : N → pystr.
Abbreviation normalize_svg := (normalize_svg fromstring unicode_lower).
Abbreviation is_theme_color := (is_theme_color unicode_lower).

(** X5: the text that [normalize_svg] returns is never empty: it begins
    with [<], and [splitlines] of it (line 76) is never the empty list. *)
Theorem output_starts_with_tag x out :
  normalize_svg x = Ok out →
  head out = Some LT ∧ splitlines out ≠ [].
Proof.
  unfold normalize_svg. destruct (fromstring x) as [msg|doc]; [done|].
  destruct (normalized_tree unicode_lower doc) as [root|]; [|done]. simpl.
  destruct (tostring root) as [svg|] eqn:Hsvg; [|done]. simpl.
  intros [= <-]. apply tostring_starts in Hsvg as [r ->].
  rewrite re_sub_other by done.
  destruct (strip_starts LT (re_sub_gt_ws_lt r)) as [r' ->]; [done|].
  split; [done|]. unfold splitlines. cbn [splitlines_from].
  change (is_linebreak LT) with false. cbn iota. by apply splitlines_from_nonempty.
Qed.

(** *** Line 58 *)

Lemma lstrip_spaces w s : spaces w → lstrip (w ++ s) = lstrip s.
Proof.
  induction 1 as [|c w Hc _ IH]; [done|]. simpl. by rewrite Hc.
Qed.

Lemma rstrip_spaces s w : spaces w → rstrip (s ++ w) = rstrip s.
Proof.
  intros Hw. unfold rstrip. rewrite reverse_app, lstrip_spaces; [done|].
  unfold spaces in *. by rewrite Forall_reverse.
Qed.

Lemma lstrip_all_spaces s : spaces s → lstrip s = [].
Proof. induction 1 as [|c w Hc _ IH]; [done|]. simpl. by rewrite Hc. Qed.

Lemma strip_padded w1 v w2 :
  spaces w1 → spaces w2 → strip (w1 ++ v ++ w2) = strip v.
Proof.
  intros H1 H2. unfold strip. rewrite lstrip_spaces by done.
  destruct (lstrip_spec v) as (w & Hw & Hv & Hh).
  destruct (lstrip v) as [|c r] eqn:Hl.
  - rewrite app_nil_r in Hv. subst w.
    rewrite lstrip_all_spaces; [done|]. by apply Forall_app.
  - rewrite Hv at 1. rewrite <-app_assoc, lstrip_spaces by done.
    rewrite <-app_comm_cons, lstrip_id by (by apply Hh).
    rewrite app_comm_cons. by apply rstrip_spaces.
Qed.

(** X6: white space around a fill or stroke value plays no part in the
    test of lines 58-59. *)
Theorem theme_color_ignores_padding w1 v w2 :
  spaces w1 → spaces w2 →
  is_theme_color (w1 ++ v ++ w2) = is_theme_color v.
Proof.
  intros H1 H2. unfold is_theme_color. by rewrite strip_padded.
Qed.
End MoreOnText.

(** *** Lines 76-86 *)

Lemma join_snoc sep l y z :
  join sep (l ++ [y ++ z]) = join sep (l ++ [y]) ++ z.
Proof.
  induction l as [|p l IH]; [done|].
  rewrite <-!app_comm_cons. cbn [join].
  destruct (l ++ [y ++ z]) eqn:H1; [by destruct l|].
  destruct (l ++ [y]) eqn:H2; [by destruct l|].
  rewrite IH. by rewrite <-!app_assoc.
Qed.

Lemma take_last_id {A} (d : A) (l : list A) n :
  length l = S n → take n l ++ [default d (last l)] = l.
Proof.
  intros Hlen. destruct (decide (l = [])) as [->|Hne]; [done|].
  destruct (exists_last Hne) as (l' & a & ->).
  rewrite length_app in Hlen. simpl in Hlen.
  rewrite take_app_length' by lia. by rewrite last_snoc.
Qed.

(** X7: both branches of lines 77-86 give the lines of the icon joined by
    line feeds and closed by a backquote and a comma: the first line after
    the key and an opening backquote, every other line indented by four
    spaces, or by two when it starts with [</svg]. *)
Theorem format_entry_lines key svg :
  let lines := match splitlines svg with [] => [svg] | ls => ls end in
  format_entry key svg
  = join [LF]
      ((str "  " ++ key ++ str ": `" ++ hd [] lines)
       :: ((λ line, (if startswith (str "</svg") line then str "  "
                     else str "    ") ++ line) <$> tl lines))
    ++ str "`,".
Proof.
  unfold format_entry.
  destruct (splitlines svg) as [|l0 [|l1 ls]].
  - cbn [hd tl fmap list_fmap join]. by rewrite <-!app_assoc.
  - cbn [hd tl fmap list_fmap join]. by rewrite <-!app_assoc.
  - cbv zeta. cbn [hd tl].
    set (f := λ line : pystr, _ ++ line).
    set (L := (str "  " ++ key ++ str ": `" ++ l0) :: (f <$> l1 :: ls)).
    rewrite join_snoc. f_equal. f_equal.
    apply take_last_id. subst L. simpl. by rewrite length_fmap.
Qed.

(** *** The pipeline *)

Lemma icon_path_not_target stem : icon_path stem ≠ ICONS_JS.
Proof. by intros [=]. Qed.

(** [build_entries] writes no carriage return: the lines of an icon come
    from [splitlines]. *)
Lemma splitlines_from_lines s : ∀ cur,
  Forall (λ c, is_linebreak c = false) cur →
  Forall (Forall (λ c, is_linebreak c = false)) (splitlines_from cur s).
Proof.
  induction s as [s IH] using (induction_ltof1 _ length). unfold ltof in IH.
  intros cur Hcur. destruct s as [|c r]; cbn [splitlines_from].
  - destruct (decide (cur = [])); [constructor|].
    constructor; [by apply Forall_reverse|constructor].
  - destruct (is_linebreak c) eqn:Hc.
    + destruct r as [|d r'].
      * constructor; [by apply Forall_reverse|constructor].
      * destruct ((c =? CR)%N && (d =? LF)%N);
          (constructor; [by apply Forall_reverse|]);
          apply IH; simpl; (lia || constructor).
    + apply IH; [simpl; lia|]. by constructor.
Qed.

Lemma splitlines_no_cr s : Forall (λ l, CR ∉ l) (splitlines s).
Proof.
  eapply Forall_impl; [apply (splitlines_from_lines s []); constructor|].
  intros l Hl Hin. rewrite Forall_forall in Hl. by specialize (Hl CR Hin).
Qed.

Lemma splitlines_nil s : splitlines s = [] → s = [].
Proof.
  destruct s as [|c r]; [done|]. unfold splitlines. cbn [splitlines_from].
  destruct (is_linebreak c).
  - destruct r as [|d r']; [done|]. by destruct ((c =? CR)%N && (d =? LF)%N).
  - intros H. by apply splitlines_from_nonempty in H.
Qed.

Lemma join_avoids (c : N) sep parts :
  c ∉ sep → Forall (λ p, c ∉ p) parts → c ∉ join sep parts.
Proof.
  intros Hsep. induction 1 as [|p ps Hp Hps IH]; [by intros ?%elem_of_nil|].
  cbn [join]. destruct ps as [|q ps]; [done|].
  rewrite !not_elem_of_app. by split_and!.
Qed.

Lemma format_entry_no_cr key svg : CR ∉ key → CR ∉ format_entry key svg.
Proof.
  intros Hkey. unfold format_entry.
  pose proof (splitlines_no_cr svg) as Hlines.
  destruct (splitlines svg) as [|l0 ls] eqn:Hs.
  { apply splitlines_nil in Hs as ->. no_cr. }
  apply Forall_cons in Hlines as [Hl0 Hls].
  destruct ls as [|l1 ls]; [no_cr|].
  set (f := λ line : pystr, _ ++ line).
  set (L := (str "  " ++ key ++ str ": `" ++ l0) :: (f <$> l1 :: ls)).
  assert (Forall (λ p, CR ∉ p) L) as HL.
  { subst L. constructor; [no_cr|]. apply Forall_fmap.
    eapply Forall_impl; [exact Hls|]. intros l Hl. unfold compose. subst f.
    cbv beta in Hl |- *.
    destruct (startswith (str "</svg") l); no_cr. }
  apply join_avoids; [by intros ?%list_elem_of_singleton|].
  apply Forall_app. split; [by apply Forall_take|].
  constructor; [|constructor]. apply not_elem_of_app. split; [|no_cr].
  destruct (last L) as [x|] eqn:Hx; [|by intros ?%elem_of_nil].
  rewrite Forall_forall in HL. apply HL. by eapply last_Some_elem_of.
Qed.

Section MoreOnPipeline.
Variable fromstring : pystr → pystr + xml.
Variable unicode_lower : N → pystr.
Variable parse_template : pystr → option (list template_item).
Abbreviation normalize_svg := (normalize_svg fromstring unicode_lower).
Abbreviation build_entries := (build_entries fromstring unicode_lower).
Abbreviation icon_step := (icon_step fromstring unicode_lower).
Abbreviation update_icons_js := (update_icons_js parse_template).
Abbreviation pattern_sub := (pattern_sub parse_template).
Abbreviation main := (main fromstring unicode_lower parse_template).
Abbreviation source_ok := (source_ok fromstring unicode_lower).

(** X8: when the three icons are there and normalize, [build_entries]
    returns the entries of nintendo, playstation and xbox, in this order,
    separated by an empty line, and leaves the world as it is. *)
Theorem build_entries_in_order w t1 t2 t3 s1 s2 s3 :
  files w !! icon_path (str "ns") = Some t1 →
  normalize_svg (universal_newlines t1) = Ok s1 →
  files w !! icon_path (str "ps") = Some t2 →
  normalize_svg (universal_newlines t2) = Ok s2 →
  files w !! icon_path (str "xbox") = Some t3 →
  normalize_svg (universal_newlines t3) = Ok s3 →
  build_entries w
  = (Ok (format_entry (str "nintendo") s1 ++ [LF; LF]
         ++ format_entry (str "playstation") s2 ++ [LF; LF]
         ++ format_entry (str "xbox") s3), w).
Proof.
  intros Hf1 Hn1 Hf2 Hn2 Hf3 Hn3.
  rewrite (build_entries_eq fromstring unicode_lower). unfold KEY_MAP.
  cbn [for_eachM]. unfold bindM.
  rewrite (icon_step_eq fromstring unicode_lower), Hf1, Hn1.
  rewrite (icon_step_eq fromstring unicode_lower), Hf2, Hn2.
  rewrite (icon_step_eq fromstring unicode_lower), Hf3, Hn3.
  reflexivity.
Qed.

Lemma icon_loop_reads w w' l :
  (∀ i, i ∈ l → files w' !! icon_path i.1 = files w !! icon_path i.1) →
  ∀ s, (for_eachM icon_step s l w').1 = (for_eachM icon_step s l w).1.
Proof.
  induction l as [|[stem key] l IH]; intros Hl s; [done|].
  cbn [for_eachM]. unfold bindM.
  rewrite !(icon_step_eq fromstring unicode_lower).
  pose proof (Hl (stem, key) ltac:(by left)) as Hk. simpl in Hk. rewrite Hk.
  destruct (files w !! icon_path stem) as [text|]; [|done].
  destruct (normalize_svg (universal_newlines text)) as [svg|]; [|done].
  apply IH. intros i Hi. apply Hl. by right.
Qed.

Lemma build_entries_same w w' :
  (∀ stem key, (stem, key) ∈ KEY_MAP →
     files w' !! icon_path stem = files w !! icon_path stem) →
  (build_entries w').1 = (build_entries w).1.
Proof.
  intros Hsame.
  rewrite !(build_entries_eq fromstring unicode_lower). unfold bindM.
  pose proof (icon_loop_reads w w' KEY_MAP) as Hloop.
  specialize (Hloop (λ i Hi, Hsame i.1 i.2 ltac:(by destruct i)) []).
  destruct (for_eachM icon_step [] KEY_MAP w') as [[es'|e'] w1'],
           (for_eachM icon_step [] KEY_MAP w) as [[es|e] w1];
    simpl in *; congruence.
Qed.

Lemma icon_loop_no_cr l : ∀ s w s' w',
  Forall (λ i, CR ∉ i.2) l → Forall (λ e, CR ∉ e) s →
  for_eachM icon_step s l w = (Ok s', w') → Forall (λ e, CR ∉ e) s'.
Proof.
  induction l as [|[stem key] l IH]; intros s w s' w' Hl Hs.
  { by intros [= <- _]. }
  apply Forall_cons in Hl as [Hkey Hl].
  cbn [for_eachM]. unfold bindM.
  rewrite (icon_step_eq fromstring unicode_lower).
  destruct (files w !! icon_path stem) as [text|]; [|done].
  destruct (normalize_svg (universal_newlines text)) as [svg|]; [|done].
  apply IH; [done|]. apply Forall_app. split; [done|].
  constructor; [|constructor]. by apply format_entry_no_cr.
Qed.

Lemma build_entries_no_cr w entries w' :
  build_entries w = (Ok entries, w') → CR ∉ entries.
Proof.
  rewrite (build_entries_eq fromstring unicode_lower). unfold bindM.
  destruct (for_eachM icon_step [] KEY_MAP w) as [[es|e] w1] eqn:Hrun; [|done].
  intros [= <- _]. apply join_avoids.
  - apply (bool_decide_eq_false_1 (CR ∈ [LF; LF])). by vm_compute.
  - eapply icon_loop_no_cr; [|constructor|exact Hrun].
    repeat constructor;
      apply (bool_decide_eq_false_1 (CR ∈ _)); by vm_compute.
Qed.

(** X9: [build_entries] changes neither a file nor the console, and its
    result depends on the three icon files only. *)
Theorem build_entries_reads_sources_only w w' :
  (∀ stem key, (stem, key) ∈ KEY_MAP →
     files w' !! icon_path stem = files w !! icon_path stem) →
  (build_entries w).2 = w ∧ (build_entries w').1 = (build_entries w).1.
Proof.
  intros Hsame. split.
  - apply build_entries_frame.
  - by apply build_entries_same.
Qed.

(** [update_icons_js] by what the target holds. *)
Lemma update_icons_js_read entries w raw :
  files w !! ICONS_JS = Some raw →
  update_icons_js entries w
  = match pattern_search (universal_newlines raw) with
    | None => (Err (RuntimeError (str "icons.js markers not found")), w)
    | Some _ =>
        match pattern_sub
                (START_MARKER ++ [LF] ++ entries ++ [LF] ++ END_MARKER)
                (universal_newlines raw) with
        | Err e => (Err e, w)
        | Ok updated =>
            if bool_decide (updated ≠ universal_newlines raw)
            then (Ok true,
                  mkWorld (<[ICONS_JS := updated]> (files w)) (stdout w))
            else (Ok false, w)
        end
    end.
Proof. intros Hf. by rewrite (update_icons_js_eq parse_template), Hf. Qed.

Lemma update_icons_js_missing entries w :
  files w !! ICONS_JS = None →
  update_icons_js entries w = (Err (FileNotFoundError ICONS_JS), w).
Proof. intros Hf. by rewrite (update_icons_js_eq parse_template), Hf. Qed.

Lemma update_frame entries w r w' :
  update_icons_js entries w = (r, w') →
  ∀ p, p ≠ ICONS_JS → files w' !! p = files w !! p.
Proof.
  destruct (files w !! ICONS_JS) as [raw|] eqn:Hf.
  2:{ rewrite update_icons_js_missing by done. by intros [= <- <-]. }
  rewrite (update_icons_js_read _ _ _ Hf).
  destruct (pattern_search _) as [m|]; [|by intros [= <- <-]].
  destruct (pattern_sub _ _) as [updated|]; [|by intros [= <- <-]].
  case_bool_decide; intros [= <- <-]; [|done].
  intros p Hp. cbn [files]. by rewrite lookup_insert_ne.
Qed.

(** X10: whatever [update_icons_js] returns, the console and every file
    but the target are as before, and it neither creates nor deletes the
    target. *)
Theorem update_touches_target_only entries w r w' :
  update_icons_js entries w = (r, w') →
  stdout w' = stdout w
  ∧ (∀ p, p ≠ ICONS_JS → files w' !! p = files w !! p)
  ∧ (is_Some (files w' !! ICONS_JS) ↔ is_Some (files w !! ICONS_JS)).
Proof.
  destruct (files w !! ICONS_JS) as [raw|] eqn:Hf.
  2:{ rewrite update_icons_js_missing by done. intros [= <- <-].
      by rewrite Hf. }
  rewrite (update_icons_js_read _ _ _ Hf).
  destruct (pattern_search _) as [m|]; [|intros [= <- <-]; by rewrite Hf].
  destruct (pattern_sub _ _) as [updated|];
    [|intros [= <- <-]; by rewrite Hf].
  case_bool_decide; intros [= <- <-]; [|by rewrite Hf].
  cbn [files stdout]. split_and!; [done| |].
  - intros p Hp. by rewrite lookup_insert_ne.
  - rewrite lookup_insert_eq. split; eauto.
Qed.

(** X11: without the target file [update_icons_js] raises
    FileNotFoundError and [main] fails, with nothing written or printed;
    the error of [main] is that of the target once every icon
    normalizes. *)
Theorem missing_target_fails w :
  files w !! ICONS_JS = None →
  (∀ entries, update_icons_js entries w = (Err (FileNotFoundError ICONS_JS), w))
  ∧ ∃ e, main w = (Err e, w)
         ∧ ((∀ stem key, (stem, key) ∈ KEY_MAP → source_ok w stem) →
            e = FileNotFoundError ICONS_JS).
Proof.
  intros Hf.
  assert (∀ entries,
            update_icons_js entries w = (Err (FileNotFoundError ICONS_JS), w))
    as Hup.
  { intros entries. by apply update_icons_js_missing. }
  split; [done|].
  rewrite (main_eq fromstring unicode_lower parse_template).
  pose proof (build_entries_frame fromstring unicode_lower w) as Hw.
  destruct (build_entries w) as [[entries|e] w1] eqn:Hb; simpl in Hw; subst w1.
  - rewrite Hup. eauto.
  - exists e. split; [done|]. intros Hall.
    destruct (build_entries_all_ok fromstring unicode_lower w Hall) as [es Hes].
    congruence.
Qed.

(** X12: a run of [main] that succeeds returns 0 and prints one line, one
    of the two messages, and the update message whenever the files have
    changed; when the entries hold no backslash, it prints the update
    message exactly when the files have changed (a replacement with an
    escape can write the bytes that the file holds already); a run that
    fails prints nothing. *)
Theorem main_reports w r w' :
  main w = (r, w') →
  match r with
  | Ok n =>
      n = 0
      ∧ (∃ line,
           line ∈ [str "Updated icons.js from assets/icons";
                   str "icons.js already up to date"]
           ∧ stdout w' = stdout w ++ [line])
      ∧ (files w' ≠ files w →
         stdout w' = stdout w ++ [str "Updated icons.js from assets/icons"])
      ∧ ((∀ entries, (build_entries w).1 = Ok entries → BACKSLASH ∉ entries) →
         stdout w'
         = stdout w
           ++ [if bool_decide (files w' ≠ files w)
               then str "Updated icons.js from assets/icons"
               else str "icons.js already up to date"])
  | Err _ => stdout w' = stdout w
  end.
Proof.
  rewrite (main_eq fromstring unicode_lower parse_template).
  pose proof (build_entries_frame fromstring unicode_lower w) as Hw.
  destruct (build_entries w) as [[entries|e] w1] eqn:Hb; simpl in Hw; subst w1.
  2:{ by intros [= <- <-]. }
  pose proof (build_entries_no_cr _ _ _ Hb) as Hcr.
  destruct (files w !! ICONS_JS) as [raw|] eqn:Hf.
  2:{ rewrite update_icons_js_missing by done. by intros [= <- <-]. }
  rewrite (update_icons_js_read _ _ _ Hf).
  pose proof (universal_newlines_no_cr raw) as Hraw.
  set (content := universal_newlines raw) in *.
  destruct (pattern_search content) as [m|]; [|by intros [= <- <-]].
  destruct (pattern_sub _ content) as [updated|] eqn:Hsub;
    [|by intros [= <- <-]].
  case_bool_decide as Hne; intros [= <- <-]; cbn [files stdout];
    (split; [done|]).
  - split_and!.
    + eexists. split; [|done]. by left.
    + done.
    + intros Hbs. rewrite bool_decide_eq_true_2; [done|].
      intros Heq.
      assert (<[ICONS_JS:=updated]> (files w) !! ICONS_JS = Some raw) as Hl
        by (by rewrite Heq).
      rewrite lookup_insert_eq in Hl. injection Hl as ->.
      rewrite (pattern_sub_literal parse_template) in Hsub
        by (apply replacement_literal; by apply Hbs).
      injection Hsub as Hsub. apply Hne. subst content.
      rewrite universal_newlines_id; [done|]. rewrite <-Hsub.
      apply sub_all_avoids; [done|by apply replacement_no_cr].
  - split_and!.
    + eexists. split; [|done]. right. by left.
    + done.
    + intros _. by rewrite bool_decide_eq_false_2 by (by intros ?).
Qed.

(** X13: after a call of [update_icons_js] that succeeds, with entries
    free of backslashes and of carriage returns, the target as it is read
    holds the two markers around the entries, and no later call raises
    the marker error. *)
Theorem markers_survive entries w changed w' :
  BACKSLASH ∉ entries → CR ∉ entries →
  update_icons_js entries w = (Ok changed, w') →
  (∃ raw' a d,
     files w' !! ICONS_JS = Some raw'
     ∧ universal_newlines raw'
       = a ++ START_MARKER ++ [LF] ++ entries ++ [LF] ++ END_MARKER ++ d)
  ∧ ∀ entries' r w'',
      update_icons_js entries' w' = (r, w'') →
      r ≠ Err (RuntimeError (str "icons.js markers not found")).
Proof.
  intros Hbs Hcr.
  destruct (files w !! ICONS_JS) as [raw|] eqn:Hf.
  2:{ by rewrite update_icons_js_missing. }
  rewrite (update_icons_js_read _ _ _ Hf).
  pose proof (universal_newlines_no_cr raw) as Hraw.
  set (content := universal_newlines raw) in *.
  destruct (pattern_search content) as [[[a b] d]|] eqn:Hm; [|done].
  rewrite (pattern_sub_literal parse_template) by by apply replacement_literal.
  pose proof (sub_all_avoids CR _ content Hraw (replacement_no_cr _ Hcr))
    as Hclean.
  rewrite (sub_all_Some _ _ _ _ _ Hm) in Hclean |- *.
  set (d' := sub_all _ d) in *.
  set (updated := a ++ _ ++ d') in *.
  intros Hrun.
  assert (∃ raw', files w' !! ICONS_JS = Some raw'
                  ∧ universal_newlines raw' = updated) as (raw' & Hf' & Hraw').
  { case_bool_decide as Hne; injection Hrun as <- <-.
    - exists updated. cbn [files]. rewrite lookup_insert_eq.
      split; [done|]. by apply universal_newlines_id.
    - exists raw. split; [done|]. by rewrite Hne. }
  clear Hrun.
  assert (updated
          = a ++ START_MARKER ++ ([LF] ++ entries ++ [LF]) ++ END_MARKER ++ d')
    as Hshape.
  { subst updated. by rewrite <-!app_assoc. }
  split.
  { exists raw', a, d'. split; [done|]. rewrite Hraw'. subst updated.
    by rewrite <-!app_assoc. }
  intros entries' r w''. rewrite (update_icons_js_read _ _ _ Hf'), Hraw'.
  destruct (pattern_search updated) as [m|] eqn:Hm'.
  2:{ apply pattern_search_None in Hm'. destruct Hm'. eauto. }
  destruct (pattern_sub _ updated) as [u|e] eqn:Hsub.
  - case_bool_decide; by intros [= <- _].
  - apply (pattern_sub_error parse_template) in Hsub as ->. by intros [= <- _].
Qed.

Lemma update_settled entries content w' raw' :
  BACKSLASH ∉ entries → absent END_MARKER entries →
  is_Some (pattern_search content) →
  files w' !! ICONS_JS = Some raw' →
  universal_newlines raw'
  = sub_all (λ _, START_MARKER ++ [LF] ++ entries ++ [LF] ++ END_MARKER)
            content →
  update_icons_js entries w' = (Ok false, w').
Proof.
  intros Hbs Hend Hm Hf Hraw.
  rewrite (update_icons_js_read _ _ _ Hf), Hraw.
  destruct (sub_all_still_matches entries content Hend Hm) as [m' ->].
  rewrite (pattern_sub_literal parse_template) by by apply replacement_literal.
  rewrite (sub_all_idem entries content Hend).
  by rewrite bool_decide_eq_false_2 by (by intros ?).
Qed.

(** X14: when the entries hold neither a backslash nor the end marker, a
    second run of [main] after one that succeeded changes no file and
    prints that the target is up to date. *)
Theorem second_run_up_to_date w entries n w1 :
  (build_entries w).1 = Ok entries →
  BACKSLASH ∉ entries → occurrences END_MARKER entries = 0 →
  main w = (Ok n, w1) →
  main w1
  = (Ok 0, mkWorld (files w1) (stdout w1 ++ [str "icons.js already up to date"])).
Proof.
  intros Hb Hbs Hend%occurrences_0.
  rewrite (main_eq fromstring unicode_lower parse_template).
  pose proof (build_entries_frame fromstring unicode_lower w) as Hw.
  destruct (build_entries w) as [[es|e] w0] eqn:Hbw; simpl in Hw, Hb; subst w0;
    [|done].
  injection Hb as ->.
  pose proof (build_entries_no_cr _ _ _ Hbw) as Hcr.
  destruct (update_icons_js entries w) as [[changed|e] w2] eqn:Hup; [|done].
  intros [= _ <-].
  pose proof (update_frame _ _ _ _ Hup) as Hother.
  rewrite (main_eq fromstring unicode_lower parse_template).
  set (w1 := mkWorld _ _).
  assert ((build_entries w1).1 = (build_entries w).1) as Hsame.
  { apply build_entries_same. intros stem key _. simpl.
    apply Hother, icon_path_not_target. }
  pose proof (build_entries_frame fromstring unicode_lower w1) as Hw1.
  rewrite Hbw in Hsame.
  destruct (build_entries w1) as [r1 w1'] eqn:Hb1. simpl in Hw1, Hsame.
  subst w1' r1.
  assert (update_icons_js entries w1 = (Ok false, w1)) as ->; [|done].
  destruct (files w !! ICONS_JS) as [raw|] eqn:Hf.
  2:{ by rewrite update_icons_js_missing in Hup. }
  rewrite (update_icons_js_read _ _ _ Hf) in Hup.
  pose proof (universal_newlines_no_cr raw) as Hraw.
  set (content := universal_newlines raw) in *.
  destruct (pattern_search content) as [m|] eqn:Hm; [|done].
  rewrite (pattern_sub_literal parse_template) in Hup
    by by apply replacement_literal.
  pose proof (sub_all_avoids CR _ content Hraw (replacement_no_cr _ Hcr))
    as Hclean.
  case_bool_decide as Hne.
  - apply (update_settled entries content w1
             (sub_all (λ _, START_MARKER ++ [LF] ++ entries ++ [LF]
                            ++ END_MARKER) content) Hbs Hend); [eauto| |].
    + subst w1. injection Hup as _ <-. cbn [files]. by rewrite lookup_insert_eq.
    + by apply universal_newlines_id.
  - apply (update_settled entries content w1 raw Hbs Hend); [eauto| |].
    + subst w1. injection Hup as _ <-. done.
    + by rewrite Hne.
Qed.
End MoreOnPipeline.

(** *** The namespace registered at line 11 *)

Lemma elem_of_dict_set x k v d : x ∈ dict_set k v d → x = (k, v) ∨ x ∈ d.
Proof.
  induction d as [|[k' v'] d IH]; simpl.
  - intros ?%list_elem_of_singleton. by left.
  - destruct (decide (k' = k)) as [->|Hne].
    + intros [->|H]%elem_of_cons; [by left|right; by right].
    + intros [->|H]%elem_of_cons; [right; by left|].
      destruct (IH H) as [->|H']; [by left|right; by right].
Qed.

Lemma elem_of_dict_get k v d : dict_get k d = Some v → (k, v) ∈ d.
Proof.
  induction d as [|[k' v'] d IH]; simpl; [done|].
  destruct (decide (k' = k)) as [->|Hne].
  - intros [= ->]. by left.
  - intros H. right. by apply IH.
Qed.

Lemma registered_empty_prefix uri :
  dict_get uri _namespace_map = Some [] → uri = SVG_NS.
Proof.
  unfold _namespace_map. cbn [dict_get].
  repeat (destruct (decide _) as [<-|_]; [by intros [=] || done|]).
  done.
Qed.

Lemma svg_default_step st k st' :
  svg_default st → add_qname_once st k = Ok st' → svg_default st'.
Proof.
  intros (Hq & Hn & Hu). unfold add_qname_once.
  destruct (dict_mem k st.1) eqn:Hmem; [by intros [= <-]|].
  assert (SVG_ROOT ≠ k) as Hk.
  { intros <-. assert (dict_mem SVG_ROOT st.1 = true) as Ht; [|congruence].
    apply dict_mem_get. by rewrite Hq. }
  destruct st as [qnames namespaces]. unfold add_qname. cbn [fst snd] in *.
  destruct (startswith [LBRACE] k).
  2:{ intros [= <-]. split_and!; simpl; [by rewrite dict_get_set_ne|done|done]. }
  destruct (rpartition_char RBRACE (drop 1 k)) as [[uri local]|]; [|done].
  destruct (dict_get uri namespaces) as [p|] eqn:Hp.
  { intros [= <-]. split_and!; simpl; [by rewrite dict_get_set_ne|done|done]. }
  set (p := default _ _).
  assert (SVG_NS ≠ uri) as Huri by congruence.
  assert (p = [] → uri = SVG_NS) as Hpe.
  { subst p. destruct (dict_get uri _namespace_map) as [p'|] eqn:Hreg; simpl.
    - intros ->. by apply registered_empty_prefix.
    - done. }
  destruct (decide (p = str "xml")).
  { intros [= <-]. split_and!; simpl; [by rewrite dict_get_set_ne|done|done]. }
  intros [= <-]. split_and!; simpl.
  - by rewrite dict_get_set_ne.
  - by rewrite dict_get_set_ne.
  - intros x [->|Hx]%elem_of_dict_set Hx2; [|by apply Hu].
    simpl in Hx2. by destruct Huri; symmetry; apply Hpe.
Qed.

Lemma svg_default_loop names st st' :
  svg_default st → for_each add_qname_once st names = Ok st' → svg_default st'.
Proof.
  revert st. induction names as [|k names IH]; intros st Hst; simpl.
  - by intros [= <-].
  - destruct (add_qname_once st k) as [st1|] eqn:H1; [|done]. simpl.
    apply IH. by eapply svg_default_step.
Qed.

Lemma namespaces_svg_default t st :
  xtag t = SVG_ROOT → _namespaces t = Ok st → svg_default st.
Proof.
  intros Ht. rewrite namespaces_flat, names_of_eq, Ht. cbn [for_each].
  assert (add_qname_once ([], []) SVG_ROOT
          = Ok ([(SVG_ROOT, str "svg")], [(SVG_NS, [])])) as -> by by vm_compute.
  simpl. apply svg_default_loop. split_and!.
  - by vm_compute.
  - by vm_compute.
  - by intros x ->%list_elem_of_singleton.
Qed.

(** The declaration of the default namespace comes first. *)
Lemma insert_by_prefix_head u x rest :
  ∃ rest', insert_by_prefix x ((u, []) :: rest) = (u, []) :: rest'.
Proof. simpl. eauto. Qed.

Lemma insert_by_prefix_first u l :
  Forall (λ y, y.2 ≠ []) l → insert_by_prefix (u, []) l = (u, []) :: l.
Proof.
  destruct l as [|y l]; [done|]. intros [Hy _]%Forall_cons. simpl.
  destruct y as [uy [|c py]]; [done|done].
Qed.

Lemma insert_by_prefix_nonempty x l :
  x.2 ≠ [] → Forall (λ y, y.2 ≠ []) l →
  Forall (λ y, y.2 ≠ []) (insert_by_prefix x l).
Proof.
  intros Hx. induction 1 as [|y l Hy Hl IH]; simpl.
  - by constructor.
  - destruct (str_le y.2 x.2); [by constructor|].
    constructor; [done|by constructor].
Qed.

Lemma sorted_by_prefix_head u l : ∀ acc,
  (∀ x, x ∈ l → x.2 = [] → x = (u, [])) →
  (∃ rest, acc = (u, []) :: rest)
  ∨ (Forall (λ y, y.2 ≠ []) acc ∧ (u, []) ∈ l) →
  ∃ rest, foldl (λ acc x, insert_by_prefix x acc) acc l = (u, []) :: rest.
Proof.
  induction l as [|x l IH]; intros acc Hu Hacc.
  - destruct Hacc as [H|[_ H]]; [done|by apply elem_of_nil in H].
  - cbn [foldl]. apply IH.
    { intros y Hy. apply Hu. by right. }
    destruct Hacc as [[rest ->]|[Hne Hin]].
    { left. apply insert_by_prefix_head. }
    destruct (decide (x.2 = [])) as [Hx|Hx].
    + left. rewrite (Hu x) by (done || by left).
      rewrite insert_by_prefix_first by done. eauto.
    + right. split; [by apply insert_by_prefix_nonempty|].
      apply elem_of_cons in Hin as [<-|Hin]; [done|done].
Qed.

Lemma xmlns_decls_svg_default st :
  svg_default st →
  ∃ rest, xmlns_decls st.2
          = str " xmlns=" ++ [QUOT] ++ SVG_NS ++ [QUOT] ++ rest.
Proof.
  intros (_ & Hn & Hu). unfold xmlns_decls, sorted_by_prefix.
  destruct (sorted_by_prefix_head SVG_NS st.2 []) as [rest ->]; [done| |].
  { right. split; [constructor|]. by apply elem_of_dict_get. }
  rewrite bind_cons. eexists. rewrite decide_True by done.
  assert (_escape_attrib SVG_NS = SVG_NS) as -> by by vm_compute.
  rewrite <-!app_assoc. reflexivity.
Qed.

Lemma tostring_svg_default t out :
  xtag t = SVG_ROOT → tostring t = Ok out →
  ∃ rest, out = str "<svg xmlns=" ++ [QUOT] ++ SVG_NS ++ [QUOT] ++ rest.
Proof.
  intros Ht. unfold tostring.
  destruct (_namespaces t) as [st|] eqn:Hst; [|done]. simpl.
  pose proof (namespaces_svg_default t st Ht Hst) as Hd.
  destruct (xmlns_decls_svg_default st Hd) as [rest Hrest].
  destruct Hd as (Hq & _ & _).
  destruct t as [g a x l kids]. simpl in Ht. subst g.
  rewrite serialize_eq. unfold lookup_qname. rewrite Hq. simpl.
  destruct (serialize_attrs st.1 a) as [attrs|]; [|done]. simpl.
  destruct (serialize_kids st.1 kids) as [inner|]; [|done]. simpl.
  intros [= <-]. rewrite Hrest. eexists. rewrite <-!app_assoc. reflexivity.
Qed.

(** The two steps of line 65 keep a prefix that holds no [>] and neither
    starts nor ends with white space. *)
Lemma re_sub_prefix pre r :
  GT ∉ pre → re_sub_gt_ws_lt (pre ++ r) = pre ++ re_sub_gt_ws_lt r.
Proof.
  induction pre as [|c pre IH]; intros H; [done|].
  apply not_elem_of_cons in H as [Hc H].
  rewrite <-!app_comm_cons, re_sub_other by done. by rewrite IH.
Qed.

Lemma prefix_before_spaces pre d r y w :
  pre ++ r = y ++ w → spaces w → last pre = Some d → is_space d = false →
  ∃ r', y = pre ++ r'.
Proof.
  intros Heq Hw Hd Hsp. revert r Heq.
  induction w as [|x w IH] using rev_ind; intros r Heq.
  - rewrite app_nil_r in Heq. eauto.
  - apply Forall_app in Hw as [Hw Hx]. rewrite Forall_singleton in Hx.
    destruct (decide (r = [])) as [->|Hr].
    + rewrite app_nil_r in Heq. subst pre.
      rewrite app_assoc, last_snoc in Hd. injection Hd as <-. congruence.
    + destruct (exists_last Hr) as (r0 & x' & ->).
      rewrite !app_assoc in Heq. apply app_inj_tail in Heq as [Heq _].
      by apply (IH Hw r0).
Qed.

Lemma strip_prefix c pre d r :
  is_space c = false → last (c :: pre) = Some d → is_space d = false →
  ∃ r', strip ((c :: pre) ++ r) = (c :: pre) ++ r'.
Proof.
  intros Hc Hd Hsp. unfold strip.
  rewrite <-app_comm_cons, lstrip_id by done. rewrite app_comm_cons.
  destruct (rstrip_spec ((c :: pre) ++ r)) as (w & Hw & Hs & _).
  by apply (prefix_before_spaces (c :: pre) d r _ w).
Qed.

Section MoreOnNamespaces.
Variable fromstring : pystr → pystr + xml.
Variable unicode_lower : N → pystr.
Abbreviation normalize_svg := (normalize_svg fromstring unicode_lower).

(** X15: for an svg root in the SVG namespace the output begins with
    [<svg xmlns="http://www.w3.org/2000/svg"]: the namespace registered at
    line 11 is written without a prefix. *)
Theorem svg_namespace_declared x doc out :
  fromstring x = inr doc → names_ok doc = true →
  xtag doc = SVG_ROOT →
  normalize_svg x = Ok out →
  ∃ rest, out = str "<svg xmlns=" ++ [QUOT] ++ SVG_NS ++ [QUOT] ++ rest.
Proof.
  intros Hx Hok Ht.
  destruct (normalize_svg_refines fromstring unicode_lower x doc Hx Hok)
    as [_ ->].
  destruct (tostring (normalize_doc unicode_lower doc)) as [svg|] eqn:Hsvg;
    [|done].
  simpl. intros [= <-].
  apply tostring_svg_default in Hsvg as [rest ->].
  2:{ rewrite (normalize_doc_root unicode_lower). done. }
  set (pre := str "<svg xmlns=" ++ [QUOT] ++ SVG_NS ++ [QUOT]).
  replace (str "<svg xmlns=" ++ [QUOT] ++ SVG_NS ++ [QUOT] ++ rest)
    with (pre ++ rest) by (subst pre; by rewrite <-!app_assoc).
  rewrite re_sub_prefix.
  2:{ apply (bool_decide_eq_false_1 (GT ∈ pre)). by vm_compute. }
  destruct (strip_prefix LT (tl pre) QUOT (re_sub_gt_ws_lt rest))
    as [r' Hr']; [done|by vm_compute|done|].
  change (LT :: tl pre) with pre in Hr'. rewrite Hr'.
  exists r'. subst pre. by rewrite <-!app_assoc.
Qed.
End MoreOnNamespaces.

(** *** Examples *)

Abbreviation entries_of :=
  (build_entries Expat.fromstring Expat.ascii_lower).
Abbreviation run := (main Expat.fromstring Expat.ascii_lower Expat.no_template).

Lemma strip_ns_cases_witness :
  _strip_ns (str "path") = Ok (str "path")
  ∧ _strip_ns ([LBRACE] ++ SVG_NS ++ [RBRACE] ++ str "title") = Ok (str "title")
  ∧ _strip_ns (LBRACE :: str "svg")
    = Err (IndexError (str "list index out of range")).
Proof.
  destruct strip_ns_cases as (H1 & H2 & H3). split_and!.
  - apply H1. by_compute.
  - apply H2. apply (bool_decide_eq_false_1 (RBRACE ∈ SVG_NS)). by_compute.
  - apply H3. apply (bool_decide_eq_false_1 (RBRACE ∈ str "svg")). by_compute.
Defined.

Lemma elements_kept_in_order_witness :
  Expat.fromstring scenario = inr scenario_doc
  ∧ names_ok scenario_doc = true
  ∧ ∃ root, tree scenario_doc = Ok root
            ∧ outline root `sublist_of` outline scenario_doc.
Proof.
  split; [by_compute|]. split; [by_compute|].
  destruct (elements_kept_in_order Expat.fromstring Expat.ascii_lower
              scenario scenario_doc) as (root & Hroot & _ & _ & _ & _ & Hsub);
    [by_compute..|].
  by exists root.
Defined.

Lemma normalized_tree_idempotent_witness :
  names_ok scenario_doc = true
  ∧ tree scenario_doc = Ok scenario_root
  ∧ tree scenario_root = Ok scenario_root.
Proof.
  split; [by_compute|]. split; [by_compute|].
  apply (normalized_tree_idempotent Expat.ascii_lower scenario_doc); by_compute.
Defined.

Lemma output_starts_with_tag_witness :
  norm scenario = Ok scenario_out
  ∧ head scenario_out = Some LT ∧ splitlines scenario_out ≠ [].
Proof.
  assert (norm scenario = Ok scenario_out) as H by by_compute.
  split; [done|].
  exact (output_starts_with_tag Expat.fromstring Expat.ascii_lower _ _ H).
Defined.

Lemma theme_color_ignores_padding_witness :
  spaces (str " ") ∧ spaces [LF]
  ∧ is_theme_color Expat.ascii_lower (str " " ++ str "None" ++ [LF])
    = is_theme_color Expat.ascii_lower (str "None").
Proof.
  assert (spaces (str " ")) as H1 by (by repeat constructor).
  assert (spaces [LF]) as H2 by (by repeat constructor).
  split; [done|]. split; [done|].
  exact (theme_color_ignores_padding Expat.ascii_lower _ (str "None") _ H1 H2).
Defined.

Lemma build_entries_in_order_witness :
  norm (universal_newlines scenario) = Ok scenario_out
  ∧ entries_of icons_world = (Ok scenario_entries, icons_world).
Proof.
  assert (norm (universal_newlines scenario) = Ok scenario_out) as H
    by by_compute.
  split; [done|].
  rewrite (build_entries_in_order Expat.fromstring Expat.ascii_lower
             icons_world scenario scenario scenario
             scenario_out scenario_out scenario_out);
    [|by_compute|done|by_compute|done|by_compute|done].
  by_compute.
Defined.

Lemma build_entries_reads_sources_only_witness :
  (entries_of (target one_region)).2 = target one_region
  ∧ (entries_of (target two_regions)).1 = (entries_of (target one_region)).1.
Proof.
  apply (build_entries_reads_sources_only Expat.fromstring Expat.ascii_lower).
  intros stem key _. unfold target. cbn [files].
  by rewrite !lookup_singleton_ne by (symmetry; apply icon_path_not_target).
Defined.

Lemma update_touches_target_only_witness :
  update new_entries icons_world = (Ok true, (update new_entries icons_world).2)
  ∧ stdout (update new_entries icons_world).2 = stdout icons_world
  ∧ files (update new_entries icons_world).2 !! icon_path (str "ns")
    = Some scenario.
Proof.
  assert (update new_entries icons_world
          = (Ok true, (update new_entries icons_world).2)) as H by by_compute.
  split; [done|].
  destruct (update_touches_target_only Expat.no_template _ _ _ _ H)
    as (Hout & Hother & _).
  split; [done|]. rewrite Hother by apply icon_path_not_target. by_compute.
Defined.

Lemma missing_target_fails_witness :
  files (mkWorld ∅ []) !! ICONS_JS = None
  ∧ update new_entries (mkWorld ∅ [])
    = (Err (FileNotFoundError ICONS_JS), mkWorld ∅ []).
Proof.
  assert (files (mkWorld ∅ []) !! ICONS_JS = None) as H by by_compute.
  split; [done|].
  destruct (missing_target_fails Expat.fromstring Expat.ascii_lower
              Expat.no_template _ H) as [Hup _].
  apply Hup.
Defined.

(** With an escape in the entries the update message does not tell that
    the files have changed: the second run writes the bytes that the
    target holds already, and prints the update message again. *)
Example update_message_without_change :
  ∃ w1 w2,
    main Expat.fromstring Expat.ascii_lower newline_escapes escaped_world
    = (Ok 0, w1)
    ∧ main Expat.fromstring Expat.ascii_lower newline_escapes w1 = (Ok 0, w2)
    ∧ files w2 = files w1
    ∧ stdout w2 = [str "Updated icons.js from assets/icons";
                   str "Updated icons.js from assets/icons"].
Proof.
  eexists _, _. split; [vm_compute; reflexivity|].
  split; [vm_compute; reflexivity|]. split; vm_compute; reflexivity.
Qed.

Lemma main_reports_witness :
  run icons_world = (Ok 0, (run icons_world).2)
  ∧ (∀ entries, (entries_of icons_world).1 = Ok entries → BACKSLASH ∉ entries)
  ∧ stdout (run icons_world).2 = [str "Updated icons.js from assets/icons"].
Proof.
  assert (run icons_world = (Ok 0, (run icons_world).2)) as H by by_compute.
  assert (∀ entries, (entries_of icons_world).1 = Ok entries →
                     BACKSLASH ∉ entries) as Hbs.
  { intros entries He.
    assert ((entries_of icons_world).1 = Ok scenario_entries) as He'
      by by_compute.
    rewrite He' in He. injection He as <-.
    apply (bool_decide_eq_false_1 (BACKSLASH ∈ scenario_entries)). by_compute. }
  split; [done|]. split; [done|].
  destruct (main_reports Expat.fromstring Expat.ascii_lower Expat.no_template
              _ _ _ H) as (_ & _ & _ & Hout).
  rewrite (Hout Hbs). by_compute.
Defined.

Lemma markers_survive_witness :
  (BACKSLASH ∉ new_entries) ∧ (CR ∉ new_entries)
  ∧ update new_entries (target three_regions)
    = (Ok true, (update new_entries (target three_regions)).2)
  ∧ ∃ raw' a d,
      files (update new_entries (target three_regions)).2 !! ICONS_JS
      = Some raw'
      ∧ universal_newlines raw'
        = a ++ START_MARKER ++ [LF] ++ new_entries ++ [LF]
          ++ END_MARKER ++ d.
Proof.
  assert (BACKSLASH ∉ new_entries) as Hbs.
  { apply (bool_decide_eq_false_1 (BACKSLASH ∈ new_entries)). by_compute. }
  assert (CR ∉ new_entries) as Hcr.
  { apply (bool_decide_eq_false_1 (CR ∈ new_entries)). by_compute. }
  assert (update new_entries (target three_regions)
          = (Ok true, (update new_entries (target three_regions)).2)) as H
    by by_compute.
  split; [done|]. split; [done|]. split; [done|].
  by destruct (markers_survive Expat.no_template _ _ _ _ Hbs Hcr H) as [Hm _].
Defined.

Lemma second_run_up_to_date_witness :
  (entries_of icons_world).1 = Ok scenario_entries
  ∧ (BACKSLASH ∉ scenario_entries)
  ∧ occurrences END_MARKER scenario_entries = 0
  ∧ run icons_world = (Ok 0, (run icons_world).2)
  ∧ run (run icons_world).2
    = (Ok 0,
       mkWorld (files (run icons_world).2)
         [str "Updated icons.js from assets/icons";
          str "icons.js already up to date"]).
Proof.
  assert ((entries_of icons_world).1 = Ok scenario_entries) as Hb by by_compute.
  assert (BACKSLASH ∉ scenario_entries) as Hbs.
  { apply (bool_decide_eq_false_1 (BACKSLASH ∈ scenario_entries)). by_compute. }
  assert (occurrences END_MARKER scenario_entries = 0) as Hend by by_compute.
  assert (run icons_world = (Ok 0, (run icons_world).2)) as H by by_compute.
  split_and!; [done..|].
  rewrite (second_run_up_to_date Expat.fromstring Expat.ascii_lower
             Expat.no_template _ _ _ _ Hb Hbs Hend H).
  by_compute.
Defined.

Lemma svg_namespace_declared_witness :
  Expat.fromstring namespaced = inr namespaced_doc
  ∧ names_ok namespaced_doc = true ∧ xtag namespaced_doc = SVG_ROOT
  ∧ norm namespaced = Ok namespaced_out
  ∧ ∃ rest,
      namespaced_out = str "<svg xmlns=" ++ [QUOT] ++ SVG_NS ++ [QUOT] ++ rest.
Proof.
  assert (norm namespaced = Ok namespaced_out) as H by by_compute.
  split; [by_compute|]. split; [by_compute|]. split; [by_compute|].
  split; [done|].
  apply (svg_namespace_declared Expat.fromstring Expat.ascii_lower
           namespaced namespaced_doc); [by_compute|by_compute|by_compute|done].
Defined.
